(** * Station broadcast orchestrator: a shallow embedding and its properties

    The development follows two source files of the repository:
    - [audio-streamer/src/index.ts]: port allocation, station creation and
      the port migration at startup, the Auto DJ supervisor, the station
      handlers, the live DJ authentication hooks and the Icecast source
      authentication;
    - the stream synchronisation service ([syncStreamStatus] and its two
      handlers), which reconciles the persisted stream status with the
      streams reported by the origin server.

    JavaScript [Map]s are finite maps ([gmap]), the insertion-ordered [Set] of
    the reconciler is a duplicate-free list, SQL tables are lists of rows, and
    handlers are programs in a state-and-exception monad whose external calls
    may throw. The handlers of the orchestrator are given twice: as such
    programs, which run a handler from its first line to its last with nothing
    else in between, and as tasks of the event loop, which are suspended at
    every [await] and interleaved with each other. *)

From Stdlib Require Import Ascii.
From stdpp Require Import base option list gmap strings numbers fin_maps sorting.

Local Open Scope string_scope.
Local Open Scope Z_scope.
Local Open Scope list_scope.

(** ** Programs with state and exceptions *)

Inductive result (A : Type) : Type :=
| Ok (a : A)
| Thrown (e : string).
Arguments Ok {A} a.
Arguments Thrown {A} e.

Definition prog (S A : Type) : Type := S → result A * S.

Section Prog.
Context {S : Type}.

Definition ret {A} (a : A) : prog S A := λ s, (Ok a, s).

Definition bind {A B} (m : prog S A) (k : A → prog S B) : prog S B :=
  λ s, match m s with
       | (Ok a, s') => k a s'
       | (Thrown e, s') => (Thrown e, s')
       end.

Definition throw {A} (e : string) : prog S A := λ s, (Thrown e, s).

(** [try { m } catch (error) { h error }] *)
Definition try_catch {A} (m : prog S A) (h : string → prog S A) : prog S A :=
  λ s, match m s with
       | (Ok a, s') => (Ok a, s')
       | (Thrown e, s') => h e s'
       end.

Definition gets {A} (f : S → A) : prog S A := λ s, (Ok (f s), s).
Definition modify (f : S → S) : prog S unit := λ s, (Ok tt, f s).

(** [for (const x of xs) { body x }] over a snapshot of the elements. *)
Fixpoint for_of {A} (xs : list A) (body : A → prog S unit) : prog S unit :=
  match xs with
  | [] => ret tt
  | x :: xs' => bind (body x) (λ _, for_of xs' body)
  end.

Definition exec {A} (m : prog S A) (s : S) : S := (m s).2.
Definition eval {A} (m : prog S A) (s : S) : result A := (m s).1.

(** Every run of [m] relates the state before to the state after. *)
Definition stays {A} (R : relation S) (m : prog S A) : Prop := ∀ s, R s (m s).2.

(** [m] always completes normally. *)
Definition never_throws {A} (m : prog S A) : Prop := ∀ s, ∃ a, (m s).1 = Ok a.

(** The relation saying that the field [f] is unchanged. *)
Definition same {B} (f : S → B) : relation S := λ s s', f s' = f s.

(** [Q] holds of the outcome and the final state of [m] run from [s]. *)
Definition wp {A} (m : prog S A) (Q : result A → S → Prop) (s : S) : Prop :=
  Q (m s).1 (m s).2.
End Prog.

#[global] Instance prog_ret {S} : MRet (prog S) := λ A, @ret S A.
#[global] Instance prog_bind {S} : MBind (prog S) := λ A B k m, @bind S A B m k.

(** States that carry a schedule of failures for the external calls
    (database, Redis, message bus): the head of the schedule decides whether
    the next external call throws; an empty schedule means no failure. *)
Class Faulty (S : Type) := {
  faults : S → list bool;
  set_faults : list bool → S → S
}.

Definition external_call {S} `{Faulty S} (what : string) : prog S unit :=
  λ s, match faults s with
       | true :: fs => (Thrown what, set_faults fs s)
       | false :: fs => (Ok tt, set_faults fs s)
       | [] => (Ok tt, s)
       end.

(** ** Strings *)

(** [strip_prefix p s] is the rest of [s] after the prefix [p], if [p] is one. *)
Fixpoint strip_prefix (p s : string) : option string :=
  match p with
  | EmptyString => Some s
  | String a p' =>
      match s with
      | EmptyString => None
      | String b s' => if decide (a = b) then strip_prefix p' s' else None
      end
  end.

(** [s.replace(pat, rep)] with a string pattern: the first occurrence only. *)
Fixpoint replace_first (pat rep s : string) : string :=
  match strip_prefix pat s with
  | Some rest => rep +:+ rest
  | None =>
      match s with
      | EmptyString => EmptyString
      | String c s' => String c (replace_first pat rep s')
      end
  end.

(** [s.replace(/^\//, '')]: one leading slash is removed. *)
Definition strip_leading_slash (s : string) : string :=
  match strip_prefix "/" s with
  | Some rest => rest
  | None => s
  end.

(** ** Port allocation ([getNextAvailablePort]) *)

Module PortAllocator.

Definition BASE_STREAM_PORT : Z := 8001.
Definition MAX_STREAM_PORT : Z := 8100.

(** The thrown [Error('No available ports for new station')]. *)
Inductive alloc_error := NoAvailablePorts.

Definition error_message (e : alloc_error) : string :=
  match e with
  | NoAvailablePorts => "No available ports for new station"
  end.

(** A lease: the [stream_port] column (nullable) of an [audio_stations] row. *)
Record lease := { lease_station : string; stream_port : option Z }.

(** [SELECT stream_port FROM audio_stations WHERE stream_port IS NOT NULL]
    collected into [new Set(...)]. *)
Definition usedPorts (rows : list lease) : gset Z :=
  list_to_set (omap stream_port rows).

(** The loop [for (port = BASE; port <= MAX; port++)] with [n] iterations
    left, starting at [port]. *)
Fixpoint scan (used : gset Z) (port : Z) (n : nat) : option Z :=
  match n with
  | O => None
  | S n' => if decide (port ∈ used) then scan used (port + 1) n' else Some port
  end.

Definition getNextAvailablePort (rows : list lease) : Z + alloc_error :=
  match scan (usedPorts rows) BASE_STREAM_PORT
             (Z.to_nat (MAX_STREAM_PORT - BASE_STREAM_PORT + 1)) with
  | Some port => inl port
  | None => inr NoAvailablePorts
  end.

(** Leases of the stations that hold a port. *)
Definition leased_ports (rows : list lease) : list Z := omap stream_port rows.

(** The row written by station creation with the allocated port. *)
Definition assign (sid : string) (port : Z) (rows : list lease) : list lease :=
  rows ++ [ {| lease_station := sid; stream_port := Some port |} ].

End PortAllocator.

(** ** Stream status reconciliation ([syncStreamStatus]) *)

Module StreamSync.

(** *** The origin server's reply *)

Record SrsPublish := { active : bool; cid : string }.

(** The field [publish], read with [s.publish?.active]: it may be missing. *)
Record SrsStream := { name : string; srs_publish : option SrsPublish }.

Record SrsStreamsResponse := { code : Z; streams : list SrsStream }.

(** What [fetch] and [response.json()] can produce in one cycle. *)
Inductive fetch_outcome :=
| FetchThrows                         (* origin unreachable: [fetch] rejects *)
| HttpNotOk (statusText : string)     (* [!response.ok] *)
| JsonThrows                          (* the body is not JSON *)
| HttpOk (data : SrsStreamsResponse).

(** *** Persistent and in-memory state *)

(** A row of the [streams] table, with the columns the service touches. *)
Record stream_row := {
  stream_id : string;
  user_id : string;
  title : string;
  recording_enabled : bool;
  stream_key : string;
  status : string;
  actual_start : option Z;
  actual_end : option Z;
  updated_at : Z
}.

(** The value stored by [setStreamState]. *)
Record stream_state := {
  state_id : string;
  state_status : string;
  startTime : Z;
  recordingEnabled : bool
}.

(** Messages handed to [publish(topic, payload)]. *)
Inductive notification :=
| StreamStart (streamId streamKey userId : string) (recording : bool)
| RecordingStart (streamId streamKey userId title : string)
| RecordingStop (streamId streamKey : string)
| StreamStop (streamId streamKey : string).

Definition topic (n : notification) : string :=
  match n with
  | StreamStart _ _ _ _ => "stream:start"
  | RecordingStart _ _ _ _ => "recording:start"
  | RecordingStop _ _ => "recording:stop"
  | StreamStop _ _ => "stream:stop"
  end.

Record state := {
  streams_table : list stream_row;
  redis_states : gmap string stream_state;
  published : list notification;            (* oldest first *)
  knownActiveStreams : list string;         (* a [Set]: insertion order, no duplicates *)
  now : Z;                                  (* the clock read by [NOW()] and [new Date()] *)
  pending_faults : list bool
}.

Definition with_streams (t : list stream_row) (s : state) : state :=
  {| streams_table := t; redis_states := redis_states s; published := published s;
     knownActiveStreams := knownActiveStreams s; now := now s;
     pending_faults := pending_faults s |}.

Definition with_redis (m : gmap string stream_state) (s : state) : state :=
  {| streams_table := streams_table s; redis_states := m; published := published s;
     knownActiveStreams := knownActiveStreams s; now := now s;
     pending_faults := pending_faults s |}.

Definition with_published (p : list notification) (s : state) : state :=
  {| streams_table := streams_table s; redis_states := redis_states s; published := p;
     knownActiveStreams := knownActiveStreams s; now := now s;
     pending_faults := pending_faults s |}.

Definition with_known (k : list string) (s : state) : state :=
  {| streams_table := streams_table s; redis_states := redis_states s;
     published := published s; knownActiveStreams := k; now := now s;
     pending_faults := pending_faults s |}.

Definition with_faults (f : list bool) (s : state) : state :=
  {| streams_table := streams_table s; redis_states := redis_states s;
     published := published s; knownActiveStreams := knownActiveStreams s;
     now := now s; pending_faults := f |}.

Definition with_now (t : Z) (s : state) : state :=
  {| streams_table := streams_table s; redis_states := redis_states s;
     published := published s; knownActiveStreams := knownActiveStreams s;
     now := t; pending_faults := pending_faults s |}.

#[global] Instance state_faulty : Faulty state :=
  {| faults := pending_faults; set_faults := with_faults |}.

(** *** The JavaScript [Set] of stream keys *)

Definition set_has (x : string) (s : list string) : bool := bool_decide (x ∈ s).

Definition set_add (x : string) (s : list string) : list string :=
  if set_has x s then s else s ++ [x].

Definition set_delete (x : string) (s : list string) : list string :=
  filter (λ y, y ≠ x) s.

(** [new Set(array)] *)
Definition set_of_list (l : list string) : list string :=
  foldl (λ s x, set_add x s) [] l.

(** *** External calls *)

(** [UPDATE streams SET status = 'live', actual_start = COALESCE(actual_start,
    NOW()), updated_at = NOW() WHERE stream_key = $1 AND status != 'live'] *)
Definition start_matches (key : string) (r : stream_row) : Prop :=
  stream_key r = key ∧ status r ≠ "live".

#[global] Instance start_matches_dec key r : Decision (start_matches key r).
Proof. unfold start_matches. apply _. Defined.

Definition mark_live (t : Z) (r : stream_row) : stream_row :=
  {| stream_id := stream_id r; user_id := user_id r; title := title r;
     recording_enabled := recording_enabled r; stream_key := stream_key r;
     status := "live";
     actual_start := Some (default t (actual_start r));
     actual_end := actual_end r;
     updated_at := t |}.

Definition update_start (key : string) (t : Z) (r : stream_row) : stream_row :=
  if decide (start_matches key r) then mark_live t r else r.

(** The query of [handleStreamStart]; the result is its [RETURNING] rows. *)
Definition query_start (key : string) : prog state (list stream_row) :=
  external_call "query";;
  rows ← gets (λ s, mark_live (now s) <$> filter (start_matches key) (streams_table s));
  modify (λ s, with_streams (update_start key (now s) <$> streams_table s) s);;
  mret rows.

(** [UPDATE streams SET status = 'ended', actual_end = NOW(), updated_at =
    NOW() WHERE stream_key = $1 AND status = 'live'] *)
Definition end_matches (key : string) (r : stream_row) : Prop :=
  stream_key r = key ∧ status r = "live".

#[global] Instance end_matches_dec key r : Decision (end_matches key r).
Proof. unfold end_matches. apply _. Defined.

Definition mark_ended (t : Z) (r : stream_row) : stream_row :=
  {| stream_id := stream_id r; user_id := user_id r; title := title r;
     recording_enabled := recording_enabled r; stream_key := stream_key r;
     status := "ended";
     actual_start := actual_start r;
     actual_end := Some t;
     updated_at := t |}.

Definition update_end (key : string) (t : Z) (r : stream_row) : stream_row :=
  if decide (end_matches key r) then mark_ended t r else r.

Definition query_end (key : string) : prog state (list stream_row) :=
  external_call "query";;
  rows ← gets (λ s, mark_ended (now s) <$> filter (end_matches key) (streams_table s));
  modify (λ s, with_streams (update_end key (now s) <$> streams_table s) s);;
  mret rows.

(** [setStreamState(key, value)]; [null] clears the record. *)
Definition setStreamState (key : string) (v : option stream_state) : prog state unit :=
  external_call "setStreamState";;
  modify (λ s, with_redis (match v with
                           | Some x => <[key := x]> (redis_states s)
                           | None => delete key (redis_states s)
                           end) s).

Definition publish (n : notification) : prog state unit :=
  external_call "publish";;
  modify (λ s, with_published (published s ++ [n]) s).

(** *** The handlers *)

Definition handleStreamStart (streamKey : string) : prog state unit :=
  try_catch
    (rows ← query_start streamKey;
     match rows with
     | stream :: _ =>
         t ← gets now;
         setStreamState streamKey
           (Some {| state_id := stream_id stream; state_status := "live";
                    startTime := t;
                    recordingEnabled := recording_enabled stream |});;
         publish (StreamStart (stream_id stream) streamKey (user_id stream)
                              (recording_enabled stream));;
         (if recording_enabled stream
          then publish (RecordingStart (stream_id stream) streamKey
                                       (user_id stream) (title stream))
          else mret tt)
     | [] => mret tt
     end)
    (λ _, mret tt).

Definition handleStreamEnd (streamKey : string) : prog state unit :=
  try_catch
    (rows ← query_end streamKey;
     match rows with
     | row :: _ =>
         publish (RecordingStop (stream_id row) streamKey);;
         setStreamState streamKey None;;
         publish (StreamStop (stream_id row) streamKey)
     | [] => mret tt
     end)
    (λ _, mret tt).

(** *** One reconciliation cycle *)

Definition is_publishing (s : SrsStream) : bool :=
  match srs_publish s with
  | Some p => active p
  | None => false
  end.

Definition activeStreamKeys (data : SrsStreamsResponse) : list string :=
  set_of_list ((λ s, replace_first ".m3u8" "" (name s)) <$>
               filter (λ s, is_publishing s = true) (streams data)).

Definition sync_body (data : SrsStreamsResponse) : prog state unit :=
  let active := activeStreamKeys data in
  for_of active (λ streamKey,
    known ← gets knownActiveStreams;
    if negb (set_has streamKey known) then
      handleStreamStart streamKey;;
      modify (λ s, with_known (set_add streamKey (knownActiveStreams s)) s)
    else mret tt);;
  known ← gets knownActiveStreams;
  for_of known (λ streamKey,
    if negb (set_has streamKey active) then
      handleStreamEnd streamKey;;
      modify (λ s, with_known (set_delete streamKey (knownActiveStreams s)) s)
    else mret tt).

Definition syncStreamStatus (r : fetch_outcome) : prog state unit :=
  try_catch
    (match r with
     | FetchThrows => throw "fetch failed"
     | HttpNotOk _ => mret tt
     | JsonThrows => throw "invalid json"
     | HttpOk data =>
         if decide (code data ≠ 0) then mret tt else sync_body data
     end)
    (λ _, mret tt).

(** A cycle fails when the origin cannot be read or reports an error. *)
Definition cycle_failed (r : fetch_outcome) : Prop :=
  match r with
  | HttpOk data => code data ≠ 0
  | _ => True
  end.

(** The notifications published between two states. *)
Definition new_notifications (s s' : state) : list notification :=
  drop (length (published s)) (published s').

(** The cycle that the interval timer starts at time [t]. *)
Definition tick (s : state) (c : Z * fetch_outcome) : state :=
  exec (syncStreamStatus c.2) (with_now c.1 s).

Definition cycles (s : state) (cs : list (Z * fetch_outcome)) : state :=
  foldl tick s cs.

(** A row keeps its identity and, once set, its start timestamp. *)
Definition start_kept (r r' : stream_row) : Prop :=
  stream_id r' = stream_id r ∧ stream_key r' = stream_key r ∧
  ∀ t, actual_start r = Some t → actual_start r' = Some t.

Definition starts_kept : relation state :=
  λ s s', Forall2 start_kept (streams_table s) (streams_table s').

(** What a detected start does to one row. *)
Definition started (key : string) (t : Z) (r r' : stream_row) : Prop :=
  if decide (start_matches key r)
  then status r' = "live" ∧ actual_start r' = Some (default t (actual_start r)) ∧
       actual_end r' = actual_end r
  else r' = r.

(** What a detected end does to one row. *)
Definition ended (key : string) (t : Z) (r r' : stream_row) : Prop :=
  if decide (end_matches key r)
  then status r' = "ended" ∧ actual_end r' = Some t ∧
       actual_start r' = actual_start r
  else r' = r.

(** The second loop of a cycle on the known set: keys still reported stay. *)
Definition drop_ended (active : list string) (s : list string) (x : string) :=
  if set_has x active then s else set_delete x s.

(** Reading of "recording-stopped is emitted only when recording is
    configured" for the end of the stream [key]. *)
Definition recording_stop_only_when_configured (key : string) (s : state) : Prop :=
  ∀ n, n ∈ new_notifications s (exec (handleStreamEnd key) s) →
       topic n = "recording:stop" →
       ∃ r, r ∈ streams_table s ∧ stream_key r = key ∧ recording_enabled r = true.

(** *** Sample data *)

Definition sample_row : stream_row :=
  {| stream_id := "42"; user_id := "u7"; title := "Morning show";
     recording_enabled := false; stream_key := "abc"; status := "live";
     actual_start := Some 100; actual_end := None; updated_at := 100 |}.

(** A live stream without recording that the service knows as active. *)
Definition sample_state : state :=
  {| streams_table := [sample_row]; redis_states := ∅; published := [];
     knownActiveStreams := ["abc"]; now := 500; pending_faults := [] |}.

(** A scheduled stream that has not been seen yet. *)
Definition fresh_state : state :=
  {| streams_table :=
       [ {| stream_id := "43"; user_id := "u7"; title := "Evening show";
            recording_enabled := true; stream_key := "xyz"; status := "scheduled";
            actual_start := None; actual_end := None; updated_at := 0 |} ];
     redis_states := ∅; published := []; knownActiveStreams := []; now := 900;
     pending_faults := [] |}.

Definition srs_reply (names : list string) : SrsStreamsResponse :=
  {| code := 0;
     streams := (λ n, {| name := n; srs_publish := Some {| active := true; cid := "c" |} |})
                  <$> names |}.

End StreamSync.

(** ** The orchestrator: Auto DJ supervisor and live DJ hooks *)

Module Orchestrator.

(** *** Database tables

    Nullable boolean columns are read through JavaScript truthiness or
    compared with [= true] in SQL, so [NULL] behaves as [false]. *)

Record station_row := {
  station_id : string;
  station_name : string;
  mount_point : string;
  source_password : option string;
  bitrate : Z;
  is_active : bool;
  auto_dj_enabled : bool;
  auto_dj_playlist_id : option string;
  created_by : option string
}.

Record dj_row := {
  dj_id : string;
  dj_station_id : string;
  stream_password : string;
  can_stream : bool;
  dj_is_active : bool;
  last_connected : option Z
}.

Record playlist_row := {
  playlist_id : string;
  playlist_station_id : string;
  is_default : bool
}.

Record playlist_track_row := {
  pt_playlist_id : string;
  pt_track_id : string;
  position : Z
}.

Record track_row := { track_id : string; file_path : string }.

(** One row per station, keyed by [station_id]. *)
Record now_playing_row := {
  np_track_id : option string;
  np_dj_id : option string;
  np_is_live : bool;
  np_updated_at : Z
}.

Record history_row := {
  history_station_id : string;
  history_started_at : Z;
  history_ended_at : Z;
  history_stream_type : string
}.

Record database := {
  audio_stations : list station_row;
  station_djs : list dj_row;
  station_playlists : list playlist_row;
  playlist_tracks : list playlist_track_row;
  audio_tracks : list track_row;
  now_playing : gmap string now_playing_row;
  stream_history : list history_row
}.

Definition with_now_playing (m : gmap string now_playing_row) (d : database) : database :=
  {| audio_stations := audio_stations d; station_djs := station_djs d;
     station_playlists := station_playlists d; playlist_tracks := playlist_tracks d;
     audio_tracks := audio_tracks d; now_playing := m;
     stream_history := stream_history d |}.

Definition with_history (h : list history_row) (d : database) : database :=
  {| audio_stations := audio_stations d; station_djs := station_djs d;
     station_playlists := station_playlists d; playlist_tracks := playlist_tracks d;
     audio_tracks := audio_tracks d; now_playing := now_playing d;
     stream_history := h |}.

Definition with_stations (l : list station_row) (d : database) : database :=
  {| audio_stations := l; station_djs := station_djs d;
     station_playlists := station_playlists d; playlist_tracks := playlist_tracks d;
     audio_tracks := audio_tracks d; now_playing := now_playing d;
     stream_history := stream_history d |}.

Definition with_djs (l : list dj_row) (d : database) : database :=
  {| audio_stations := audio_stations d; station_djs := l;
     station_playlists := station_playlists d; playlist_tracks := playlist_tracks d;
     audio_tracks := audio_tracks d; now_playing := now_playing d;
     stream_history := stream_history d |}.

(** *** In-memory registries, processes and timers *)

(** A value of [liveDJConnections]. *)
Record connection := { stationId : string; djId : string }.

(** Callbacks handed to [setTimeout]. *)
Inductive timer_action :=
| StartAtBoot (station : string)              (* [main], 5000 ms *)
| RestartAfterExit (station : string)         (* exit handler, 5000 ms *)
| RestartAfterDisconnect (station : string).  (* dj-disconnect, 2000 ms *)

Record timer := { due : Z; callback : timer_action }.

(** Side effects on processes and registries, in the order they happen. *)
Inductive action :=
| WritePlaylist (station : string) (files : list string)
| Spawn (pid : nat) (station mount : string)
| Kill (pid : nat)                            (* [process.kill('SIGTERM')] *)
| ProcSet (station : string) (pid : nat)      (* [autoDJProcesses.set] *)
| ProcDelete (station : string)               (* [autoDJProcesses.delete] *)
| LiveSet (mount : string) (c : connection)   (* [liveDJConnections.set] *)
| LiveDelete (mount : string)                 (* [liveDJConnections.delete] *)
| KillMount (mountPoint : string)             (* [killIcecastMount] *)
| StopIcecast (station : string).             (* [stopIcecastForStation] *)

Record state := {
  env_source_password : option string;   (* [process.env.ICECAST_SOURCE_PASSWORD] *)
  db : database;
  autoDJProcesses : gmap string nat;     (* station id -> process *)
  liveDJConnections : gmap string connection;  (* mount -> connection *)
  alive : gmap nat string;               (* spawned processes that have not exited *)
  next_pid : nat;
  timers : list timer;
  clock : Z;
  actions : list action;                 (* oldest first *)
  pending_faults : list bool
}.

Definition with_db (d : database) (s : state) : state :=
  {| env_source_password := env_source_password s; db := d;
     autoDJProcesses := autoDJProcesses s; liveDJConnections := liveDJConnections s;
     alive := alive s; next_pid := next_pid s; timers := timers s; clock := clock s;
     actions := actions s; pending_faults := pending_faults s |}.

Definition with_procs (m : gmap string nat) (s : state) : state :=
  {| env_source_password := env_source_password s; db := db s;
     autoDJProcesses := m; liveDJConnections := liveDJConnections s;
     alive := alive s; next_pid := next_pid s; timers := timers s; clock := clock s;
     actions := actions s; pending_faults := pending_faults s |}.

Definition with_live (m : gmap string connection) (s : state) : state :=
  {| env_source_password := env_source_password s; db := db s;
     autoDJProcesses := autoDJProcesses s; liveDJConnections := m;
     alive := alive s; next_pid := next_pid s; timers := timers s; clock := clock s;
     actions := actions s; pending_faults := pending_faults s |}.

Definition with_alive (m : gmap nat string) (n : nat) (s : state) : state :=
  {| env_source_password := env_source_password s; db := db s;
     autoDJProcesses := autoDJProcesses s; liveDJConnections := liveDJConnections s;
     alive := m; next_pid := n; timers := timers s; clock := clock s;
     actions := actions s; pending_faults := pending_faults s |}.

Definition with_timers (t : list timer) (s : state) : state :=
  {| env_source_password := env_source_password s; db := db s;
     autoDJProcesses := autoDJProcesses s; liveDJConnections := liveDJConnections s;
     alive := alive s; next_pid := next_pid s; timers := t; clock := clock s;
     actions := actions s; pending_faults := pending_faults s |}.

Definition with_clock (t : Z) (s : state) : state :=
  {| env_source_password := env_source_password s; db := db s;
     autoDJProcesses := autoDJProcesses s; liveDJConnections := liveDJConnections s;
     alive := alive s; next_pid := next_pid s; timers := timers s; clock := t;
     actions := actions s; pending_faults := pending_faults s |}.

Definition with_actions (a : list action) (s : state) : state :=
  {| env_source_password := env_source_password s; db := db s;
     autoDJProcesses := autoDJProcesses s; liveDJConnections := liveDJConnections s;
     alive := alive s; next_pid := next_pid s; timers := timers s; clock := clock s;
     actions := a; pending_faults := pending_faults s |}.

Definition with_faults (f : list bool) (s : state) : state :=
  {| env_source_password := env_source_password s; db := db s;
     autoDJProcesses := autoDJProcesses s; liveDJConnections := liveDJConnections s;
     alive := alive s; next_pid := next_pid s; timers := timers s; clock := clock s;
     actions := actions s; pending_faults := f |}.

#[global] Instance state_faulty : Faulty state :=
  {| faults := pending_faults; set_faults := with_faults |}.

(** The state of a freshly started service: [main] has scheduled a start
    for every active station with the Auto DJ enabled. *)
Definition boot (env : option string) (d : database) (f : list bool) : state :=
  {| env_source_password := env; db := d; autoDJProcesses := ∅;
     liveDJConnections := ∅; alive := ∅; next_pid := 0%nat;
     timers := (λ r, {| due := 5000; callback := StartAtBoot (station_id r) |})
                 <$> filter (λ r, auto_dj_enabled r = true ∧ is_active r = true)
                            (audio_stations d);
     clock := 0; actions := []; pending_faults := f |}.

(** [process.env.ICECAST_SOURCE_PASSWORD || 'streaming_source_123'] *)
Definition ICECAST_SOURCE_PASSWORD (s : state) : string :=
  match env_source_password s with
  | Some p => if decide (p = "") then "streaming_source_123" else p
  | None => "streaming_source_123"
  end.

(** *** Primitive steps *)

Definition log (a : action) : prog state unit :=
  modify (λ s, with_actions (actions s ++ [a]) s).

(** [await pool.query(SELECT ...)] *)
Definition query {A} (f : database → A) : prog state A :=
  external_call "pool.query";;
  gets (λ s, f (db s)).

(** [await pool.query(INSERT/UPDATE/DELETE ...)]; [NOW()] is the clock. *)
Definition db_exec (f : Z → database → database) : prog state unit :=
  external_call "pool.query";;
  modify (λ s, with_db (f (clock s) (db s)) s).

Definition setTimeout (cb : timer_action) (delay : Z) : prog state unit :=
  modify (λ s, with_timers (timers s ++ [ {| due := clock s + delay; callback := cb |} ]) s).

(** HTTP responses. *)
Inductive body :=
| Text (s : string)
| Json (fields : list (string * string)).

Record response := {
  http_status : Z;
  headers : list (string * string);
  http_body : body
}.

Definition respond (st : Z) (b : body) : prog state response :=
  mret {| http_status := st; headers := []; http_body := b |}.

(** *** Observers (the status endpoint) *)

(** [autoDJProcesses.has(id)] *)
Definition isRunning (s : state) (id : string) : bool :=
  bool_decide (is_Some (autoDJProcesses s !! id)).

(** [[...liveDJConnections.values()].some(c => c.stationId === id)] *)
Definition hasLiveDJ (s : state) (id : string) : bool :=
  bool_decide (Exists (λ kc, stationId kc.2 = id) (map_to_list (liveDJConnections s))).

(** *** Queries *)

(** [SELECT * FROM audio_stations WHERE id = $1] *)
Definition station_by_id (id : string) (d : database) : list station_row :=
  filter (λ r, station_id r = id) (audio_stations d).

(** [SELECT * FROM audio_stations WHERE id = $1 AND created_by = $2] *)
Definition station_owned (id userId : string) (d : database) : list station_row :=
  filter (λ r, station_id r = id ∧ created_by r = Some userId) (audio_stations d).

(** [SELECT ... FROM audio_stations WHERE mount_point = $1] *)
Definition station_by_mount (mountPoint : string) (d : database) : list station_row :=
  filter (λ r, mount_point r = mountPoint) (audio_stations d).

(** A non-null, non-empty playlist id is truthy. *)
Definition chosen_playlist (playlistId : option string) : option string :=
  match playlistId with
  | Some i => if decide (i = "") then None else Some i
  | None => None
  end.

Definition playlist_selected (stationId : string) (playlistId : option string)
    (pt : playlist_track_row) (p : playlist_row) : Prop :=
  playlist_id p = pt_playlist_id pt ∧ playlist_station_id p = stationId ∧
  match chosen_playlist playlistId with
  | Some i => playlist_id p = i
  | None => is_default p = true
  end.

#[global] Instance playlist_selected_dec sid pl pt p :
  Decision (playlist_selected sid pl pt p).
Proof. unfold playlist_selected. destruct (chosen_playlist pl); apply _. Defined.

(** [ORDER BY pt.position] *)
Definition by_position (a b : Z * track_row) : Prop := (a.1 ≤ b.1)%Z.

#[global] Instance by_position_dec : RelDecision by_position.
Proof. intros a b. unfold by_position. apply _. Defined.

(** The track query of [startAutoDJ]: the join of [playlist_tracks],
    [audio_tracks] and [station_playlists], ordered by position. *)
Definition tracks_query (stationId : string) (playlistId : option string)
    (d : database) : list track_row :=
  let joined : list (Z * track_row) :=
    pt ← playlist_tracks d;
    t ← filter (λ t, track_id t = pt_track_id pt) (audio_tracks d);
    p ← filter (playlist_selected stationId playlistId pt) (station_playlists d);
    [(position pt, t)] in
  snd <$> merge_sort by_position joined.

(** The join of [station_djs] with [audio_stations] made by the DJ
    authentication hook. *)
Definition dj_matches (mountPoint : string) (pass : option string)
    (row : dj_row * station_row) : Prop :=
  dj_station_id row.1 = station_id row.2 ∧ mount_point row.2 = mountPoint ∧
  Some (stream_password row.1) = pass ∧
  dj_is_active row.1 = true ∧ can_stream row.1 = true.

#[global] Instance dj_matches_dec mp pass row : Decision (dj_matches mp pass row).
Proof. unfold dj_matches. apply _. Defined.

Definition dj_query (mountPoint : string) (pass : option string) (d : database)
    : list (dj_row * station_row) :=
  filter (dj_matches mountPoint pass)
         (dj ← station_djs d; s ← audio_stations d; [(dj, s)]).

(** *** Statements *)

(** [INSERT INTO now_playing (station_id, track_id, is_live, updated_at) ...
    ON CONFLICT (station_id) DO UPDATE SET track_id = $2, is_live = false] *)
Definition upsert_track (sid tid : string) (t : Z) (d : database) : database :=
  with_now_playing
    (<[sid := {| np_track_id := Some tid;
                 np_dj_id := now_playing d !! sid ≫= np_dj_id;
                 np_is_live := false; np_updated_at := t |}]> (now_playing d)) d.

(** [INSERT INTO now_playing (station_id, dj_id, is_live, updated_at) ...
    ON CONFLICT (station_id) DO UPDATE SET dj_id = $2, is_live = true,
    track_id = NULL] *)
Definition upsert_live (sid did : string) (t : Z) (d : database) : database :=
  with_now_playing
    (<[sid := {| np_track_id := None; np_dj_id := Some did;
                 np_is_live := true; np_updated_at := t |}]> (now_playing d)) d.

(** [DELETE FROM now_playing WHERE station_id = $1] *)
Definition clear_now_playing (sid : string) (_ : Z) (d : database) : database :=
  with_now_playing (delete sid (now_playing d)) d.

(** [INSERT INTO stream_history ... VALUES ($1, NOW() - INTERVAL '1 hour',
    NOW(), 'auto_dj')], the clock counting milliseconds. *)
Definition append_history (sid : string) (t : Z) (d : database) : database :=
  with_history (stream_history d ++
    [ {| history_station_id := sid; history_started_at := t - 3600000;
         history_ended_at := t; history_stream_type := "auto_dj" |} ]) d.

(** [UPDATE station_djs SET last_connected = NOW() WHERE id = $1] *)
Definition touch_dj (did : string) (t : Z) (d : database) : database :=
  with_djs ((λ r, if decide (dj_id r = did)
                  then {| dj_id := dj_id r; dj_station_id := dj_station_id r;
                          stream_password := stream_password r;
                          can_stream := can_stream r; dj_is_active := dj_is_active r;
                          last_connected := Some t |}
                  else r) <$> station_djs d) d.

(** The settings sent to [PUT /api/audio/stations/:id]; an absent field keeps
    the stored value ([COALESCE]). *)
Record station_update := {
  new_name : option string;
  new_bitrate : option Z;
  new_is_active : option bool;
  new_auto_dj_enabled : option bool;
  new_auto_dj_playlist_id : option string
}.

(** [UPDATE audio_stations SET name = COALESCE($1, name), ... WHERE id = $9] *)
Definition update_station (id : string) (u : station_update) (_ : Z) (d : database)
    : database :=
  with_stations
    ((λ r, if decide (station_id r = id)
           then {| station_id := station_id r;
                   station_name := default (station_name r) (new_name u);
                   mount_point := mount_point r;
                   source_password := source_password r;
                   bitrate := default (bitrate r) (new_bitrate u);
                   is_active := default (is_active r) (new_is_active u);
                   auto_dj_enabled := default (auto_dj_enabled r) (new_auto_dj_enabled u);
                   auto_dj_playlist_id :=
                     match new_auto_dj_playlist_id u with
                     | Some i => Some i
                     | None => auto_dj_playlist_id r
                     end;
                   created_by := created_by r |}
           else r) <$> audio_stations d) d.

(** [DELETE FROM audio_stations WHERE id = $1] with its cascades. *)
Definition delete_station_row (sid : string) (_ : Z) (d : database) : database :=
  let gone_djs := dj_id <$> filter (λ r, dj_station_id r = sid) (station_djs d) in
  let gone_pls := playlist_id <$> filter (λ p, playlist_station_id p = sid)
                                          (station_playlists d) in
  {| audio_stations := filter (λ r, station_id r ≠ sid) (audio_stations d);
     station_djs := filter (λ r, dj_station_id r ≠ sid) (station_djs d);
     station_playlists := filter (λ p, playlist_station_id p ≠ sid) (station_playlists d);
     playlist_tracks := filter (λ pt, pt_playlist_id pt ∉ gone_pls) (playlist_tracks d);
     audio_tracks := audio_tracks d;
     now_playing :=
       (λ r, {| np_track_id := np_track_id r;
                np_dj_id := (match np_dj_id r with
                             | Some i => if decide (i ∈ gone_djs) then None else Some i
                             | None => None
                             end);
                np_is_live := np_is_live r; np_updated_at := np_updated_at r |})
         <$> delete sid (now_playing d);
     stream_history := filter (λ h, history_station_id h ≠ sid) (stream_history d) |}.

(** *** The Auto DJ supervisor

    From here on, an [async] function is written as the program that it is
    when nothing else runs at its [await]s. [Interleaving] has the same
    functions as tasks with their suspension points, and relates the two. *)

(** [spawn('ffmpeg', args)]: a fresh process whose exit handler belongs to
    the station. *)
Definition spawn_ffmpeg (sid mount : string) : prog state nat :=
  pid ← gets next_pid;
  modify (λ s, with_alive (<[pid := sid]> (alive s)) (S pid) s);;
  log (Spawn pid sid mount);;
  mret pid.

Definition startAutoDJ (stationId : string) : prog state unit :=
  running ← gets (λ s, isRunning s stationId);
  if running : bool then mret tt else
  stationResult ← query (station_by_id stationId);
  match stationResult with
  | [] => mret tt
  | station :: _ =>
      if negb (auto_dj_enabled station) then mret tt else
      tracksResult ← query (tracks_query stationId (auto_dj_playlist_id station));
      match tracksResult with
      | [] => mret tt
      | firstTrack :: _ =>
          external_call "fs.writeFileSync";;
          log (WritePlaylist stationId (file_path <$> tracksResult));;
          pid ← spawn_ffmpeg stationId (mount_point station);
          modify (λ s, with_procs (<[stationId := pid]> (autoDJProcesses s)) s);;
          log (ProcSet stationId pid);;
          db_exec (upsert_track stationId (track_id firstTrack))
      end
  end.

Definition stopAutoDJ (stationId : string) : prog state unit :=
  process ← gets (λ s, autoDJProcesses s !! stationId);
  match process with
  | Some pid =>
      log (Kill pid);;
      modify (λ s, with_procs (delete stationId (autoDJProcesses s)) s);;
      log (ProcDelete stationId)
  | None => mret tt
  end.

(** The ['exit'] handler of a spawned process. *)
Definition on_exit (pid : nat) : prog state unit :=
  owner ← gets (λ s, alive s !! pid);
  match owner with
  | None => mret tt
  | Some stationId =>
      modify (λ s, with_alive (delete pid (alive s)) (next_pid s) s);;
      modify (λ s, with_procs (delete stationId (autoDJProcesses s)) s);;
      log (ProcDelete stationId);;
      try_catch (db_exec (clear_now_playing stationId)) (λ _, mret tt);;
      try_catch (db_exec (append_history stationId)) (λ _, mret tt);;
      setTimeout (RestartAfterExit stationId) 5000
  end.

Definition run_timer (cb : timer_action) : prog state unit :=
  match cb with
  | RestartAfterExit stationId =>
      checkResult ← query (station_by_id stationId);
      match checkResult with
      | r :: _ => if auto_dj_enabled r then startAutoDJ stationId else mret tt
      | [] => mret tt
      end
  | RestartAfterDisconnect stationId => startAutoDJ stationId
  | StartAtBoot stationId => startAutoDJ stationId
  end.

(** The [i]-th pending timer fires once it is due; nobody handles a
    rejection of its callback. *)
Definition fire (i : nat) : prog state unit :=
  pending ← gets (λ s, timers s !! i);
  time ← gets clock;
  match pending with
  | Some t =>
      if decide (due t ≤ time) then
        modify (λ s, with_timers (delete i (timers s)) s);;
        try_catch (run_timer (callback t)) (λ _, mret tt)
      else mret tt
  | None => mret tt
  end.

(** *** HTTP handlers *)

Definition checkStationAccess (stationId userId userRole : string)
    : prog state (option station_row) :=
  if decide (userRole = "admin") then
    rows ← query (station_by_id stationId); mret (head rows)
  else
    rows ← query (station_owned stationId userId); mret (head rows).

(** [killIcecastMount]: its own [try]/[catch] swallows a failed request. *)
Definition killIcecastMount (mountPoint : string) : prog state unit :=
  try_catch (external_call "fetch";; log (KillMount mountPoint)) (λ _, mret tt).

(** [stopIcecastForStation]: likewise. *)
Definition stopIcecastForStation (stationId : string) : prog state unit :=
  try_catch (external_call "docker";; log (StopIcecast stationId)) (λ _, mret tt).

(** [POST /api/audio/stations/:id/start], after the access middleware. *)
Definition post_start (id userId userRole : string) : prog state response :=
  try_catch
    (station ← checkStationAccess id userId userRole;
     match station with
     | None => respond 404 (Json [("error", "Station not found")])
     | Some _ =>
         startAutoDJ id;;
         respond 200 (Json [("message", "Auto DJ started")])
     end)
    (λ _, respond 500 (Json [("error", "Failed to start Auto DJ")])).

(** [POST /api/audio/stations/:id/stop], after the access middleware. *)
Definition post_stop (id userId userRole : string) : prog state response :=
  try_catch
    (station ← checkStationAccess id userId userRole;
     match station with
     | None => respond 404 (Json [("error", "Station not found")])
     | Some _ =>
         stopAutoDJ id;;
         stationResult ← query (station_by_id id);
         match stationResult with
         | r :: _ =>
             if decide (mount_point r ≠ "") then killIcecastMount (mount_point r)
             else mret tt
         | [] => mret tt
         end;;
         live ← gets liveDJConnections;
         for_of (map_to_list live) (λ entry,
           if decide (stationId entry.2 = id) then
             modify (λ s, with_live (delete entry.1 (liveDJConnections s)) s);;
             log (LiveDelete entry.1)
           else mret tt);;
         db_exec (clear_now_playing id);;
         respond 200 (Json [("message", "Station stopped"); ("success", "true")])
     end)
    (λ _, respond 500 (Json [("error", "Failed to stop station")])).

(** [PUT /api/audio/stations/:id], after the access middleware: the settings
    are stored; a running Auto DJ is not touched. *)
Definition put_station (id userId userRole : string) (u : station_update)
    : prog state response :=
  try_catch
    (station ← checkStationAccess id userId userRole;
     match station with
     | None => respond 404 (Json [("error", "Station not found")])
     | Some _ =>
         db_exec (update_station id u);;
         respond 200 (Json [("id", id)])
     end)
    (λ _, respond 500 (Json [("error", "Failed to update station")])).

(** [DELETE /api/audio/stations/:id], after the access middleware. *)
Definition delete_station (id userRole : string) : prog state response :=
  try_catch
    (if decide (userRole ≠ "admin") then
       respond 403 (Json [("error", "Only admins can delete stations")])
     else
       query (station_by_id id);;
       stopAutoDJ id;;
       stopIcecastForStation id;;
       db_exec (delete_station_row id);;
       respond 200 (Json [("success", "true")]))
    (λ _, respond 500 (Json [("error", "Failed to delete station")])).

(** [POST /api/audio/auth/dj]: the body fields may be absent. *)
Definition auth_dj (mount user pass : option string) : prog state response :=
  try_catch
    (match mount with
     | None => throw "TypeError"
     | Some mount =>
         result ← query (dj_query (replace_first "/" "" mount) pass);
         match result with
         | [] =>
             source ← gets ICECAST_SOURCE_PASSWORD;
             if decide (pass = Some source) then respond 200 (Text "OK")
             else respond 401 (Text "Unauthorized")
         | dj :: _ =>
             (if auto_dj_enabled dj.2 then stopAutoDJ (station_id dj.2) else mret tt);;
             let c := {| stationId := station_id dj.2; djId := dj_id dj.1 |} in
             modify (λ s, with_live (<[mount := c]> (liveDJConnections s)) s);;
             log (LiveSet mount c);;
             db_exec (touch_dj (dj_id dj.1));;
             db_exec (upsert_live (station_id dj.2) (dj_id dj.1));;
             respond 200 (Text "OK")
         end
     end)
    (λ _, respond 500 (Text "Error")).

(** [POST /api/audio/auth/dj-disconnect] *)
Definition dj_disconnect (mount : option string) : prog state response :=
  try_catch
    (connection ← gets (λ s, mount ≫= λ m, liveDJConnections s !! m);
     match mount, connection with
     | Some m, Some c =>
         modify (λ s, with_live (delete m (liveDJConnections s)) s);;
         log (LiveDelete m);;
         db_exec (clear_now_playing (stationId c));;
         stationResult ← query (station_by_id (stationId c));
         match stationResult with
         | r :: _ =>
             if auto_dj_enabled r
             then setTimeout (RestartAfterDisconnect (stationId c)) 2000
             else mret tt
         | [] => mret tt
         end
     | _, _ => mret tt
     end;;
     respond 200 (Text "OK"))
    (λ _, respond 500 (Text "Error")).

(** A field of a parsed request body: absent, the JSON [null], a string, or
    any other JSON value (number, boolean, array, object). *)
Inductive js_value :=
| JsUndefined
| JsNull
| JsString (s : string)
| JsOther.

(** A field of a form-encoded body: a string, or absent. *)
Definition text (field : option string) : js_value :=
  match field with
  | Some s => JsString s
  | None => JsUndefined
  end.

(** [pass === column], for a nullable text column read from the database (or
    a string constant): a string equals the same string, [null] equals a
    [NULL] column, and nothing else is equal. *)
Definition strict_eq (a : js_value) (b : option string) : bool :=
  match a, b with
  | JsString x, Some y => bool_decide (x = y)
  | JsNull, None => true
  | _, _ => false
  end.

Definition auth_reply (v : string) : response :=
  {| http_status := 200; headers := [("icecast-auth-user", v)]; http_body := Text "" |}.

(** [POST /api/audio/icecast-auth], on any parsed body (the service accepts
    JSON bodies as well as form-encoded ones). [mount?.replace(/^\//, '') || '']
    throws for a mount that is neither absent nor a string. On the failure
    path the log line evaluates [pass?.substring(0, 4)], which throws for a
    pass that is neither absent nor a string; the catch block then sends the
    same reply. *)
Definition icecast_auth_json (user pass mount : js_value) : prog state response :=
  try_catch
    (mountPoint ← match mount with
                  | JsString m => mret (strip_leading_slash m)
                  | JsUndefined | JsNull => mret ""
                  | JsOther => throw "TypeError"
                  end;
     stationResult ← query (station_by_mount mountPoint);
     match stationResult with
     | [] => mret (auth_reply "0")
     | station :: _ =>
         source ← gets ICECAST_SOURCE_PASSWORD;
         if strict_eq pass (source_password station) || strict_eq pass (Some source)
         then mret (auth_reply "1")
         else mret (auth_reply "0")
     end)
    (λ _, mret (auth_reply "0")).

(** The mount point that the handler looks up, when it gets that far. *)
Definition requested_mount (mount : js_value) : option string :=
  match mount with
  | JsString m => Some (strip_leading_slash m)
  | JsUndefined | JsNull => Some ""
  | JsOther => None
  end.

(** [pass === station.source_password || pass === ICECAST_SOURCE_PASSWORD],
    spelled out. *)
Definition password_matches (pass : js_value) (station : station_row) (source : string)
    : Prop :=
  (pass = JsNull ∧ source_password station = None) ∨
  ∃ p, pass = JsString p ∧ (source_password station = Some p ∨ p = source).

(** The same handler on a form-encoded body, as Icecast sends it. *)
Definition icecast_auth (user pass mount : option string) : prog state response :=
  icecast_auth_json (text user) (text pass) (text mount).

(** *** Runs in which the handlers do not overlap

    [step] takes one event and runs its handler to completion before the next
    event is taken. These are the runs of the event loop in which nothing is
    scheduled while a handler waits; the others are those of
    [Interleaving.play]. *)

Inductive event :=
| PostStart (id userId userRole : string)
| PostStop (id userId userRole : string)
| PutStation (id userId userRole : string) (u : station_update)
| DeleteStation (id userRole : string)
| AuthDJ (mount user pass : option string)
| DJDisconnect (mount : option string)
| IcecastAuth (user pass mount : js_value)
| ProcessExit (pid : nat)
| TimerFire (i : nat)
| Advance (dt : Z)                 (* time passes *)
| DbWrite (d : database).          (* the other CRUD endpoints write the database *)

Definition handle (e : event) : prog state unit :=
  match e with
  | PostStart id u r => post_start id u r;; mret tt
  | PostStop id u r => post_stop id u r;; mret tt
  | PutStation id u r upd => put_station id u r upd;; mret tt
  | DeleteStation id r => delete_station id r;; mret tt
  | AuthDJ m u p => auth_dj m u p;; mret tt
  | DJDisconnect m => dj_disconnect m;; mret tt
  | IcecastAuth u p m => icecast_auth_json u p m;; mret tt
  | ProcessExit pid => on_exit pid
  | TimerFire i => fire i
  | Advance dt => modify (λ s, with_clock (clock s + Z.max 0 dt) s)
  | DbWrite d => modify (with_db d)
  end.

Definition step (s : state) (e : event) : state := exec (handle e) s.

Definition run (s : state) (es : list event) : state := foldl step s es.

(** The mutual-exclusion property as the status endpoint observes it. *)
Definition mutex (s : state) : Prop :=
  ∀ id, isRunning s id && hasLiveDJ s id = false.

(** The same property on the two registries: no live connection belongs to a
    station that has an Auto DJ process. *)
Definition apart (P : gmap string nat) (L : gmap string connection) : Prop :=
  ∀ m c, L !! m = Some c → P !! stationId c = None.

(** Both registries only lose entries. *)
Definition shrinks : relation state :=
  λ s s', autoDJProcesses s' ⊆ autoDJProcesses s ∧
          liveDJConnections s' ⊆ liveDJConnections s.

(** Nothing changes in the registries except, possibly, a process registered
    for the station [id]. *)
Definition may_start (id : string) : relation state :=
  λ s s', liveDJConnections s' = liveDJConnections s ∧
          (autoDJProcesses s' = autoDJProcesses s ∨
           ∃ pid, autoDJProcesses s' = <[id := pid]> (autoDJProcesses s)).

(** What [startAutoDJ] needs from the database to start a process: the
    station exists, its Auto DJ is enabled and its track list is not empty. *)
Definition startable (d : database) (id : string) : Prop :=
  ∃ station, head (station_by_id id d) = Some station ∧
             auto_dj_enabled station = true ∧
             tracks_query id (auto_dj_playlist_id station) d ≠ [].

Definition ok_response : response :=
  {| http_status := 200; headers := []; http_body := Text "OK" |}.

(** *** Readings of the claims that the code does not satisfy *)

(** "An accepted live DJ connection for a station whose Auto DJ is running
    leaves that Auto DJ stopped." *)
Definition live_connect_preempts (s : state) (mount user pass : option string) : Prop :=
  ∀ m dj rest,
    mount = Some m →
    dj_query (replace_first "/" "" m) pass (db s) = dj :: rest →
    isRunning s (station_id dj.2) = true →
    eval (auth_dj mount user pass) s = Ok ok_response →
    isRunning (exec (auth_dj mount user pass) s) (station_id dj.2) = false.

(** *** Sample data *)

Definition sample_station : station_row :=
  {| station_id := "s1"; station_name := "Radio"; mount_point := "radio";
     source_password := Some "cmc_0123456789ab"; bitrate := 128; is_active := true;
     auto_dj_enabled := true; auto_dj_playlist_id := None; created_by := Some "u1" |}.

Definition sample_dj : dj_row :=
  {| dj_id := "d1"; dj_station_id := "s1"; stream_password := "djpass";
     can_stream := true; dj_is_active := true; last_connected := None |}.

Definition sample_db_with (station : station_row) : database :=
  {| audio_stations := [station]; station_djs := [sample_dj];
     station_playlists :=
       [ {| playlist_id := "p1"; playlist_station_id := "s1"; is_default := true |} ];
     playlist_tracks :=
       [ {| pt_playlist_id := "p1"; pt_track_id := "t2"; position := 2 |};
         {| pt_playlist_id := "p1"; pt_track_id := "t1"; position := 1 |} ];
     audio_tracks :=
       [ {| track_id := "t1"; file_path := "/storage/a.mp3" |};
         {| track_id := "t2"; file_path := "/storage/b.mp3" |} ];
     now_playing := ∅; stream_history := [] |}.

Definition sample_db : database := sample_db_with sample_station.

(** The same station with the Auto DJ disabled. *)
Definition disabled_station : station_row :=
  {| station_id := "s1"; station_name := "Radio"; mount_point := "radio";
     source_password := Some "cmc_0123456789ab"; bitrate := 128; is_active := true;
     auto_dj_enabled := false; auto_dj_playlist_id := None; created_by := Some "u1" |}.

(** The same station without a source password: the column is [NULL]. *)
Definition unprotected_station : station_row :=
  {| station_id := "s1"; station_name := "Radio"; mount_point := "radio";
     source_password := None; bitrate := 128; is_active := true;
     auto_dj_enabled := true; auto_dj_playlist_id := None; created_by := Some "u1" |}.

(** The body [{ auto_dj_enabled: false }] of a settings update. *)
Definition disable_auto_dj : station_update :=
  {| new_name := None; new_bitrate := None; new_is_active := None;
     new_auto_dj_enabled := Some false; new_auto_dj_playlist_id := None |}.

Definition sample_boot : state := boot None sample_db [].

Definition unprotected : state := boot None (sample_db_with unprotected_station) [].

Definition dj_connects : event := AuthDJ (Some "/radio") (Some "source") (Some "djpass").

(** The Auto DJ was started and then disabled in the station settings. *)
Definition disabled_running : state :=
  run sample_boot [PostStart "s1" "u1" "user"; PutStation "s1" "u1" "user" disable_auto_dj].

(** A DJ disconnects and reconnects within the two seconds of the restart
    delay; the restart timer (the second pending timer, after the one set at
    boot) is now due. *)
Definition reconnected : state :=
  run sample_boot [dj_connects; DJDisconnect (Some "/radio"); Advance 1000;
                   dj_connects; Advance 1000].

(** The Auto DJ runs and no DJ is connected. *)
Definition playing : state := run sample_boot [PostStart "s1" "u1" "user"].

End Orchestrator.

(** ** What the handlers leave alone *)

Module Observations.
Import Orchestrator.

(** Everything but the failure schedule is unchanged. *)
Definition untouched : relation state :=
  λ s s', env_source_password s' = env_source_password s ∧ db s' = db s ∧
          autoDJProcesses s' = autoDJProcesses s ∧
          liveDJConnections s' = liveDJConnections s ∧
          alive s' = alive s ∧ next_pid s' = next_pid s ∧ timers s' = timers s ∧
          clock s' = clock s ∧ actions s' = actions s.

(** No process is spawned, killed or registered, and the database is as it
    was. *)
Definition nothing_started : relation state :=
  λ s s', db s' = db s ∧ autoDJProcesses s' = autoDJProcesses s ∧
          liveDJConnections s' = liveDJConnections s ∧
          alive s' = alive s ∧ next_pid s' = next_pid s ∧ actions s' = actions s.

(** The registry entries and the now-playing rows of every station other
    than [id] are unchanged. *)
Definition others_kept (id : string) : relation state :=
  λ s s', (∀ j, j ≠ id → autoDJProcesses s' !! j = autoDJProcesses s !! j) ∧
          (∀ m c, stationId c ≠ id →
                  liveDJConnections s' !! m = Some c ↔ liveDJConnections s !! m = Some c) ∧
          (∀ j, j ≠ id → now_playing (db s') !! j = now_playing (db s) !! j).

(** [checkStationAccess] finds the station for this user. *)
Definition has_access (d : database) (id userId userRole : string) : Prop :=
  if decide (userRole = "admin") then station_by_id id d ≠ []
  else station_owned id userId d ≠ [].

Definition not_found : response :=
  {| http_status := 404; headers := []; http_body := Json [("error", "Station not found")] |}.

(** The rows joined by the track query of [startAutoDJ], before sorting. *)
Definition joined_tracks (stationId : string) (playlistId : option string)
    (d : database) : list (Z * track_row) :=
  pt ← playlist_tracks d;
  t ← filter (λ t, track_id t = pt_track_id pt) (audio_tracks d);
  p ← filter (playlist_selected stationId playlistId pt) (station_playlists d);
  [(position pt, t)].

(** The connection recorded for the mount of a disconnect request, if any. *)
Definition recorded (s : state) (mount : option string) : option (string * connection) :=
  m ← mount; c ← liveDJConnections s !! m; Some (m, c).

(** A process of station [id] that is alive but no longer registered. *)
Definition orphaned (s : state) (pid : nat) (id : string) : Prop :=
  alive s !! pid = Some id ∧ autoDJProcesses s !! id ≠ Some pid.

(** One round of the loop of the stop handler that forgets the live
    connections of the station [id]. *)
Definition forget_station (id : string) (L : gmap string connection)
    (entry : string * connection) : gmap string connection :=
  if decide (stationId entry.2 = id) then delete entry.1 L else L.

(** Everything but the connection registry and the log of actions is
    unchanged. *)
Definition only_live_changes : relation state :=
  λ s s', env_source_password s' = env_source_password s ∧ db s' = db s ∧
          autoDJProcesses s' = autoDJProcesses s ∧ alive s' = alive s ∧
          next_pid s' = next_pid s ∧ timers s' = timers s ∧ clock s' = clock s ∧
          pending_faults s' = pending_faults s.

(** The registries, the processes, the timers and the log of actions are
    unchanged. *)
Definition supervisor_untouched : relation state :=
  λ s s', autoDJProcesses s' = autoDJProcesses s ∧
          liveDJConnections s' = liveDJConnections s ∧ alive s' = alive s ∧
          next_pid s' = next_pid s ∧ timers s' = timers s ∧ actions s' = actions s.

Definition stopped_response : response :=
  {| http_status := 200; headers := [];
     http_body := Json [("message", "Station stopped"); ("success", "true")] |}.

Definition forbidden_response : response :=
  {| http_status := 403; headers := [];
     http_body := Json [("error", "Only admins can delete stations")] |}.

Definition deleted_response : response :=
  {| http_status := 200; headers := []; http_body := Json [("success", "true")] |}.

End Observations.

(** ** The handlers as tasks of the event loop

    An [async] function runs until its next [await]; while it waits, the
    event loop runs the code of other requests, timers and process events.
    A task is the code of one handler with these suspension points made
    explicit. The programs of [Orchestrator] are the same handlers run
    without interruption. *)

Module Interleaving.
Import Orchestrator.

Inductive task (A : Type) : Type :=
| Done (r : result A)                                   (* returned or thrown *)
| Step {X : Type} (m : prog state X) (k : result X → task A)   (* synchronous code *)
| Yield (t : task A)                                    (* suspended; [t] runs on resumption *)
| Detach (m : prog state unit) (t : task A).            (* a call that nobody awaits *)
Arguments Done {A} r.
Arguments Step {A X} m k.
Arguments Yield {A} t.
Arguments Detach {A} m t.

Fixpoint bind_task {A B} (t : task A) (f : A → task B) : task B :=
  match t with
  | Done (Ok a) => f a
  | Done (Thrown e) => Done (Thrown e)
  | Step m k => Step m (λ r, bind_task (k r) f)
  | Yield t' => Yield (bind_task t' f)
  | Detach m t' => Detach m (bind_task t' f)
  end.

(** [try { t } catch (error) { h error }] around code that awaits. *)
Fixpoint try_task {A} (t : task A) (h : string → task A) : task A :=
  match t with
  | Done (Ok a) => Done (Ok a)
  | Done (Thrown e) => h e
  | Step m k => Step m (λ r, try_task (k r) h)
  | Yield t' => Yield (try_task t' h)
  | Detach m t' => Detach m (try_task t' h)
  end.

#[global] Instance task_ret : MRet task := λ A a, Done (Ok a).
#[global] Instance task_bind : MBind task := λ A B f t, bind_task t f.

Definition raise {A} (e : string) : task A := Done (Thrown e).

(** Synchronous code. *)
Definition lift {A} (m : prog state A) : task A := Step m Done.

(** [await m], for a call [m] to the database or to another service: the
    handler is suspended until the call is carried out, and again until its
    result is delivered. *)
Definition await {A} (m : prog state A) : task A :=
  Yield (Step m (λ r, Yield (Done r))).

(** [await f(...)] for an [async] function [f]: the function starts at once,
    and its caller goes on in a later turn than the one in which it
    returns. *)
Fixpoint await_call {A} (t : task A) : task A :=
  match t with
  | Done r => Yield (Done r)
  | Step m k => Step m (λ r, await_call (k r))
  | Yield t' => Yield (await_call t')
  | Detach m t' => Detach m (await_call t')
  end.

(** [m] without [await]: the call is carried out later, on its own. *)
Definition detach (m : prog state unit) : task unit := Detach m (Done (Ok tt)).

(** *** The event loop *)

(** Runs a task up to its next suspension point (or to its end), and collects
    the calls that it detached. *)
Fixpoint advance {A} (t : task A) (s : state)
    : task A * list (prog state unit) * state :=
  match t with
  | Done r => (Done r, [], s)
  | Step m k => advance (k (m s).1) (m s).2
  | Yield t' => (Yield t', [], s)
  | Detach m t' =>
      let '(t2, ds, s') := advance t' s in (t2, m :: ds, s')
  end.

(** A detached call waits for its turn like a suspended handler. *)
Definition detached (m : prog state unit) : task unit :=
  Yield (Step m (λ _, Done (Ok tt))).

Record world := {
  mem : state;
  pending : list (task unit)     (* suspended handlers and detached calls *)
}.

Definition idle (s : state) : world := {| mem := s; pending := [] |}.

(** A new task runs at once up to its first suspension point. *)
Definition launch (t : task unit) (w : world) : world :=
  let '(t', ds, s') := advance t (mem w) in
  {| mem := s'; pending := pending w ++ t' :: (detached <$> ds) |}.

(** The [i]-th pending task is resumed and runs up to its next suspension
    point. *)
Definition resume (i : nat) (w : world) : world :=
  match pending w !! i with
  | Some (Yield t) =>
      let '(t', ds, s') := advance t (mem w) in
      {| mem := s'; pending := <[i := t']> (pending w) ++ (detached <$> ds) |}
  | _ => w
  end.

(** The handler run with every call completing at once and nothing else
    scheduled in between. *)
Fixpoint run_task {A} (t : task A) (s : state) : result A * state :=
  match t with
  | Done r => (r, s)
  | Step m k => run_task (k (m s).1) (m s).2
  | Yield t' => run_task t' s
  | Detach m t' => run_task t' (m s).2
  end.

(** *** The handlers *)

Definition startAutoDJ_task (stationId : string) : task unit :=
  running ← lift (gets (λ s, isRunning s stationId));
  if running : bool then mret tt else
  stationResult ← await (query (station_by_id stationId));
  match stationResult with
  | [] => mret tt
  | station :: _ =>
      if negb (auto_dj_enabled station) then mret tt else
      tracksResult ← await (query (tracks_query stationId (auto_dj_playlist_id station)));
      match tracksResult with
      | [] => mret tt
      | firstTrack :: _ =>
          lift (external_call "fs.writeFileSync");;
          lift (log (WritePlaylist stationId (file_path <$> tracksResult)));;
          pid ← lift (spawn_ffmpeg stationId (mount_point station));
          lift (modify (λ s, with_procs (<[stationId := pid]> (autoDJProcesses s)) s));;
          lift (log (ProcSet stationId pid));;
          await (db_exec (upsert_track stationId (track_id firstTrack)))
      end
  end.

(** The ['exit'] handler: its two statements are sent without [await]. *)
Definition on_exit_task (pid : nat) : task unit :=
  owner ← lift (gets (λ s, alive s !! pid));
  match owner with
  | None => mret tt
  | Some stationId =>
      lift (modify (λ s, with_alive (delete pid (alive s)) (next_pid s) s));;
      lift (modify (λ s, with_procs (delete stationId (autoDJProcesses s)) s));;
      lift (log (ProcDelete stationId));;
      detach (try_catch (db_exec (clear_now_playing stationId)) (λ _, mret tt));;
      detach (try_catch (db_exec (append_history stationId)) (λ _, mret tt));;
      lift (setTimeout (RestartAfterExit stationId) 5000)
  end.

Definition run_timer_task (cb : timer_action) : task unit :=
  match cb with
  | RestartAfterExit stationId =>
      checkResult ← await (query (station_by_id stationId));
      match checkResult with
      | r :: _ => if auto_dj_enabled r then startAutoDJ_task stationId else mret tt
      | [] => mret tt
      end
  | RestartAfterDisconnect stationId => startAutoDJ_task stationId
  | StartAtBoot stationId => startAutoDJ_task stationId
  end.

Definition fire_task (i : nat) : task unit :=
  pending ← lift (gets (λ s, timers s !! i));
  time ← lift (gets clock);
  match pending with
  | Some t =>
      if decide (due t ≤ time) then
        lift (modify (λ s, with_timers (delete i (timers s)) s));;
        try_task (run_timer_task (callback t)) (λ _, mret tt)
      else mret tt
  | None => mret tt
  end.

Definition checkStationAccess_task (stationId userId userRole : string)
    : task (option station_row) :=
  if decide (userRole = "admin") then
    rows ← await (query (station_by_id stationId)); mret (head rows)
  else
    rows ← await (query (station_owned stationId userId)); mret (head rows).

Definition killIcecastMount_task (mountPoint : string) : task unit :=
  try_task (await (external_call "fetch");; lift (log (KillMount mountPoint)))
           (λ _, mret tt).

(** [docker stop] and [docker rm] are awaited one after the other; the
    failure schedule has one entry for the pair. *)
Definition stopIcecastForStation_task (stationId : string) : task unit :=
  try_task (await (external_call "docker");;
            await (mret tt);;
            lift (log (StopIcecast stationId)))
           (λ _, mret tt).

Definition post_start_task (id userId userRole : string) : task response :=
  try_task
    (station ← await_call (checkStationAccess_task id userId userRole);
     match station with
     | None => lift (respond 404 (Json [("error", "Station not found")]))
     | Some _ =>
         await_call (startAutoDJ_task id);;
         lift (respond 200 (Json [("message", "Auto DJ started")]))
     end)
    (λ _, lift (respond 500 (Json [("error", "Failed to start Auto DJ")]))).

Definition post_stop_task (id userId userRole : string) : task response :=
  try_task
    (station ← await_call (checkStationAccess_task id userId userRole);
     match station with
     | None => lift (respond 404 (Json [("error", "Station not found")]))
     | Some _ =>
         lift (stopAutoDJ id);;
         stationResult ← await (query (station_by_id id));
         match stationResult with
         | r :: _ =>
             if decide (mount_point r ≠ "")
             then await_call (killIcecastMount_task (mount_point r))
             else mret tt
         | [] => mret tt
         end;;
         live ← lift (gets liveDJConnections);
         lift (for_of (map_to_list live) (λ entry,
           if decide (stationId entry.2 = id) then
             modify (λ s, with_live (delete entry.1 (liveDJConnections s)) s);;
             log (LiveDelete entry.1)
           else mret tt));;
         await (db_exec (clear_now_playing id));;
         lift (respond 200 (Json [("message", "Station stopped"); ("success", "true")]))
     end)
    (λ _, lift (respond 500 (Json [("error", "Failed to stop station")]))).

Definition put_station_task (id userId userRole : string) (u : station_update)
    : task response :=
  try_task
    (station ← await_call (checkStationAccess_task id userId userRole);
     match station with
     | None => lift (respond 404 (Json [("error", "Station not found")]))
     | Some _ =>
         await (db_exec (update_station id u));;
         lift (respond 200 (Json [("id", id)]))
     end)
    (λ _, lift (respond 500 (Json [("error", "Failed to update station")]))).

Definition delete_station_task (id userRole : string) : task response :=
  try_task
    (if decide (userRole ≠ "admin") then
       lift (respond 403 (Json [("error", "Only admins can delete stations")]))
     else
       await (query (station_by_id id));;
       lift (stopAutoDJ id);;
       await_call (stopIcecastForStation_task id);;
       await (db_exec (delete_station_row id));;
       lift (respond 200 (Json [("success", "true")])))
    (λ _, lift (respond 500 (Json [("error", "Failed to delete station")]))).

Definition auth_dj_task (mount user pass : option string) : task response :=
  try_task
    (match mount with
     | None => raise "TypeError"
     | Some mount =>
         result ← await (query (dj_query (replace_first "/" "" mount) pass));
         match result with
         | [] =>
             source ← lift (gets ICECAST_SOURCE_PASSWORD);
             if decide (pass = Some source) then lift (respond 200 (Text "OK"))
             else lift (respond 401 (Text "Unauthorized"))
         | dj :: _ =>
             lift (if auto_dj_enabled dj.2 then stopAutoDJ (station_id dj.2) else mret tt);;
             let c := {| stationId := station_id dj.2; djId := dj_id dj.1 |} in
             lift (modify (λ s, with_live (<[mount := c]> (liveDJConnections s)) s));;
             lift (log (LiveSet mount c));;
             await (db_exec (touch_dj (dj_id dj.1)));;
             await (db_exec (upsert_live (station_id dj.2) (dj_id dj.1)));;
             lift (respond 200 (Text "OK"))
         end
     end)
    (λ _, lift (respond 500 (Text "Error"))).

Definition dj_disconnect_task (mount : option string) : task response :=
  try_task
    (connection ← @lift (option connection)
                     (gets (λ s, mount ≫= λ m, liveDJConnections s !! m));
     match mount, connection return task unit with
     | Some m, Some c =>
         lift (modify (λ s, with_live (delete m (liveDJConnections s)) s));;
         lift (log (LiveDelete m));;
         await (db_exec (clear_now_playing (stationId c)));;
         stationResult ← await (query (station_by_id (stationId c)));
         match stationResult with
         | r :: _ =>
             if auto_dj_enabled r
             then lift (setTimeout (RestartAfterDisconnect (stationId c)) 2000)
             else mret tt
         | [] => mret tt
         end
     | _, _ => mret tt
     end;;
     lift (respond 200 (Text "OK")))
    (λ _, lift (respond 500 (Text "Error"))).

Definition icecast_auth_task (user pass mount : js_value) : task response :=
  try_task
    (mountPoint ← match mount with
                  | JsString m => mret (strip_leading_slash m)
                  | JsUndefined | JsNull => mret ""
                  | JsOther => raise "TypeError"
                  end;
     stationResult ← await (query (station_by_mount mountPoint));
     match stationResult with
     | [] => mret (auth_reply "0")
     | station :: _ =>
         source ← lift (gets ICECAST_SOURCE_PASSWORD);
         if strict_eq pass (source_password station) || strict_eq pass (Some source)
         then mret (auth_reply "1")
         else mret (auth_reply "0")
     end)
    (λ _, mret (auth_reply "0")).

Definition handle_task (e : event) : task unit :=
  match e with
  | PostStart id u r => post_start_task id u r;; mret tt
  | PostStop id u r => post_stop_task id u r;; mret tt
  | PutStation id u r upd => put_station_task id u r upd;; mret tt
  | DeleteStation id r => delete_station_task id r;; mret tt
  | AuthDJ m u p => auth_dj_task m u p;; mret tt
  | DJDisconnect m => dj_disconnect_task m;; mret tt
  | IcecastAuth u p m => icecast_auth_task u p m;; mret tt
  | ProcessExit pid => on_exit_task pid
  | TimerFire i => fire_task i
  | Advance dt => lift (modify (λ s, with_clock (clock s + Z.max 0 dt) s))
  | DbWrite d => lift (modify (with_db d))
  end.

(** *** Runs of the service *)

Inductive move :=
| Begin (e : event)      (* a request, a process event or a timer starts its handler *)
| Resume (i : nat).      (* a suspended handler or a detached call gets its turn *)

Definition play1 (w : world) (mv : move) : world :=
  match mv with
  | Begin e => launch (handle_task e) w
  | Resume i => resume i w
  end.

Definition play (w : world) (mvs : list move) : world := foldl play1 w mvs.

(** What one turn of the event loop did to processes and registries. *)
Definition performed (s s' : state) : list action :=
  drop (length (actions s)) (actions s').

(** A turn that registers a process for a station begins while no live
    connection of that station is registered; a turn that records a live
    connection for a station begins while no process of that station is
    registered, or it stops that process itself. *)
Definition guarded (s s' : state) : Prop :=
  Forall (λ a, match a with
               | ProcSet id _ => hasLiveDJ s id = false
               | LiveSet _ c =>
                   isRunning s (stationId c) = false ∨
                   ProcDelete (stationId c) ∈ performed s s'
               | _ => True
               end) (performed s s').

Fixpoint guarded_play (w : world) (mvs : list move) : Prop :=
  match mvs with
  | [] => True
  | mv :: mvs' => guarded (mem w) (mem (play1 w mv)) ∧ guarded_play (play1 w mv) mvs'
  end.

#[global] Instance connection_eq_dec : EqDecision connection.
Proof. solve_decision. Defined.

#[global] Instance action_eq_dec : EqDecision action.
Proof. solve_decision. Defined.

#[global] Instance guarded_dec s s' : Decision (guarded s s').
Proof.
  unfold guarded. apply Forall_dec. intros a. destruct a; apply _.
Defined.

#[global] Instance guarded_play_dec w mvs : Decision (guarded_play w mvs).
Proof.
  revert w. induction mvs as [|mv mvs IH]; intros w; simpl; apply _.
Defined.

(** [s'] is [s] after [startAutoDJ] has written the playlist, spawned the
    process and registered it. *)
Definition started (id : string) (station : station_row) (tracks : list track_row)
    : relation state :=
  λ s s',
    autoDJProcesses s' = <[id := next_pid s]> (autoDJProcesses s) ∧
    liveDJConnections s' = liveDJConnections s ∧
    alive s' = <[next_pid s := id]> (alive s) ∧
    next_pid s' = S (next_pid s) ∧
    actions s' = actions s ++ [WritePlaylist id (file_path <$> tracks);
                               Spawn (next_pid s) id (mount_point station);
                               ProcSet id (next_pid s)] ∧
    db s' = db s ∧ timers s' = timers s ∧ clock s' = clock s.

(** *** Readings of the claims that the code does not satisfy *)


(** "A restart scheduled by a disconnect does not start the Auto DJ when a
    live connection of the station exists at the time it fires": however far
    the restart is run, with nothing else going on, the Auto DJ is as it
    was. *)
Definition restart_aborts_when_live (s : state) (i : nat) : Prop :=
  ∀ t id,
    timers s !! i = Some t → callback t = RestartAfterDisconnect id →
    due t ≤ clock s → hasLiveDJ s id = true →
    ∀ n, isRunning (mem (play (idle s) (Begin (TimerFire i) :: replicate n (Resume 0)))) id
         = isRunning s id.

(** *** Sample runs *)


(** A DJ connects, disconnects and reconnects within the two seconds of the
    restart delay; each handler ends before the next event. The restart timer
    (the second pending timer, after the one set at boot) is due at the
    end. *)
Definition reconnection : list move :=
  [ Begin dj_connects; Resume 0; Resume 0; Resume 0; Resume 0; Resume 0; Resume 0;
    Begin (DJDisconnect (Some "/radio")); Resume 1; Resume 1; Resume 1; Resume 1;
    Begin (Advance 1000);
    Begin dj_connects; Resume 3; Resume 3; Resume 3; Resume 3; Resume 3; Resume 3;
    Begin (Advance 1000) ].


(** A start request passes the check of the process registry (fourth move)
    and waits for the database; meanwhile a DJ connects and is accepted
    (seventh move); then the start request goes on and registers its process
    (last move). *)
Definition race : list move :=
  [ Begin (PostStart "s1" "u1" "user"); Resume 0; Resume 0; Resume 0;
    Begin dj_connects; Resume 1; Resume 1;
    Resume 0; Resume 0; Resume 0; Resume 0 ].

(** *** Turns of a task

    [seg R t K s0 s]: when [t] runs from the state [s], in a turn that began
    in the state [s0], every turn of [t] relates the state at its beginning to
    the state at its end by [R], in whatever state the task is resumed, and
    so does every detached call; [K] holds of the result, of the state in
    which the last turn began and of the final state. *)
Fixpoint seg {A} (R : relation state) (t : task A)
    (K : result A → state → state → Prop) (s0 s : state) : Prop :=
  match t with
  | Done r => K r s0 s
  | Step m k => wp m (λ r s', seg R (k r) K s0 s') s
  | Yield t' => R s0 s ∧ ∀ s1, seg R t' K s1 s1
  | Detach m t' => (∀ s1, R s1 (m s1).2) ∧ seg R t' K s0 s
  end.

(** The program [m] is the task [t] run without interruption. *)
Definition same_runs {A} (t : task A) (m : prog state A) : Prop :=
  ∀ s, run_task t s = m s.

(** The task detaches no call. *)
Fixpoint attached {A} (t : task A) : Prop :=
  match t with
  | Done _ => True
  | Step _ k => ∀ r, attached (k r)
  | Yield t' => attached t'
  | Detach _ _ => False
  end.

(** Neither [autoDJProcesses.set] nor [liveDJConnections.set]. *)
Definition quiet (tr : list action) : Prop :=
  Forall (λ a, match a with
               | ProcSet _ _ | LiveSet _ _ => False
               | _ => True
               end) tr.

(** Both registries only lose entries, and the log says so. *)
Definition quiet_shrinks : relation state :=
  λ s s', shrinks s s' ∧ ∃ tr, actions s' = actions s ++ tr ∧ quiet tr.

(** The registries and the log are as they were. *)
Definition registries_kept : relation state :=
  λ s s', autoDJProcesses s' = autoDJProcesses s ∧
          liveDJConnections s' = liveDJConnections s ∧ actions s' = actions s.

(** What one turn of a handler does to the registries: it removes entries,
    or it registers one process ([startAutoDJ]), or it records one live
    connection, with or without stopping the Auto DJ of the station first
    (the accept). *)
Definition delta : relation state :=
  λ s s',
    quiet_shrinks s s' ∨
    (∃ id files pid mount,
       actions s' = actions s ++ [WritePlaylist id files; Spawn pid id mount; ProcSet id pid] ∧
       autoDJProcesses s' = <[id := pid]> (autoDJProcesses s) ∧
       liveDJConnections s' = liveDJConnections s) ∨
    (∃ m c,
       actions s' = actions s ++ [LiveSet m c] ∧
       autoDJProcesses s' = autoDJProcesses s ∧
       liveDJConnections s' = <[m := c]> (liveDJConnections s)) ∨
    (∃ m c pid,
       actions s' = actions s ++ [Kill pid; ProcDelete (stationId c); LiveSet m c] ∧
       autoDJProcesses s' = delete (stationId c) (autoDJProcesses s) ∧
       liveDJConnections s' = <[m := c]> (liveDJConnections s)).

(** A pending task all of whose remaining turns are of these kinds. *)
Definition tame (t : task unit) : Prop :=
  match t with
  | Yield t' => ∀ s1, seg delta t' (λ _, delta) s1 s1
  | _ => True
  end.

End Interleaving.

(** ** Station provisioning: creation and the port migration at startup *)

Module Provisioning.

(** *** Mount point names *)

(** [toLowerCase] on one character of an ASCII name. *)
Definition toLowerCase (c : ascii) : ascii :=
  let n := nat_of_ascii c in
  if ((65 <=? n) && (n <=? 90))%nat then ascii_of_nat (n + 32) else c.

(** The character class [[a-z0-9]] of the regular expression. *)
Definition alphanumeric (c : ascii) : bool :=
  let n := nat_of_ascii c in
  ((97 <=? n) && (n <=? 122) || (48 <=? n) && (n <=? 57))%nat.

(** One step of [replace(/[^a-z0-9]/g, '-')]. *)
Definition dash (c : ascii) : ascii := if alphanumeric c then c else "-"%char.

Fixpoint map_chars (f : ascii → ascii) (s : string) : string :=
  match s with
  | EmptyString => EmptyString
  | String c s' => String (f c) (map_chars f s')
  end.

(** [name.toLowerCase().replace(/[^a-z0-9]/g, '-').substring(0, 50)], for a
    name of ASCII characters. *)
Definition mountPoint (name : string) : string :=
  String.substring 0 50 (map_chars dash (map_chars toLowerCase name)).

(** The characters a mount point is made of. *)
Definition mount_char (c : ascii) : Prop := alphanumeric c = true ∨ c = "-"%char.

(** *** Tables *)

(** A row of [audio_stations], with the columns that station creation and
    the port migration write (the unconstrained [description] is left out). *)
Record station_row := {
  id : string;
  name : string;
  genre : option string;
  mount_point : string;
  stream_port : option Z;
  bitrate : Z;
  is_active : bool;
  auto_dj_enabled : bool;
  created_by : option string;
  source_password : option string
}.

Record mount_point_row := {
  mp_station_id : string;
  mp_mount_point : string;
  mp_bitrate : Z;
  mp_is_primary : bool
}.

Record playlist_row := {
  pl_station_id : string;
  pl_name : string;
  pl_description : string;
  pl_is_default : bool
}.

(** What the service asks of Docker and of the file system. *)
Inductive command :=
| DockerStop (containerName : string)
| DockerRm (containerName : string)
| WriteConfig (configPath stationId : string)
| DockerRun (containerName : string) (port : Z) (configPath sourcePassword : string).

Record state := {
  audio_stations : list station_row;           (* in order of creation *)
  station_mount_points : list mount_point_row;
  station_playlists : list playlist_row;
  icecastContainers : gmap string string;      (* station id to container name *)
  commands : list command;                     (* oldest first *)
  pending_faults : list bool
}.

Definition with_stations (l : list station_row) (s : state) : state :=
  {| audio_stations := l; station_mount_points := station_mount_points s;
     station_playlists := station_playlists s; icecastContainers := icecastContainers s;
     commands := commands s; pending_faults := pending_faults s |}.

Definition with_mount_points (l : list mount_point_row) (s : state) : state :=
  {| audio_stations := audio_stations s; station_mount_points := l;
     station_playlists := station_playlists s; icecastContainers := icecastContainers s;
     commands := commands s; pending_faults := pending_faults s |}.

Definition with_playlists (l : list playlist_row) (s : state) : state :=
  {| audio_stations := audio_stations s; station_mount_points := station_mount_points s;
     station_playlists := l; icecastContainers := icecastContainers s;
     commands := commands s; pending_faults := pending_faults s |}.

Definition with_containers (m : gmap string string) (s : state) : state :=
  {| audio_stations := audio_stations s; station_mount_points := station_mount_points s;
     station_playlists := station_playlists s; icecastContainers := m;
     commands := commands s; pending_faults := pending_faults s |}.

Definition with_commands (c : list command) (s : state) : state :=
  {| audio_stations := audio_stations s; station_mount_points := station_mount_points s;
     station_playlists := station_playlists s; icecastContainers := icecastContainers s;
     commands := c; pending_faults := pending_faults s |}.

Definition with_faults (f : list bool) (s : state) : state :=
  {| audio_stations := audio_stations s; station_mount_points := station_mount_points s;
     station_playlists := station_playlists s; icecastContainers := icecastContainers s;
     commands := commands s; pending_faults := f |}.

#[global] Instance state_faulty : Faulty state :=
  {| faults := pending_faults; set_faults := with_faults |}.

(** *** Statements *)

(** The range of the SQL type [INTEGER]. *)
Definition int4 (n : Z) : Prop := -2147483648 ≤ n ≤ 2147483647.

(** The length limits of the [VARCHAR] columns and the integer columns. *)
Definition station_fits (r : station_row) : Prop :=
  (String.length (name r) ≤ 255)%nat ∧
  (from_option String.length 0%nat (genre r) ≤ 100)%nat ∧
  (String.length (mount_point r) ≤ 100)%nat ∧
  (from_option String.length 0%nat (source_password r) ≤ 64)%nat ∧
  int4 (bitrate r) ∧ from_option int4 True (stream_port r).

(** The primary key and the two [UNIQUE] columns of [audio_stations]. *)
Definition station_clashes (r : station_row) (rows : list station_row) : Prop :=
  id r ∈ id <$> rows ∨ mount_point r ∈ mount_point <$> rows ∨
  (is_Some (stream_port r) ∧ stream_port r ∈ stream_port <$> rows).

#[global] Instance int4_dec n : Decision (int4 n).
Proof. unfold int4. apply _. Defined.

#[global] Instance station_fits_dec r : Decision (station_fits r).
Proof. unfold station_fits. destruct (stream_port r); simpl; apply _. Defined.

#[global] Instance station_clashes_dec r rows : Decision (station_clashes r rows).
Proof. unfold station_clashes. apply _. Defined.

(** [await pool.query(SELECT ...)] *)
Definition query {A} (f : state → A) : prog state A :=
  external_call "pool.query";;
  gets f.

(** [INSERT INTO audio_stations (...) VALUES (...) RETURNING *] *)
Definition insert_station (r : station_row) : prog state station_row :=
  external_call "pool.query";;
  rows ← gets audio_stations;
  if decide (station_fits r ∧ ¬ station_clashes r rows) then
    modify (λ s, with_stations (audio_stations s ++ [r]) s);;
    mret r
  else throw "constraint violation".

(** [INSERT INTO station_mount_points (station_id, mount_point, bitrate,
    is_primary) VALUES ($1, $2, $3, true)]: the mount point is [UNIQUE] and
    the station is a foreign key. *)
Definition insert_mount_point (stationId mount : string) (rate : Z) : prog state unit :=
  external_call "pool.query";;
  stations ← gets audio_stations;
  mounts ← gets station_mount_points;
  if decide (stationId ∈ id <$> stations ∧ (mount ∉ mp_mount_point <$> mounts) ∧
             (String.length mount ≤ 100)%nat ∧ int4 rate) then
    modify (λ s, with_mount_points
                   (station_mount_points s ++
                    [ {| mp_station_id := stationId; mp_mount_point := mount;
                         mp_bitrate := rate; mp_is_primary := true |} ]) s)
  else throw "constraint violation".

(** [INSERT INTO station_playlists (station_id, name, description,
    is_default) VALUES ($1, 'Default Playlist', 'Auto DJ default playlist',
    true)] *)
Definition insert_default_playlist (stationId : string) : prog state unit :=
  external_call "pool.query";;
  stations ← gets audio_stations;
  if decide (stationId ∈ id <$> stations) then
    modify (λ s, with_playlists
                   (station_playlists s ++
                    [ {| pl_station_id := stationId; pl_name := "Default Playlist";
                         pl_description := "Auto DJ default playlist";
                         pl_is_default := true |} ]) s)
  else throw "constraint violation".

(** [UPDATE audio_stations SET stream_port = $1 WHERE id = $2] *)
Definition set_port (port : Z) (stationId : string) (r : station_row) : station_row :=
  if decide (id r = stationId)
  then {| id := id r; name := name r; genre := genre r; mount_point := mount_point r;
          stream_port := Some port; bitrate := bitrate r; is_active := is_active r;
          auto_dj_enabled := auto_dj_enabled r; created_by := created_by r;
          source_password := source_password r |}
  else r.

Definition update_port (port : Z) (stationId : string) : prog state unit :=
  external_call "pool.query";;
  rows ← gets audio_stations;
  if decide (stationId ∈ id <$> rows ∧
             (¬ int4 port ∨
              Some port ∈ stream_port <$> filter (λ r, id r ≠ stationId) rows)) then
    throw "constraint violation"
  else modify (λ s, with_stations (set_port port stationId <$> audio_stations s) s).

(** *** The port allocator on the table *)

Definition leases (rows : list station_row) : list PortAllocator.lease :=
  (λ r, {| PortAllocator.lease_station := id r;
           PortAllocator.stream_port := stream_port r |}) <$> rows.

(** The ports held by stations. *)
Definition ports (rows : list station_row) : list Z := omap stream_port rows.

Definition getNextAvailablePort : prog state Z :=
  rows ← query (λ s, leases (audio_stations s));
  match PortAllocator.getNextAvailablePort rows with
  | inl port => mret port
  | inr e => throw (PortAllocator.error_message e)
  end.

(** *** Icecast containers *)

Definition log (c : command) : prog state unit :=
  modify (λ s, with_commands (commands s ++ [c]) s).

(** [`icecast-station-${station.id.substring(0, 8)}`] *)
Definition containerName (stationId : string) : string :=
  "icecast-station-" +:+ String.substring 0 8 stationId.

(** [`/tmp/icecast-${station.id}.xml`] *)
Definition configPath (stationId : string) : string :=
  "/tmp/icecast-" +:+ stationId +:+ ".xml".

(** [startIcecastForStation]: a failure of any step is logged and
    swallowed. *)
Definition startIcecastForStation (stationId : string) (port : Z) (password : string)
    : prog state unit :=
  try_catch
    (external_call "docker stop";;
     log (DockerStop (containerName stationId));;
     external_call "docker rm";;
     log (DockerRm (containerName stationId));;
     external_call "fs.writeFileSync";;
     log (WriteConfig (configPath stationId) stationId);;
     external_call "docker run";;
     log (DockerRun (containerName stationId) port (configPath stationId) password);;
     modify (λ s, with_containers
                    (<[stationId := containerName stationId]> (icecastContainers s)) s))
    (λ _, mret tt).

(** *** [POST /api/audio/stations] *)

(** The fields of the request body that the handler reads; [None] is an
    absent field. *)
Record station_body := {
  body_name : option string;
  body_genre : option string;
  body_bitrate : option Z;
  body_auto_dj_enabled : option bool;
  assigned_user_id : option string
}.

Inductive reply :=
| Created (station : station_row)        (* [res.json(station)] *)
| Failed (status : Z) (error : string).

(** [req.user.role === 'admin' && assigned_user_id] decides the owner. *)
Definition ownerId (userId userRole : string) (b : station_body) : string :=
  match assigned_user_id b with
  | Some u => if decide (userRole = "admin" ∧ u ≠ "") then u else userId
  | None => userId
  end.

(** The handler, after the access middleware. [hex] is the outcome of
    [crypto.randomBytes(6).toString('hex')] and [newId] the identifier that
    the database generates for the row. *)
Definition post_station (userId userRole : string) (b : station_body) (hex newId : string)
    : prog state reply :=
  try_catch
    (match body_name b with
     | None => throw "TypeError"
     | Some name =>
         let mountPoint := mountPoint name in
         let bitrate := default 128 (body_bitrate b) in
         let sourcePassword := "cmc_" +:+ hex in
         streamPort ← getNextAvailablePort;
         station ← insert_station
           {| id := newId; name := name; genre := body_genre b; mount_point := mountPoint;
              stream_port := Some streamPort; bitrate := bitrate; is_active := true;
              auto_dj_enabled := default true (body_auto_dj_enabled b);
              created_by := Some (ownerId userId userRole b);
              source_password := Some sourcePassword |};
         insert_mount_point (id station) mountPoint bitrate;;
         insert_default_playlist (id station);;
         startIcecastForStation (id station) streamPort sourcePassword;;
         mret (Created station)
     end)
    (λ _, mret (Failed 500 "Failed to create station")).

(** *** The port migration of [main] *)

(** "Assign ports to existing stations without one": nothing catches a
    failure, [main] rejects. *)
Definition assignMissingPorts : prog state unit :=
  stationsWithoutPort ← query (λ s, filter (λ r, stream_port r = None) (audio_stations s));
  for_of stationsWithoutPort (λ station,
    nextPort ← getNextAvailablePort;
    update_port nextPort (id station)).

(** A row keeps everything but, possibly, its port. *)
Definition port_assigned (r r' : station_row) : Prop :=
  id r' = id r ∧ name r' = name r ∧ genre r' = genre r ∧ mount_point r' = mount_point r ∧
  bitrate r' = bitrate r ∧ is_active r' = is_active r ∧
  auto_dj_enabled r' = auto_dj_enabled r ∧ created_by r' = created_by r ∧
  source_password r' = source_password r ∧
  match stream_port r with
  | Some p => stream_port r' = Some p
  | None => ∃ p, stream_port r' = Some p ∧
                 PortAllocator.BASE_STREAM_PORT ≤ p ≤ PortAllocator.MAX_STREAM_PORT
  end.

(** What the migration does to a row, for the stations [L] still to be
    handled. *)
Definition assigned_in (L : list station_row) (r r' : station_row) : Prop :=
  id r' = id r ∧ name r' = name r ∧ genre r' = genre r ∧ mount_point r' = mount_point r ∧
  bitrate r' = bitrate r ∧ is_active r' = is_active r ∧
  auto_dj_enabled r' = auto_dj_enabled r ∧ created_by r' = created_by r ∧
  source_password r' = source_password r ∧
  if decide (id r ∈ id <$> L)
  then ∃ p, stream_port r' = Some p ∧
            PortAllocator.BASE_STREAM_PORT ≤ p ≤ PortAllocator.MAX_STREAM_PORT
  else stream_port r' = stream_port r.

(** Everything but the failure schedule is unchanged. *)
Definition nothing_created : relation state :=
  λ s s', audio_stations s' = audio_stations s ∧
          station_mount_points s' = station_mount_points s ∧
          station_playlists s' = station_playlists s ∧
          icecastContainers s' = icecastContainers s ∧ commands s' = commands s.

(** *** Sample data *)

Definition jazz : station_row :=
  {| id := "0a1b2c3d-0000"; name := "Jazz FM"; genre := None; mount_point := "jazz-fm";
     stream_port := Some 8001; bitrate := 128; is_active := true; auto_dj_enabled := true;
     created_by := Some "u1"; source_password := Some "cmc_0123456789ab" |}.

(** A station created before ports were introduced. *)
Definition oldies : station_row :=
  {| id := "99887766-0000"; name := "Oldies"; genre := None; mount_point := "oldies";
     stream_port := None; bitrate := 128; is_active := true; auto_dj_enabled := true;
     created_by := Some "u1"; source_password := None |}.

Definition one_station : state :=
  {| audio_stations := [jazz];
     station_mount_points :=
       [ {| mp_station_id := "0a1b2c3d-0000"; mp_mount_point := "jazz-fm";
            mp_bitrate := 128; mp_is_primary := true |};
         {| mp_station_id := "0a1b2c3d-0000"; mp_mount_point := "jazz-hq";
            mp_bitrate := 320; mp_is_primary := false |} ];
     station_playlists := []; icecastContainers := ∅; commands := [];
     pending_faults := [] |}.

Definition named (n : string) : station_body :=
  {| body_name := Some n; body_genre := None; body_bitrate := None;
     body_auto_dj_enabled := None; assigned_user_id := None |}.

End Provisioning.

(** * Properties *)

(** ** Reasoning about programs *)

Section ProgFacts.
Context {S : Type}.
Implicit Types (R : relation S).

Lemma stays_ret {A} R (a : A) : Reflexive R → stays R (mret a : prog S A).
Proof. intros HR s. apply HR. Qed.

Lemma stays_throw {A} R e : Reflexive R → stays R (throw e : prog S A).
Proof. intros HR s. apply HR. Qed.

Lemma stays_gets {A} R (f : S → A) : Reflexive R → stays R (gets f).
Proof. intros HR s. apply HR. Qed.

Lemma stays_modify R f : (∀ s, R s (f s)) → stays R (modify f).
Proof. intros Hf s. apply Hf. Qed.

Lemma stays_bind {A B} R (m : prog S A) (k : A → prog S B) :
  Transitive R → stays R m → (∀ a, stays R (k a)) → stays R (m ≫= k).
Proof.
  intros HT Hm Hk s. unfold mbind, prog_bind, bind.
  specialize (Hm s). destruct (m s) as [[a|e] s']; simpl in *; [|done].
  etrans; [exact Hm|apply Hk].
Qed.

Lemma stays_try_catch {A} R (m : prog S A) h :
  Transitive R → stays R m → (∀ e, stays R (h e)) → stays R (try_catch m h).
Proof.
  intros HT Hm Hh s. unfold try_catch.
  specialize (Hm s). destruct (m s) as [[a|e] s']; simpl in *; [done|].
  etrans; [exact Hm|apply Hh].
Qed.

Lemma stays_for_of {A} R (xs : list A) body :
  PreOrder R → (∀ x, stays R (body x)) → stays R (for_of xs body).
Proof.
  intros HR Hb. induction xs as [|x xs IH]; simpl.
  - intros s. simpl. reflexivity.
  - apply (stays_bind R (body x) (λ _, for_of xs body)); [apply _|apply Hb|done].
Qed.

Lemma stays_external_call `{Faulty S} R what :
  Reflexive R → (∀ fs s, R s (set_faults fs s)) → stays R (external_call what).
Proof.
  intros HR Hf s. unfold external_call.
  destruct (faults s) as [|[] fs]; simpl; [apply HR|apply Hf..].
Qed.

Lemma never_throws_catch {A} (m : prog S A) (a : A) :
  never_throws (try_catch m (λ _, mret a)).
Proof.
  intros s. unfold try_catch. destruct (m s) as [[x|e] s']; simpl; eauto.
Qed.

Lemma exec_bind {A B} (m : prog S A) (k : A → prog S B) s a :
  (m s).1 = Ok a → exec (m ≫= k) s = exec (k a) (exec m s).
Proof.
  unfold exec, mbind, prog_bind, bind. destruct (m s) as [[x|e] s']; simpl; congruence.
Qed.

Lemma eval_bind {A B} (m : prog S A) (k : A → prog S B) s a :
  (m s).1 = Ok a → eval (m ≫= k) s = eval (k a) (exec m s).
Proof.
  unfold eval, exec, mbind, prog_bind, bind.
  destruct (m s) as [[x|e] s']; simpl; congruence.
Qed.
End ProgFacts.

#[global] Instance same_preorder {S B} (f : S → B) : PreOrder (same f).
Proof. split; unfold same; [done|intros x y z; congruence]. Qed.

(** Decomposes a goal [stays R m] along the structure of [m]. *)
Ltac stays_step :=
  lazymatch goal with
  | |- stays _ (mret _) => apply stays_ret; try apply _
  | |- stays _ (throw _) => apply stays_throw; try apply _
  | |- stays _ (gets _) => apply stays_gets; try apply _
  | |- stays _ (modify _) => apply stays_modify; intros; try done
  | |- stays _ (external_call _) => apply stays_external_call; [try apply _|intros; try done]
  | |- stays _ (_ ≫= _) => apply stays_bind; [try apply _| |intros]
  | |- stays _ (try_catch _ _) => apply stays_try_catch; [try apply _| |intros]
  | |- stays _ (for_of _ _) => apply stays_for_of; [try apply _|intros]
  | |- stays _ (match ?x with _ => _ end) => destruct x
  | |- stays _ (let _ := _ in _) => cbv zeta
  end.

Section ForOf.
Context {S A : Type}.

Lemma for_of_skip (body : A → prog S unit) xs s :
  (∀ x, x ∈ xs → body x s = (Ok tt, s)) → for_of xs body s = (Ok tt, s).
Proof.
  induction xs as [|x xs IH]; intros Hb; simpl; [done|].
  unfold bind. rewrite Hb by left. apply IH. intros y Hy. apply Hb. by right.
Qed.

Lemma for_of_fold {K} (f : S → K) (g : K → A → K) (body : A → prog S unit) xs s :
  (∀ x s, ∃ s', body x s = (Ok tt, s') ∧ f s' = g (f s) x) →
  ∃ s', for_of xs body s = (Ok tt, s') ∧ f s' = foldl g (f s) xs.
Proof.
  intros Hb. revert s. induction xs as [|x xs IH]; intros s; simpl.
  - by exists s.
  - destruct (Hb x s) as (s1 & Hs1 & Hf). unfold bind. rewrite Hs1.
    destruct (IH s1) as (s2 & Hs2 & Hf2). exists s2. by rewrite Hs2, Hf2, Hf.
Qed.
End ForOf.

Section After.
Context {S A B C : Type}.

(** A field that only the first step of a guarded sequence can change. *)
Lemma same_after_first (f : S → C) (m : prog S A) (k : A → prog S B) h s :
  (∀ a, stays (same f) (k a)) → (∀ e, stays (same f) (h e)) →
  f (exec (try_catch (m ≫= k) h) s) = f (exec m s).
Proof.
  intros Hk Hh. unfold exec, try_catch, mbind, prog_bind, bind.
  destruct (m s) as [[a|e] s1]; simpl.
  - pose proof (Hk a s1) as Hs. unfold same in Hs.
    destruct (k a s1) as [[b|e] s2]; simpl in *; [done|].
    rewrite <- Hs. apply (Hh e s2).
  - apply (Hh e s1).
Qed.
End After.

(** ** Weakest preconditions *)

Section WpFacts.
Context {S : Type}.

Lemma wp_ret {A} (a : A) (Q : result A → S → Prop) s : Q (Ok a) s → wp (mret a) Q s.
Proof. done. Qed.

Lemma wp_throw {A} e (Q : result A → S → Prop) s : Q (Thrown e) s → wp (throw e) Q s.
Proof. done. Qed.

Lemma wp_gets {A} (f : S → A) Q s : Q (Ok (f s)) s → wp (gets f) Q s.
Proof. done. Qed.

Lemma wp_modify (f : S → S) Q s : Q (Ok tt) (f s) → wp (modify f) Q s.
Proof. done. Qed.

Lemma wp_bind {A B} (m : prog S A) (k : A → prog S B) Q s :
  wp m (λ r s', match r with Ok a => wp (k a) Q s' | Thrown e => Q (Thrown e) s' end) s →
  wp (m ≫= k) Q s.
Proof.
  unfold wp, mbind, prog_bind, bind. by destruct (m s) as [[a|e] s'].
Qed.

Lemma wp_try_catch {A} (m : prog S A) h Q s :
  wp m (λ r s', match r with Ok a => Q (Ok a) s' | Thrown e => wp (h e) Q s' end) s →
  wp (try_catch m h) Q s.
Proof.
  unfold wp, try_catch. by destruct (m s) as [[a|e] s'].
Qed.

Lemma wp_external_call `{Faulty S} what (Q : result unit → S → Prop) s :
  (faults s = [] → Q (Ok tt) s) →
  (∀ fs, faults s = false :: fs → Q (Ok tt) (set_faults fs s)) →
  (∀ fs, faults s = true :: fs → Q (Thrown what) (set_faults fs s)) →
  wp (external_call what) Q s.
Proof.
  intros H0 H1 H2. unfold wp, external_call.
  destruct (faults s) as [|[] fs]; simpl; auto.
Qed.

Lemma wp_stays {A} R (m : prog S A) (Q : result A → S → Prop) s :
  stays R m → (∀ r s', R s s' → Q r s') → wp m Q s.
Proof. intros Hm HQ. apply HQ, Hm. Qed.

Lemma wp_mono {A} (m : prog S A) (Q Q' : result A → S → Prop) s :
  wp m Q s → (∀ r s', Q r s' → Q' r s') → wp m Q' s.
Proof. intros Hm HQ. apply HQ, Hm. Qed.

Lemma wp_exec {A} (m : prog S A) (P : S → Prop) s : wp m (λ _, P) s → P (exec m s).
Proof. done. Qed.

Lemma wp_run {A} (m : prog S A) (Q : result A → S → Prop) s :
  wp m Q s → Q (eval m s) (exec m s).
Proof. done. Qed.
End WpFacts.

Ltac wp_step :=
  lazymatch goal with
  | |- wp (mret _) _ _ => apply wp_ret
  | |- wp (throw _) _ _ => apply wp_throw
  | |- wp (gets _) _ _ => apply wp_gets
  | |- wp (modify _) _ _ => apply wp_modify
  | |- wp (_ ≫= _) _ _ => apply wp_bind
  | |- wp (try_catch _ _) _ _ => apply wp_try_catch
  | |- wp (external_call _) _ _ =>
      apply wp_external_call; [intros ?|intros ? ?|intros ? ?]
  | |- wp (match ?x with _ => _ end) _ _ => destruct x eqn:?
  | |- wp (let _ := _ in _) _ _ => cbv zeta
  end; cbv beta iota.


(** ** Port allocation *)

Section PortAllocatorFacts.
Import PortAllocator.

Lemma scan_spec used port n :
  match scan used port n with
  | Some p =>
      (port ≤ p < (port + Z.of_nat n)) ∧ (p ∉ used) ∧ (∀ q, port ≤ q < p → q ∈ used)
  | None => ∀ q, port ≤ q < (port + Z.of_nat n) → q ∈ used
  end.
Proof.
  revert port. induction n as [|n IH]; intros port; simpl.
  - intros q ?. lia.
  - destruct (decide (port ∈ used)) as [Hin|Hout].
    + specialize (IH (port + 1)). destruct (scan used (port + 1) n) as [p|].
      * destruct IH as (? & ? & Hlow). split; [lia|split; [done|]].
        intros q ?. destruct (decide (q = port)) as [->|]; [done|apply Hlow; lia].
      * intros q ?. destruct (decide (q = port)) as [->|]; [done|apply IH; lia].
    + split; [lia|split; [done|]]. intros q ?. lia.
Qed.

Lemma used_ports_leased rows q : q ∈ usedPorts rows ↔ q ∈ leased_ports rows.
Proof. unfold usedPorts, leased_ports. apply elem_of_list_to_set. Qed.

Lemma leased_ports_assign sid p rows :
  leased_ports (assign sid p rows) = leased_ports rows ++ [p].
Proof. unfold leased_ports, assign. by rewrite omap_app. Qed.

(** C4: the allocator returns the lowest port of the pool that no station
    holds; it reports an error exactly when every port of the pool is held;
    giving the returned port to a new station keeps the leases free of
    duplicates. *)
Theorem getNextAvailablePort_lowest_free (rows : list lease) :
  match getNextAvailablePort rows with
  | inl p =>
      (BASE_STREAM_PORT ≤ p ≤ MAX_STREAM_PORT) ∧
      (p ∉ leased_ports rows) ∧
      (∀ q, BASE_STREAM_PORT ≤ q < p → q ∈ leased_ports rows) ∧
      (∀ sid, NoDup (leased_ports rows) → NoDup (leased_ports (assign sid p rows)))
  | inr e =>
      e = NoAvailablePorts ∧
      ∀ q, BASE_STREAM_PORT ≤ q ≤ MAX_STREAM_PORT → q ∈ leased_ports rows
  end.
Proof.
  unfold getNextAvailablePort.
  pose proof (scan_spec (usedPorts rows) BASE_STREAM_PORT
                (Z.to_nat (MAX_STREAM_PORT - BASE_STREAM_PORT + 1))) as Hs.
  destruct (scan _ _ _) as [p|].
  - destruct Hs as (Hr & Hfree & Hlow).
    assert (p ∉ leased_ports rows) as Hp by (by rewrite <- used_ports_leased).
    split; [|split; [|split]].
    + unfold BASE_STREAM_PORT, MAX_STREAM_PORT in *. lia.
    + done.
    + intros q Hq. apply used_ports_leased, Hlow, Hq.
    + intros sid Hnd. rewrite leased_ports_assign. apply NoDup_app.
      split; [done|split].
      * intros x Hx ->%list_elem_of_singleton. done.
      * apply NoDup_singleton.
  - split; [done|]. intros q Hq. apply used_ports_leased, Hs.
    unfold BASE_STREAM_PORT, MAX_STREAM_PORT in *. lia.
Qed.

Example getNextAvailablePort_first :
  getNextAvailablePort [] = inl 8001.
Proof. reflexivity. Qed.

Example getNextAvailablePort_gap :
  getNextAvailablePort
    [ {| lease_station := "a"; stream_port := Some 8002 |};
      {| lease_station := "b"; stream_port := Some 8001 |};
      {| lease_station := "c"; stream_port := None |};
      {| lease_station := "d"; stream_port := Some 8004 |} ] = inl 8003.
Proof. vm_compute. reflexivity. Qed.

Example getNextAvailablePort_exhausted :
  getNextAvailablePort
    ((λ i, {| lease_station := "s"; stream_port := Some (8001 + Z.of_nat i) |})
       <$> seq 0 100) = inr NoAvailablePorts.
Proof. vm_compute. reflexivity. Qed.
End PortAllocatorFacts.

(** ** Stream status reconciliation *)

Section StreamSyncKnown.
Import StreamSync.

Lemma query_start_known k : stays (same knownActiveStreams) (query_start k).
Proof. unfold query_start. repeat stays_step. Qed.

Lemma handleStreamStart_known k : stays (same knownActiveStreams) (handleStreamStart k).
Proof. unfold handleStreamStart, query_start, setStreamState, publish. repeat stays_step. Qed.

Lemma handleStreamEnd_known k : stays (same knownActiveStreams) (handleStreamEnd k).
Proof. unfold handleStreamEnd, query_end, setStreamState, publish. repeat stays_step. Qed.
End StreamSyncKnown.

Section StreamSyncFacts.
Import StreamSync.

Lemma ok_of_never_throws {S} (m : prog S unit) s :
  never_throws m → m s = (Ok tt, exec m s).
Proof.
  intros Hm. destruct (Hm s) as [[] Ha]. unfold exec.
  destruct (m s) as [r s']; simpl in *. by subst.
Qed.

Lemma handleStreamStart_ok k s :
  handleStreamStart k s = (Ok tt, exec (handleStreamStart k) s).
Proof. apply ok_of_never_throws, never_throws_catch. Qed.

Lemma handleStreamEnd_ok k s :
  handleStreamEnd k s = (Ok tt, exec (handleStreamEnd k) s).
Proof. apply ok_of_never_throws, never_throws_catch. Qed.

Lemma elem_of_set_add k x s : k ∈ set_add x s ↔ k ∈ s ∨ k = x.
Proof.
  unfold set_add, set_has. case_bool_decide.
  - split; [by left|]. intros [?| ->]; done.
  - rewrite elem_of_app, list_elem_of_singleton. done.
Qed.

Lemma elem_of_set_delete k x s : k ∈ set_delete x s ↔ k ∈ s ∧ k ≠ x.
Proof. unfold set_delete. rewrite list_elem_of_filter. tauto. Qed.

Lemma elem_of_add_all k l s : k ∈ foldl (λ s x, set_add x s) s l ↔ k ∈ s ∨ k ∈ l.
Proof.
  revert s. induction l as [|x l IH]; intros s; simpl.
  - rewrite elem_of_nil. tauto.
  - rewrite IH, elem_of_set_add, elem_of_cons. tauto.
Qed.

Lemma elem_of_drop_all active k l s :
  k ∈ foldl (drop_ended active) s l ↔ k ∈ s ∧ (k ∈ active ∨ k ∉ l).
Proof.
  revert s. induction l as [|x l IH]; intros s; simpl.
  - rewrite elem_of_nil. tauto.
  - rewrite IH. unfold drop_ended, set_has. rewrite not_elem_of_cons.
    case_bool_decide as Hx.
    + destruct (decide (k = x)) as [->|]; intuition congruence.
    + rewrite elem_of_set_delete.
      destruct (decide (k = x)) as [->|]; intuition congruence.
Qed.

Lemma sync_body_known d s :
  ∃ s', sync_body d s = (Ok tt, s') ∧
        ∀ k, k ∈ knownActiveStreams s' ↔ k ∈ activeStreamKeys d.
Proof.
  unfold sync_body. cbv zeta. set (active := activeStreamKeys d).
  unfold mbind at 1, prog_bind at 1, bind at 1.
  match goal with |- context [for_of active ?b s] =>
    destruct (for_of_fold knownActiveStreams (λ s x, set_add x s) b active s)
      as (s1 & -> & Hk1) end.
  { intros x s0. unfold mbind, prog_bind, bind, gets. simpl.
    destruct (set_has x (knownActiveStreams s0)) eqn:Hhas; simpl.
    - exists s0. split; [done|]. unfold set_add. by rewrite Hhas.
    - rewrite handleStreamStart_ok. simpl. eexists. split; [done|]. simpl.
      pose proof (handleStreamStart_known x s0) as Hsame. unfold same in Hsame.
      unfold exec. rewrite Hsame. unfold set_add. by rewrite Hhas. }
  unfold mbind, prog_bind, bind, gets. simpl.
  match goal with |- context [for_of (knownActiveStreams s1) ?b s1] =>
    destruct (for_of_fold knownActiveStreams (drop_ended active) b
                (knownActiveStreams s1) s1) as (s2 & -> & Hk2) end.
  { intros x s0. unfold drop_ended.
    destruct (set_has x active) eqn:Hhas; simpl.
    - by exists s0.
    - rewrite handleStreamEnd_ok. simpl. eexists. split; [done|]. simpl.
      pose proof (handleStreamEnd_known x s0) as Hsame. unfold same in Hsame.
      unfold exec. by rewrite Hsame. }
  exists s2. split; [done|]. intros k.
  rewrite Hk2, elem_of_drop_all, Hk1, elem_of_add_all. tauto.
Qed.

Lemma sync_body_steady d s :
  (∀ k, k ∈ knownActiveStreams s ↔ k ∈ activeStreamKeys d) →
  sync_body d s = (Ok tt, s).
Proof.
  intros Hk. unfold sync_body. cbv zeta.
  unfold mbind at 1, prog_bind at 1, bind at 1.
  rewrite for_of_skip.
  - unfold mbind, prog_bind, bind, gets. simpl. apply for_of_skip.
    intros x Hx. unfold set_has. rewrite bool_decide_eq_true_2; [done|by apply Hk].
  - intros x Hx. unfold mbind, prog_bind, bind, gets, set_has. simpl.
    rewrite bool_decide_eq_true_2; [done|by apply Hk].
Qed.

(** C8: a cycle that fails (the origin cannot be reached, answers with a
    non-OK status, sends no JSON, or reports an error code) leaves the whole
    state as it was: the known-active set, the stream rows, the stored stream
    states and the published notifications. *)
Theorem syncStreamStatus_failed_cycle (r : fetch_outcome) (s : state) :
  cycle_failed r → syncStreamStatus r s = (Ok tt, s).
Proof.
  intros Hf. unfold syncStreamStatus, try_catch.
  destruct r as [| | |d]; simpl; try done.
  simpl in Hf. by rewrite decide_True.
Qed.

Lemma syncStreamStatus_failed_cycle_witness :
  cycle_failed (HttpOk {| code := 100; streams := [] |}) ∧
  syncStreamStatus (HttpOk {| code := 100; streams := [] |}) sample_state
  = (Ok tt, sample_state).
Proof.
  split; [simpl; lia|].
  apply (syncStreamStatus_failed_cycle (HttpOk {| code := 100; streams := [] |})).
  simpl. lia.
Defined.

Example failed_cycle_keeps_known :
  knownActiveStreams (exec (syncStreamStatus FetchThrows) sample_state) = ["abc"] ∧
  knownActiveStreams (exec (syncStreamStatus (HttpOk (srs_reply []))) sample_state) = [].
Proof. split; vm_compute; reflexivity. Qed.

Lemma syncStreamStatus_ok d s :
  code d = 0 → syncStreamStatus (HttpOk d) s = sync_body d s.
Proof.
  intros Hc. unfold syncStreamStatus, try_catch.
  rewrite decide_False by (intros ?; done).
  by destruct (sync_body_known d s) as (s' & -> & _).
Qed.

(** C5: after a successful cycle, a second successful cycle that reports
    the same set of active keys changes nothing, whatever happened to the
    clock, the database or the failure schedule in between: no notification
    is published, no row is rewritten, the known set is the same. *)
Theorem syncStreamStatus_idempotent (d1 d2 : SrsStreamsResponse) (s s1 : state) :
  code d1 = 0 → code d2 = 0 →
  (∀ k, k ∈ activeStreamKeys d1 ↔ k ∈ activeStreamKeys d2) →
  knownActiveStreams s1 = knownActiveStreams (exec (syncStreamStatus (HttpOk d1)) s) →
  syncStreamStatus (HttpOk d2) s1 = (Ok tt, s1) ∧
  new_notifications s1 (exec (syncStreamStatus (HttpOk d2)) s1) = [] ∧
  streams_table (exec (syncStreamStatus (HttpOk d2)) s1) = streams_table s1.
Proof.
  intros Hc1 Hc2 Hsame Hknown. unfold exec in Hknown.
  assert (syncStreamStatus (HttpOk d2) s1 = (Ok tt, s1)) as Hsteady.
  { rewrite syncStreamStatus_ok in * by done.
    destruct (sync_body_known d1 s) as (s' & Hs' & Hk). rewrite Hs' in Hknown.
    simpl in Hknown. rewrite sync_body_steady; [done|].
    intros k. rewrite Hknown, Hk. apply Hsame. }
  unfold exec, new_notifications. rewrite Hsteady. simpl.
  by rewrite drop_all.
Qed.

Lemma syncStreamStatus_idempotent_witness :
  let s1 := exec (syncStreamStatus (HttpOk (srs_reply ["xyz.m3u8"]))) fresh_state in
  syncStreamStatus (HttpOk (srs_reply ["xyz"; "xyz.m3u8"])) s1 = (Ok tt, s1) ∧
  new_notifications s1 (exec (syncStreamStatus (HttpOk (srs_reply ["xyz"; "xyz.m3u8"]))) s1) = [] ∧
  streams_table (exec (syncStreamStatus (HttpOk (srs_reply ["xyz"; "xyz.m3u8"]))) s1)
  = streams_table s1.
Proof.
  apply (syncStreamStatus_idempotent (srs_reply ["xyz.m3u8"]) (srs_reply ["xyz"; "xyz.m3u8"])
           fresh_state).
  - reflexivity.
  - reflexivity.
  - intros k.
    replace (activeStreamKeys (srs_reply ["xyz"; "xyz.m3u8"]))
      with (activeStreamKeys (srs_reply ["xyz.m3u8"])) by (vm_compute; reflexivity).
    reflexivity.
  - reflexivity.
Defined.

Example first_cycle_notifies :
  published (exec (syncStreamStatus (HttpOk (srs_reply ["xyz.m3u8"]))) fresh_state)
  = [StreamStart "43" "xyz" "u7" true; RecordingStart "43" "xyz" "u7" "Evening show"].
Proof. vm_compute. reflexivity. Qed.

End StreamSyncFacts.

Section StreamSyncStart.
Import StreamSync.

#[local] Instance start_kept_preorder : PreOrder start_kept.
Proof.
  split.
  - intros r. by repeat split.
  - intros r1 r2 r3 (Hi1 & Hk1 & Ht1) (Hi2 & Hk2 & Ht2).
    repeat split; [congruence..|]. intros t Ht. by apply Ht2, Ht1.
Qed.

#[local] Instance starts_kept_preorder : PreOrder starts_kept.
Proof.
  split.
  - intros s. unfold starts_kept. reflexivity.
  - intros s1 s2 s3. unfold starts_kept. apply transitivity.
Qed.

Lemma starts_kept_fmap (f : stream_row → stream_row) l :
  (∀ r, start_kept r (f r)) → Forall2 start_kept l (f <$> l).
Proof.
  intros Hf. apply Forall2_fmap_r, Forall_Forall2_diag, Forall_forall.
  intros r _. apply Hf.
Qed.

Lemma update_start_kept key t r : start_kept r (update_start key t r).
Proof.
  unfold update_start. case_decide; [|reflexivity].
  repeat split. simpl. intros t0 ->. done.
Qed.

Lemma update_end_kept key t r : start_kept r (update_end key t r).
Proof. unfold update_end. case_decide; [|reflexivity]. by repeat split. Qed.

Lemma update_start_started key t r : started key t r (update_start key t r).
Proof. unfold started, update_start. case_decide; done. Qed.

Lemma update_end_ended key t r : ended key t r (update_end key t r).
Proof. unfold ended, update_end. case_decide; done. Qed.

Ltac kept_side := unfold starts_kept; simpl; try reflexivity.

Lemma handleStreamStart_kept key : stays starts_kept (handleStreamStart key).
Proof.
  unfold handleStreamStart, query_start, setStreamState, publish.
  repeat stays_step; kept_side.
  apply starts_kept_fmap, update_start_kept.
Qed.

Lemma handleStreamEnd_kept key : stays starts_kept (handleStreamEnd key).
Proof.
  unfold handleStreamEnd, query_end, setStreamState, publish.
  repeat stays_step; kept_side.
  apply starts_kept_fmap, update_end_kept.
Qed.

Lemma syncStreamStatus_kept r : stays starts_kept (syncStreamStatus r).
Proof.
  unfold syncStreamStatus, sync_body.
  repeat stays_step; kept_side;
    first [apply handleStreamStart_kept | apply handleStreamEnd_kept].
Qed.

Lemma cycles_kept s cs : starts_kept s (cycles s cs).
Proof.
  revert s. induction cs as [|c cs IH]; intros s; simpl; [reflexivity|].
  etrans; [|apply IH]. unfold tick.
  etrans; [|apply syncStreamStatus_kept]. kept_side.
Qed.

Lemma query_start_table key s :
  head (faults s) ≠ Some true →
  streams_table (exec (query_start key) s) = update_start key (now s) <$> streams_table s.
Proof.
  intros Hf. unfold exec, query_start, mbind, prog_bind, bind, external_call, gets, modify.
  simpl in *. destruct (pending_faults s) as [|[] fs]; simpl in *; done.
Qed.

(** C6: when a start is detected and the update succeeds, every row of the
    key that is not yet live becomes live, and its start timestamp becomes the
    current time only if it was unset, otherwise it keeps its value; rows that
    are already live are not touched. A start timestamp that is set is kept by
    the handler and by every later reconciliation cycle. *)
Theorem handleStreamStart_sets_start_once (key : string) (s : state) :
  let s' := exec (handleStreamStart key) s in
  (head (faults s) ≠ Some true →
   Forall2 (started key (now s)) (streams_table s) (streams_table s')) ∧
  starts_kept s s' ∧
  (∀ cs, starts_kept s' (cycles s' cs)).
Proof.
  cbv zeta. split; [|split].
  - intros Hf. unfold handleStreamStart.
    rewrite (same_after_first streams_table).
    + rewrite query_start_table by done.
      apply Forall2_fmap_r, Forall_Forall2_diag, Forall_forall.
      intros r _. apply update_start_started.
    + intros rows. unfold setStreamState, publish. repeat stays_step.
    + intros e. repeat stays_step.
  - apply handleStreamStart_kept.
  - intros cs. apply cycles_kept.
Qed.
End StreamSyncStart.

Section StreamSyncEnd.
Import StreamSync.

Lemma update_end_none key t l :
  filter (end_matches key) l = [] → update_end key t <$> l = l.
Proof.
  induction l as [|r l IH]; [done|]. rewrite filter_cons, fmap_cons.
  unfold update_end at 1. destruct (decide (end_matches key r)); [done|].
  intros Hl. by rewrite IH.
Qed.

(** C7 (amended): when the handler for an ended key runs without failures
    and a live row of that key exists, every live row of the key is marked
    ended with the current time as its end timestamp, the stored stream state
    of the key is cleared, and exactly two notifications are published:
    recording-stop first, then stream-stop, whether or not recording is
    enabled for the stream. Without a live row nothing is rewritten, cleared
    or published. *)
Theorem handleStreamEnd_effects (key : string) (s : state) :
  faults s = [] →
  let s' := exec (handleStreamEnd key) s in
  match filter (end_matches key) (streams_table s) with
  | row :: _ =>
      Forall2 (ended key (now s)) (streams_table s) (streams_table s') ∧
      redis_states s' !! key = None ∧
      new_notifications s s' =
        [RecordingStop (stream_id row) key; StreamStop (stream_id row) key]
  | [] =>
      streams_table s' = streams_table s ∧ redis_states s' = redis_states s ∧
      new_notifications s s' = []
  end.
Proof.
  intros Hf. simpl in Hf. cbv zeta.
  unfold new_notifications, handleStreamEnd, try_catch, query_end, publish, setStreamState,
    mbind, prog_bind, bind, external_call, gets, modify, exec.
  simpl. rewrite Hf. simpl.
  destruct (filter (end_matches key) (streams_table s)) as [|row rest] eqn:Hrows; simpl.
  - rewrite update_end_none by done. by rewrite drop_all.
  - repeat (rewrite Hf; simpl). split; [|split].
    + apply Forall2_fmap_r, Forall_Forall2_diag, Forall_forall.
      intros r _. apply update_end_ended.
    + apply lookup_delete_eq.
    + rewrite <- app_assoc. by rewrite drop_app_length.
Qed.

Lemma handleStreamEnd_effects_witness :
  faults sample_state = [] ∧
  Forall2 (ended "abc" 500) [sample_row]
          (streams_table (exec (handleStreamEnd "abc") sample_state)) ∧
  redis_states (exec (handleStreamEnd "abc") sample_state) !! "abc" = None ∧
  new_notifications sample_state (exec (handleStreamEnd "abc") sample_state)
  = [RecordingStop "42" "abc"; StreamStop "42" "abc"].
Proof.
  split; [reflexivity|].
  apply (handleStreamEnd_effects "abc" sample_state). reflexivity.
Defined.

Example ended_stream_cycle :
  let s' := exec (syncStreamStatus (HttpOk (srs_reply []))) sample_state in
  knownActiveStreams s' = [] ∧
  (status <$> streams_table s') = ["ended"] ∧
  (actual_end <$> streams_table s') = [Some 500] ∧
  published s' = [RecordingStop "42" "abc"; StreamStop "42" "abc"].
Proof. vm_compute. repeat split; reflexivity. Qed.

(** C7, as stated, fails: the stream [sample_row] has recording disabled and
    its end still publishes a recording-stop notification. *)
Lemma recording_stop_without_recording :
  ¬ recording_stop_only_when_configured "abc" sample_state.
Proof.
  intros H. destruct (H (RecordingStop "42" "abc")) as (r & Hr & _ & Hrec).
  - vm_compute. left.
  - reflexivity.
  - apply list_elem_of_singleton in Hr. subst r. discriminate Hrec.
Qed.
End StreamSyncEnd.

(** ** The orchestrator *)

Section OrchestratorFacts.
Import Orchestrator.

Ltac wp_prim := unfold query, db_exec, log, respond, setTimeout.
Ltac wp_go := repeat (first [wp_step | progress wp_prim]).

(** Closes the branches whose assumptions about the failure schedule
    contradict each other. *)
Ltac faults_absurd :=
  simpl in *;
  try match goal with
      | H : head (pending_faults ?x) ≠ Some true, H' : pending_faults ?x = true :: _ |- _ =>
          exfalso; apply H; by rewrite H'
      end;
  try congruence.

Lemma isRunning_true s id : isRunning s id = true ↔ is_Some (autoDJProcesses s !! id).
Proof. unfold isRunning. apply bool_decide_eq_true. Qed.

Lemma isRunning_false s id : isRunning s id = false ↔ autoDJProcesses s !! id = None.
Proof.
  unfold isRunning. rewrite bool_decide_eq_false. by rewrite eq_None_not_Some.
Qed.

Lemma hasLiveDJ_true s id :
  hasLiveDJ s id = true ↔ ∃ m c, liveDJConnections s !! m = Some c ∧ stationId c = id.
Proof.
  unfold hasLiveDJ. rewrite bool_decide_eq_true, Exists_exists. split.
  - intros ([m c] & Hin & Hc). exists m, c. by apply elem_of_map_to_list in Hin.
  - intros (m & c & Hin & Hc). exists (m, c). by rewrite elem_of_map_to_list.
Qed.

Lemma hasLiveDJ_false s id :
  hasLiveDJ s id = false ↔ ∀ m c, liveDJConnections s !! m = Some c → stationId c ≠ id.
Proof.
  rewrite <- not_true_iff_false, hasLiveDJ_true. split.
  - intros Hn m c Hm Hc. apply Hn. eauto.
  - intros Hn (m & c & Hm & Hc). by eapply Hn.
Qed.

Lemma mutex_apart s : mutex s ↔ apart (autoDJProcesses s) (liveDJConnections s).
Proof.
  unfold mutex, apart. split.
  - intros Hm m c Hc. specialize (Hm (stationId c)).
    apply andb_false_iff in Hm as [Hr|Hl].
    + by apply isRunning_false.
    + rewrite hasLiveDJ_false in Hl. by destruct (Hl m c).
  - intros Ha id. apply andb_false_iff.
    destruct (hasLiveDJ s id) eqn:Hl; [left|by right].
    apply hasLiveDJ_true in Hl as (m & c & Hc & <-). apply isRunning_false. eauto.
Qed.

(** *** Icecast source authentication *)

Lemma strict_eq_true a b :
  strict_eq a b = true ↔ (a = JsNull ∧ b = None) ∨ ∃ p, a = JsString p ∧ b = Some p.
Proof.
  destruct a as [| |x|], b as [y|]; simpl; rewrite ?bool_decide_eq_true.
  all: split; [|intros [[? ?]|(p & ? & ?)]; congruence].
  all: try (intros ?; congruence).
  all: intros; subst; eauto.
Qed.

Lemma password_matches_spec pass station source :
  strict_eq pass (source_password station) || strict_eq pass (Some source) = true ↔
  password_matches pass station source.
Proof.
  unfold password_matches. rewrite orb_true_iff, !strict_eq_true. split.
  - intros [[[? ?]|(p & ? & ?)]|[[? ?]|(p & ? & ?)]]; simplify_eq; eauto.
  - intros [[? ?]|(p & ? & [?| ->])]; eauto 7.
Qed.

(** The decision of the source authentication hook, in full: the reply
    always has status 200 and one header [icecast-auth-user], whose value is 1
    or 0; it is 1 exactly when the mount is absent or a string, the lookup did
    not fail, the mount without its leading slash is the mount point of a
    station, and the password is strictly equal to that station's source
    password (a [null] password being equal to a [NULL] source password) or to
    the global source password. *)
Lemma icecast_auth_decision (s : state) (user pass mount : js_value) :
  ∃ v,
    eval (icecast_auth_json user pass mount) s =
      Ok {| http_status := 200; headers := [("icecast-auth-user", v)];
            http_body := Text "" |} ∧
    (v = "1" ∨ v = "0") ∧
    (v = "1" ↔
       head (faults s) ≠ Some true ∧
       ∃ mountPoint station,
         requested_mount mount = Some mountPoint ∧
         head (station_by_mount mountPoint (db s)) = Some station ∧
         password_matches pass station (ICECAST_SOURCE_PASSWORD s)).
Proof.
  apply (wp_run (icecast_auth_json user pass mount)
           (λ r s', ∃ v, r = Ok (auth_reply v) ∧ (v = "1" ∨ v = "0") ∧ (v = "1" ↔ _))).
  unfold icecast_auth_json. wp_go.
  all: unfold ICECAST_SOURCE_PASSWORD in *; simpl in *.
  all: lazymatch goal with
       | H : strict_eq _ _ || strict_eq _ _ = true |- _ => exists "1"
       | |- _ => exists "0"
       end.
  all: split; [done|split; [auto|]].
  all: split; [|intros (Hf & mp & station & Hmp & Hst & Hp)]; try done.
  all: repeat match goal with H : pending_faults _ = _ |- _ => rewrite H in * end.
  all: simpl in *; simplify_eq; try done.
  all: try (match goal with H : station_by_mount _ _ = _ |- _ => rewrite H in * end;
            simpl in *; simplify_eq).
  all: try (intros _; split; [done|]; eexists _, _; split; [done|];
            match goal with H : station_by_mount _ _ = _ |- _ => rewrite H end;
            split; [done|]; by apply password_matches_spec).
  all: try (apply password_matches_spec in Hp; unfold ICECAST_SOURCE_PASSWORD in Hp;
            simpl in Hp; congruence).
Qed.

(** C10: the hook does not fail closed. A JSON body whose [pass] is [null],
    for the mount of a station whose source password is [NULL], is answered
    with [icecast-auth-user: 1], although no password was presented; the same
    request without the field, or with any string other than the global
    source password, is answered with 0. *)
Theorem icecast_auth_accepts_null_password :
  source_password <$> station_by_mount "radio" (db unprotected) = [None] ∧
  eval (icecast_auth_json (JsString "source") JsNull (JsString "/radio")) unprotected
    = Ok (auth_reply "1") ∧
  eval (icecast_auth_json (JsString "source") JsUndefined (JsString "/radio")) unprotected
    = Ok (auth_reply "0") ∧
  eval (icecast_auth_json (JsString "source") (JsString "") (JsString "/radio")) unprotected
    = Ok (auth_reply "0").
Proof. vm_compute. repeat split; reflexivity. Qed.

(** *** The fallback source credential *)

Lemma dj_query_no_match mp pass d :
  (∀ dj, dj ∈ station_djs d → Some (stream_password dj) ≠ pass) → dj_query mp pass d = [].
Proof.
  intros Hno. unfold dj_query.
  destruct (filter _ _) as [|row rows] eqn:Hrows; [done|].
  assert (row ∈ filter (dj_matches mp pass)
            (dj ← station_djs d; s ← audio_stations d; [(dj, s)])) as Hin
    by (rewrite Hrows; left).
  apply list_elem_of_filter in Hin as [(_ & _ & Hpass & _) Hin].
  apply list_elem_of_bind in Hin as (dj & Hin & Hdj).
  apply list_elem_of_bind in Hin as (st & Hin & _).
  apply list_elem_of_singleton in Hin. subst row. by destruct (Hno dj).
Qed.

(** C9: a connection attempt that presents the fallback source password,
    which no DJ uses as a personal password, is accepted by the DJ hook with
    200 OK and changes neither registry nor triggers any process action: no
    Auto DJ is stopped and no live DJ connection is recorded. On the mount of
    a station the source authentication hook accepts it as well, also without
    touching the registries. *)
Theorem fallback_credential_is_not_a_live_dj (s : state) (mount : string)
    (user : option string) :
  (∀ dj, dj ∈ station_djs (db s) → stream_password dj ≠ ICECAST_SOURCE_PASSWORD s) →
  head (faults s) ≠ Some true →
  let pass := Some (ICECAST_SOURCE_PASSWORD s) in
  let s1 := exec (auth_dj (Some mount) user pass) s in
  let s2 := exec (icecast_auth user pass (Some mount)) s in
  eval (auth_dj (Some mount) user pass) s = Ok ok_response ∧
  autoDJProcesses s1 = autoDJProcesses s ∧
  liveDJConnections s1 = liveDJConnections s ∧
  actions s1 = actions s ∧
  (station_by_mount (strip_leading_slash mount) (db s) ≠ [] →
   eval (icecast_auth user pass (Some mount)) s = Ok (auth_reply "1")) ∧
  autoDJProcesses s2 = autoDJProcesses s ∧
  liveDJConnections s2 = liveDJConnections s ∧
  actions s2 = actions s.
Proof.
  intros Hdistinct Hf. cbv zeta.
  assert (dj_query (replace_first "/" "" mount) (Some (ICECAST_SOURCE_PASSWORD s)) (db s) = [])
    as Hq by (apply dj_query_no_match; intros dj Hdj [=]; by eapply Hdistinct).
  pose proof (wp_run (auth_dj (Some mount) user (Some (ICECAST_SOURCE_PASSWORD s)))
    (λ r s', r = Ok ok_response ∧ autoDJProcesses s' = autoDJProcesses s ∧
             liveDJConnections s' = liveDJConnections s ∧ actions s' = actions s) s) as H1.
  pose proof (wp_run (icecast_auth user (Some (ICECAST_SOURCE_PASSWORD s)) (Some mount))
    (λ r s', (station_by_mount (strip_leading_slash mount) (db s) ≠ [] →
              r = Ok (auth_reply "1")) ∧
             autoDJProcesses s' = autoDJProcesses s ∧
             liveDJConnections s' = liveDJConnections s ∧ actions s' = actions s) s) as H2.
  cbv beta in H1, H2.
  destruct H1 as (? & ? & ? & ?); [|destruct H2 as (? & ? & ? & ?); [|done]].
  - unfold auth_dj. wp_go; faults_absurd.
    all: unfold ICECAST_SOURCE_PASSWORD in *; simpl in *; done.
  - unfold icecast_auth, icecast_auth_json, text. wp_go; faults_absurd.
    all: unfold ICECAST_SOURCE_PASSWORD in *; simpl in *; try done.
    all: split; [|done]; intros _.
    all: apply orb_false_iff in Heqb as [_ Hb].
    all: by rewrite bool_decide_eq_true_2 in Hb.
Qed.

Lemma fallback_credential_is_not_a_live_dj_witness :
  let pass := Some "streaming_source_123" in
  let s1 := exec (auth_dj (Some "/radio") (Some "source") pass) playing in
  let s2 := exec (icecast_auth (Some "source") pass (Some "/radio")) playing in
  eval (auth_dj (Some "/radio") (Some "source") pass) playing = Ok ok_response ∧
  autoDJProcesses s1 = autoDJProcesses playing ∧
  liveDJConnections s1 = liveDJConnections playing ∧
  actions s1 = actions playing ∧
  (station_by_mount (strip_leading_slash "/radio") (db playing) ≠ [] →
   eval (icecast_auth (Some "source") pass (Some "/radio")) playing = Ok (auth_reply "1")) ∧
  autoDJProcesses s2 = autoDJProcesses playing ∧
  liveDJConnections s2 = liveDJConnections playing ∧
  actions s2 = actions playing.
Proof.
  apply (fallback_credential_is_not_a_live_dj playing "/radio" (Some "source")).
  - intros dj Hdj. vm_compute in Hdj. apply list_elem_of_singleton in Hdj. subst dj.
    vm_compute. discriminate.
  - vm_compute. discriminate.
Defined.

(** The password of the station itself is not the fallback of the DJ hook:
    only the source authentication hook accepts it. *)
Example station_password_at_both_hooks :
  eval (auth_dj (Some "/radio") (Some "source") (Some "cmc_0123456789ab")) playing
  = Ok {| http_status := 401; headers := []; http_body := Text "Unauthorized" |} ∧
  eval (icecast_auth (Some "source") (Some "cmc_0123456789ab") (Some "/radio")) playing
  = Ok (auth_reply "1").
Proof. vm_compute. split; reflexivity. Qed.

(** *** Live connect and the Auto DJ *)

(** C2 (amended): when a DJ credential is accepted for a station whose
    [auto_dj_enabled] flag is set and whose Auto DJ is running, the process is
    sent SIGTERM and its handle is removed from the registry before the live
    connection is recorded; without failures the reply is 200 OK. *)
Theorem live_connect_stops_enabled_auto_dj (s : state) (m : string)
    (user pass : option string) (dj : dj_row * station_row)
    (rest : list (dj_row * station_row)) (pid : nat) :
  head (faults s) ≠ Some true →
  dj_query (replace_first "/" "" m) pass (db s) = dj :: rest →
  auto_dj_enabled dj.2 = true →
  autoDJProcesses s !! station_id dj.2 = Some pid →
  let s' := exec (auth_dj (Some m) user pass) s in
  let c := {| stationId := station_id dj.2; djId := dj_id dj.1 |} in
  autoDJProcesses s' = delete (station_id dj.2) (autoDJProcesses s) ∧
  liveDJConnections s' = <[m := c]> (liveDJConnections s) ∧
  actions s' = actions s ++ [Kill pid; ProcDelete (station_id dj.2); LiveSet m c] ∧
  (faults s = [] → eval (auth_dj (Some m) user pass) s = Ok ok_response).
Proof.
  intros Hf Hq Hen Hp. cbv zeta.
  apply (wp_run (auth_dj (Some m) user pass)
    (λ r s', autoDJProcesses s' = delete (station_id dj.2) (autoDJProcesses s) ∧
             liveDJConnections s' = _ ∧ actions s' = _ ∧ (faults s = [] → r = _))).
  unfold auth_dj, stopAutoDJ. wp_go; faults_absurd.
  all: repeat match goal with
         | H : dj_query _ _ _ = _, H' : dj_query _ _ _ = _ |- _ => rewrite H in H'
         end; simplify_eq.
  all: rewrite <- ?app_assoc; simpl; try done.
  all: split; [done|split; [done|split; [done|intros ?; congruence]]].
Qed.

(** C2, as stated, fails: the Auto DJ of a station whose [auto_dj_enabled]
    flag was cleared while it was playing keeps running when a DJ connects. *)
Lemma live_connect_keeps_disabled_auto_dj :
  ¬ live_connect_preempts disabled_running (Some "/radio") (Some "source") (Some "djpass").
Proof.
  intros H.
  specialize (H "/radio" (sample_dj, disabled_station) [] eq_refl).
  assert (true = false) as Habs; [|discriminate Habs].
  apply H; vm_compute; reflexivity.
Qed.

Lemma live_connect_stops_enabled_auto_dj_witness :
  let s' := exec (auth_dj (Some "/radio") (Some "source") (Some "djpass")) playing in
  let c := {| stationId := "s1"; djId := "d1" |} in
  autoDJProcesses s' = delete "s1" (autoDJProcesses playing) ∧
  liveDJConnections s' = <["/radio" := c]> (liveDJConnections playing) ∧
  actions s' = actions playing ++ [Kill 0%nat; ProcDelete "s1"; LiveSet "/radio" c] ∧
  (faults playing = [] →
   eval (auth_dj (Some "/radio") (Some "source") (Some "djpass")) playing = Ok ok_response).
Proof.
  apply (live_connect_stops_enabled_auto_dj playing "/radio" (Some "source") (Some "djpass")
           (sample_dj, sample_station) [] 0%nat).
  - vm_compute. discriminate.
  - vm_compute. reflexivity.
  - reflexivity.
  - vm_compute. reflexivity.
Defined.

(** *** The restart after a disconnect *)

Lemma isRunning_procs s s' id :
  autoDJProcesses s' = autoDJProcesses s → isRunning s' id = isRunning s id.
Proof. unfold isRunning. by intros ->. Qed.

(** *** Mutual exclusion *)

#[local] Instance shrinks_preorder : PreOrder shrinks.
Proof.
  split.
  - intros s. by split.
  - intros s1 s2 s3 [? ?] [? ?]. split; by etrans.
Qed.

#[local] Instance may_start_preorder id : PreOrder (may_start id).
Proof.
  split.
  - intros s. split; [done|by left].
  - intros s1 s2 s3 [Hl1 Hp1] [Hl2 Hp2]. split; [congruence|].
    destruct Hp2 as [->|[pid ->]]; [done|]. right.
    destruct Hp1 as [->|[pid' ->]]; [eauto|]. exists pid. apply insert_insert_eq.
Qed.






(** A start request is not needed to have an Auto DJ process next to a live
    connection: the Auto DJ that a DJ connection stops exits, and its exit
    handler restarts it five seconds later. *)
Example restart_after_preemption :
  let s := run sample_boot [PostStart "s1" "u1" "user"; dj_connects; ProcessExit 0;
                            Advance 5000; TimerFire 1] in
  isRunning s "s1" = true ∧ hasLiveDJ s "s1" = true.
Proof. vm_compute. split; reflexivity. Qed.
End OrchestratorFacts.

(** ** Runs without failures *)

Lemma wp_external_call_ok {S} `{Faulty S} what (Q : result unit → S → Prop) s :
  faults s = [] → Q (Ok tt) s → wp (external_call what) Q s.
Proof. intros Hf HQ. unfold wp, external_call. by rewrite Hf. Qed.

(** One step of a run in which no external call fails. *)
Ltac wp_ok_step :=
  lazymatch goal with
  | |- wp (external_call _) _ _ => apply wp_external_call_ok; [simpl; assumption|]
  | |- _ => wp_step
  end; cbv beta iota.

(** ** Tasks *)

Section TaskFacts.
Import Orchestrator Interleaving.

Lemma seg_mono {A} R (t : task A) (K K' : result A → state → state → Prop) s0 s :
  (∀ r a b, K r a b → K' r a b) → seg R t K s0 s → seg R t K' s0 s.
Proof.
  intros HK. revert s0 s.
  induction t as [r|X m k IH|t IH|m t IH]; intros s0 s; simpl.
  - apply HK.
  - unfold wp. apply IH.
  - intros [H1 H2]. split; [done|]. intros s1. apply IH, H2.
  - intros [H1 H2]. split; [done|]. apply IH, H2.
Qed.

Lemma seg_bind {A B} R (t : task A) (f : A → task B) K s0 s :
  seg R t (λ r s0' s', match r with
                       | Ok a => seg R (f a) K s0' s'
                       | Thrown e => K (Thrown e) s0' s'
                       end) s0 s →
  seg R (t ≫= f) K s0 s.
Proof.
  unfold mbind, task_bind. revert s0 s.
  induction t as [r|X m k IH|t IH|m t IH]; intros s0 s; simpl.
  - by destruct r.
  - unfold wp. apply IH.
  - intros [H1 H2]. split; [done|]. intros s1. apply IH, H2.
  - intros [H1 H2]. split; [done|]. apply IH, H2.
Qed.

Lemma seg_try {A} R (t : task A) (h : string → task A) K s0 s :
  seg R t (λ r s0' s', match r with
                       | Ok a => K (Ok a) s0' s'
                       | Thrown e => seg R (h e) K s0' s'
                       end) s0 s →
  seg R (try_task t h) K s0 s.
Proof.
  revert s0 s.
  induction t as [r|X m k IH|t IH|m t IH]; intros s0 s; simpl.
  - by destruct r.
  - unfold wp. apply IH.
  - intros [H1 H2]. split; [done|]. intros s1. apply IH, H2.
  - intros [H1 H2]. split; [done|]. apply IH, H2.
Qed.

Lemma seg_await_call {A} R (t : task A) K s0 s :
  seg R t (λ r s0' s', R s0' s' ∧ ∀ s1, K r s1 s1) s0 s →
  seg R (await_call t) K s0 s.
Proof.
  revert s0 s.
  induction t as [r|X m k IH|t IH|m t IH]; intros s0 s; simpl.
  - done.
  - unfold wp. apply IH.
  - intros [H1 H2]. split; [done|]. intros s1. apply IH, H2.
  - intros [H1 H2]. split; [done|]. apply IH, H2.
Qed.

Lemma seg_ret {A} R (a : A) (K : result A → state → state → Prop) s0 s :
  K (Ok a) s0 s → seg R (mret a) K s0 s.
Proof. done. Qed.

Lemma seg_raise {A} R e (K : result A → state → state → Prop) s0 s :
  K (Thrown e) s0 s → seg R (raise e) K s0 s.
Proof. done. Qed.

Lemma seg_lift {A} R (m : prog state A) K s0 s :
  wp m (λ r s', K r s0 s') s → seg R (lift m) K s0 s.
Proof. done. Qed.

Lemma seg_await {A} R R' (m : prog state A) K s0 s :
  R s0 s → stays R' m → (∀ a b, R' a b → R a b) → (∀ r s1, K r s1 s1) →
  seg R (await m) K s0 s.
Proof.
  intros H0 Hm HR HK. simpl. split; [done|]. intros s1. unfold wp. simpl.
  split; [apply HR, Hm|]. intros s2. apply HK.
Qed.

Lemma seg_detach R (m : prog state unit) R' (K : result unit → state → state → Prop) s0 s :
  stays R' m → (∀ a b, R' a b → R a b) → K (Ok tt) s0 s → seg R (detach m) K s0 s.
Proof. intros Hm HR HK. simpl. split; [|done]. intros s1. apply HR, Hm. Qed.

(** What [seg] says about one turn of the event loop. *)
Lemma seg_advance {A} R (t : task A) K s0 s :
  seg R t K s0 s →
  Forall (λ m, ∀ s1, R s1 (m s1).2) (advance t s).1.2 ∧
  match (advance t s).1.1 with
  | Done r => K r s0 (advance t s).2
  | Yield t' => R s0 (advance t s).2 ∧ ∀ s1, seg R t' K s1 s1
  | _ => False
  end.
Proof.
  revert s0 s.
  induction t as [r|X m k IH|t IH|m t IH]; intros s0 s; simpl.
  - by split.
  - unfold wp. apply IH.
  - by split.
  - intros [H1 H2]. specialize (IH s0 s H2).
    destruct (advance t s) as [[t2 ds] s']. simpl in *.
    destruct IH as [IH1 IH2]. split; [by constructor|done].
Qed.

Lemma advance_attached {A} (t : task A) s : attached t → (advance t s).1.2 = [].
Proof.
  revert s. induction t as [r|X m k IH|t IH|m t IH]; intros s; simpl; try done.
  intros Hk. apply IH, Hk.
Qed.

Lemma attached_bind {A B} (t : task A) (f : A → task B) :
  attached t → (∀ a, attached (f a)) → attached (t ≫= f).
Proof.
  unfold mbind, task_bind. intros Ht Hf.
  induction t as [r|X m k IH|t IH|m t IH]; simpl in *; try done.
  - by destruct r.
  - intros r. apply IH, Ht.
  - by apply IH.
Qed.

Lemma attached_try {A} (t : task A) (h : string → task A) :
  attached t → (∀ e, attached (h e)) → attached (try_task t h).
Proof.
  intros Ht Hf.
  induction t as [r|X m k IH|t IH|m t IH]; simpl in *; try done.
  - by destruct r.
  - intros r. apply IH, Ht.
  - by apply IH.
Qed.

Lemma attached_await_call {A} (t : task A) : attached t → attached (await_call t).
Proof.
  intros Ht. induction t as [r|X m k IH|t IH|m t IH]; simpl in *; try done.
  - intros r. apply IH, Ht.
  - by apply IH.
Qed.

(** *** Uninterrupted runs *)

Lemma same_runs_bind {A B} (t : task A) (f : A → task B) (m : prog state A)
    (k : A → prog state B) :
  same_runs t m → (∀ a, same_runs (f a) (k a)) → same_runs (t ≫= f) (m ≫= k).
Proof.
  unfold same_runs. intros Ht Hf s.
  unfold mbind, task_bind, prog_bind, bind. rewrite <- Ht. clear Ht. revert s.
  induction t as [r|X m' k' IH|t IH|m' t IH]; intros s; simpl; try done.
  destruct r; [apply Hf|done].
Qed.

Lemma same_runs_try {A} (t : task A) (h : string → task A) (m : prog state A) h' :
  same_runs t m → (∀ e, same_runs (h e) (h' e)) → same_runs (try_task t h) (try_catch m h').
Proof.
  unfold same_runs. intros Ht Hh s. unfold try_catch. rewrite <- Ht. clear Ht. revert s.
  induction t as [r|X m' k' IH|t IH|m' t IH]; intros s; simpl; try done.
  destruct r; [done|apply Hh].
Qed.

Lemma same_runs_ret {A} (a : A) : same_runs (mret a) (mret a).
Proof. done. Qed.

Lemma same_runs_raise {A} e : same_runs (raise e) (throw e : prog state A).
Proof. done. Qed.

Lemma same_runs_lift {A} (m : prog state A) : same_runs (lift m) m.
Proof. intros s. simpl. by destruct (m s). Qed.

Lemma same_runs_await {A} (m : prog state A) : same_runs (await m) m.
Proof. intros s. simpl. by destruct (m s). Qed.

Lemma same_runs_detach (m : prog state unit) :
  same_runs (detach (try_catch m (λ _, mret tt))) (try_catch m (λ _, mret tt)).
Proof. intros s. simpl. unfold try_catch. by destruct (m s) as [[[]|e] s']. Qed.

Lemma same_runs_await_call {A} (t : task A) (m : prog state A) :
  same_runs t m → same_runs (await_call t) m.
Proof.
  unfold same_runs. intros Ht s. rewrite <- Ht. clear Ht. revert s.
  induction t as [r|X m' k' IH|t IH|m' t IH]; intros s; simpl; done.
Qed.

Lemma same_runs_pause {A} (t : task A) (m : prog state A) :
  same_runs t m → same_runs (await (mret tt);; t) m.
Proof. intros Ht s. apply Ht. Qed.
End TaskFacts.

(** Decomposes a goal [same_runs t m] along the common structure of the task
    and of the program. *)
Ltac same_runs_step :=
  lazymatch goal with
  | |- Interleaving.same_runs (Interleaving.await (mret tt) ≫= _) _ =>
      apply same_runs_pause
  | |- Interleaving.same_runs (_ ≫= _) (_ ≫= _) => apply same_runs_bind; [|intros ?]
  | |- Interleaving.same_runs (Interleaving.try_task _ _) (try_catch _ _) =>
      apply same_runs_try; [|intros ?]
  | |- Interleaving.same_runs (mret _) _ => apply same_runs_ret
  | |- Interleaving.same_runs (Interleaving.raise _) _ => apply same_runs_raise
  | |- Interleaving.same_runs (Interleaving.lift _) _ => apply same_runs_lift
  | |- Interleaving.same_runs (Interleaving.await _) _ => apply same_runs_await
  | |- Interleaving.same_runs (Interleaving.await_call _) _ => apply same_runs_await_call
  | |- Interleaving.same_runs (Interleaving.detach _) _ => apply same_runs_detach
  | |- Interleaving.same_runs (match ?x with _ => _ end) _ => destruct x
  | |- Interleaving.same_runs (let _ := _ in _) _ => cbv zeta
  end.

Section Uninterrupted.
Import Orchestrator Interleaving.

Lemma startAutoDJ_uninterrupted id : same_runs (startAutoDJ_task id) (startAutoDJ id).
Proof. unfold startAutoDJ_task, startAutoDJ. repeat same_runs_step. Qed.

Lemma on_exit_uninterrupted pid : same_runs (on_exit_task pid) (on_exit pid).
Proof. unfold on_exit_task, on_exit. repeat same_runs_step. Qed.

Lemma run_timer_uninterrupted cb : same_runs (run_timer_task cb) (run_timer cb).
Proof.
  unfold run_timer_task, run_timer.
  repeat first [same_runs_step | apply startAutoDJ_uninterrupted].
Qed.

Lemma fire_uninterrupted i : same_runs (fire_task i) (fire i).
Proof.
  unfold fire_task, fire. repeat first [same_runs_step | apply run_timer_uninterrupted].
Qed.

Lemma checkStationAccess_uninterrupted id u r :
  same_runs (checkStationAccess_task id u r) (checkStationAccess id u r).
Proof. unfold checkStationAccess_task, checkStationAccess. repeat same_runs_step. Qed.

Lemma killIcecastMount_uninterrupted mp :
  same_runs (killIcecastMount_task mp) (killIcecastMount mp).
Proof. unfold killIcecastMount_task, killIcecastMount. repeat same_runs_step. Qed.

Lemma stopIcecastForStation_uninterrupted id :
  same_runs (stopIcecastForStation_task id) (stopIcecastForStation id).
Proof. unfold stopIcecastForStation_task, stopIcecastForStation. repeat same_runs_step. Qed.

Ltac same_runs_go :=
  repeat first
    [ same_runs_step
    | apply checkStationAccess_uninterrupted
    | apply startAutoDJ_uninterrupted
    | apply killIcecastMount_uninterrupted
    | apply stopIcecastForStation_uninterrupted ].

Lemma post_start_uninterrupted id u r : same_runs (post_start_task id u r) (post_start id u r).
Proof. unfold post_start_task, post_start. same_runs_go. Qed.

Lemma post_stop_uninterrupted id u r : same_runs (post_stop_task id u r) (post_stop id u r).
Proof. unfold post_stop_task, post_stop. same_runs_go. Qed.

Lemma put_station_uninterrupted id u r upd :
  same_runs (put_station_task id u r upd) (put_station id u r upd).
Proof. unfold put_station_task, put_station. same_runs_go. Qed.

Lemma delete_station_uninterrupted id r :
  same_runs (delete_station_task id r) (delete_station id r).
Proof. unfold delete_station_task, delete_station. same_runs_go. Qed.

Lemma auth_dj_uninterrupted m u p : same_runs (auth_dj_task m u p) (auth_dj m u p).
Proof. unfold auth_dj_task, auth_dj. same_runs_go. Qed.

Lemma dj_disconnect_uninterrupted m : same_runs (dj_disconnect_task m) (dj_disconnect m).
Proof. unfold dj_disconnect_task, dj_disconnect. same_runs_go. Qed.

Lemma icecast_auth_uninterrupted u p m :
  same_runs (icecast_auth_task u p m) (icecast_auth_json u p m).
Proof. unfold icecast_auth_task, icecast_auth_json. same_runs_go. Qed.

(** Every handler of [Orchestrator] is its task run without interruption. *)
Lemma handle_uninterrupted e : same_runs (handle_task e) (handle e).
Proof.
  destruct e; unfold handle_task, handle.
  all: repeat first
    [ same_runs_step
    | apply post_start_uninterrupted | apply post_stop_uninterrupted
    | apply put_station_uninterrupted | apply delete_station_uninterrupted
    | apply auth_dj_uninterrupted | apply dj_disconnect_uninterrupted
    | apply icecast_auth_uninterrupted | apply on_exit_uninterrupted
    | apply fire_uninterrupted ].
Qed.
End Uninterrupted.

(** ** Mutual exclusion under interleaving *)

Ltac attached_step :=
  lazymatch goal with
  | |- Interleaving.attached (_ ≫= _) => apply attached_bind; [|intros ?]
  | |- Interleaving.attached (Interleaving.try_task _ _) => apply attached_try; [|intros ?]
  | |- Interleaving.attached (Interleaving.await_call _) => apply attached_await_call
  | |- Interleaving.attached (match ?x with _ => _ end) => destruct x
  | |- Interleaving.attached (let _ := _ in _) => cbv zeta
  | |- Interleaving.attached _ => by simpl
  end.

Ltac seg_step :=
  lazymatch goal with
  | |- Interleaving.seg _ (_ ≫= _) _ _ _ => apply seg_bind
  | |- Interleaving.seg _ (Interleaving.try_task _ _) _ _ _ => apply seg_try
  | |- Interleaving.seg _ (mret _) _ _ _ => apply seg_ret
  | |- Interleaving.seg _ (Interleaving.raise _) _ _ _ => apply seg_raise
  | |- Interleaving.seg _ (Interleaving.lift _) _ _ _ => apply seg_lift
  | |- Interleaving.seg _ (match ?x with _ => _ end) _ _ _ => destruct x eqn:?
  | |- Interleaving.seg _ (let _ := _ in _) _ _ _ => cbv zeta
  end; cbv beta iota.

Section Interleaved.
Import Orchestrator Interleaving.

#[local] Instance registries_kept_preorder : PreOrder registries_kept.
Proof.
  split.
  - intros s. by repeat split.
  - intros s1 s2 s3 (? & ? & ?) (? & ? & ?). repeat split; congruence.
Qed.

#[local] Existing Instance shrinks_preorder.

Lemma quiet_app tr1 tr2 : quiet tr1 → quiet tr2 → quiet (tr1 ++ tr2).
Proof. apply Forall_app_2. Qed.

#[local] Instance quiet_shrinks_preorder : PreOrder quiet_shrinks.
Proof.
  split.
  - intros s. split; [done|]. exists []. split; [by rewrite app_nil_r|constructor].
  - intros s1 s2 s3 [H1 (tr1 & Ha1 & Hq1)] [H2 (tr2 & Ha2 & Hq2)].
    split; [by etrans|]. exists (tr1 ++ tr2).
    split; [by rewrite Ha2, Ha1, app_assoc|by apply quiet_app].
Qed.

Lemma registries_kept_quiet s s' : registries_kept s s' → quiet_shrinks s s'.
Proof.
  intros (Hp & Hl & Ha). split; [split; by rewrite ?Hp, ?Hl|].
  exists []. split; [by rewrite app_nil_r|constructor].
Qed.

Lemma quiet_delta s s' : quiet_shrinks s s' → delta s s'.
Proof. by left. Qed.

Lemma registries_kept_delta s s' : registries_kept s s' → delta s s'.
Proof. intros H. by apply quiet_delta, registries_kept_quiet. Qed.

Lemma delta_refl s : delta s s.
Proof. by apply registries_kept_delta. Qed.

(** A call that is awaited or detached touches neither the registries nor
    the log. *)
Ltac kept_go :=
  unfold query, db_exec;
  repeat stays_step;
  try (by repeat split).

Lemma query_kept {A} (f : database → A) : stays registries_kept (query f).
Proof. kept_go. Qed.

Lemma db_exec_kept f : stays registries_kept (db_exec f).
Proof. kept_go. Qed.

Lemma external_call_kept what : stays registries_kept (external_call what : prog state unit).
Proof. kept_go. Qed.

Lemma db_exec_caught_kept f :
  stays registries_kept (try_catch (db_exec f) (λ _, mret tt)).
Proof. kept_go. Qed.

Lemma ret_kept {A} (a : A) : stays registries_kept (mret a : prog state A).
Proof. kept_go. Qed.

Lemma seg_await_kept {A} (m : prog state A) K s0 s :
  delta s0 s → stays registries_kept m → (∀ r s1, K r s1 s1) →
  seg delta (await m) K s0 s.
Proof.
  intros H0 Hm HK. eapply seg_await; [done|exact Hm|apply registries_kept_delta|done].
Qed.

Ltac seg_prim := unfold query, db_exec, log, respond, setTimeout, spawn_ffmpeg, stopAutoDJ.

Ltac seg_await_step :=
  lazymatch goal with
  | |- seg _ (await _) _ _ _ =>
      apply seg_await_kept;
      [ | first [apply query_kept | apply db_exec_kept | apply external_call_kept
                | apply ret_kept]
        | intros [?|?] ? ]
  end; cbv beta iota.

(** The state is the result of synchronous code that only removes registry
    entries. *)
Ltac quiet_comp :=
  first
    [ apply registries_kept_quiet; by repeat split
    | split;
      [ split; simpl; first [done | apply delete_subseteq]
      | eexists; split; [simpl; rewrite <- ?app_assoc; simpl; reflexivity
                        |by repeat constructor] ] ].

Ltac quiet_side :=
  simpl;
  first
    [ assumption
    | quiet_comp
    | match goal with
      | H : quiet_shrinks ?a _ |- quiet_shrinks ?a _ =>
          etrans; [exact H|]; first [assumption | quiet_comp]
      end ].

(** The turn that ends here is of one of the four kinds. *)
Ltac delta_side :=
  simpl;
  first
    [ assumption
    | apply quiet_delta; quiet_side
    | right; left; eexists _, _, _, _;
      split; [rewrite <- ?app_assoc; simpl; reflexivity|done]
    | right; right; left; eexists _, _;
      split; [rewrite <- ?app_assoc; simpl; reflexivity|done]
    | right; right; right; eexists _, {| stationId := _; djId := _ |}, _;
      split; [rewrite <- ?app_assoc; simpl; reflexivity|done] ].

Ltac seg_done HK := first [apply HK; quiet_side | quiet_side | delta_side].

Lemma startAutoDJ_tame id K s0 s :
  quiet_shrinks s0 s →
  (∀ r a b, quiet_shrinks a b → K r a b) →
  seg delta (startAutoDJ_task id) K s0 s.
Proof.
  intros H0 HK. unfold startAutoDJ_task.
  repeat first [seg_step | seg_await_step | wp_step | progress seg_prim].
  all: seg_done HK.
Qed.

Lemma checkStationAccess_tame id u r K s0 s :
  quiet_shrinks s0 s →
  (∀ r a b, quiet_shrinks a b → K r a b) →
  seg delta (checkStationAccess_task id u r) K s0 s.
Proof.
  intros H0 HK. unfold checkStationAccess_task.
  repeat first [seg_step | seg_await_step | wp_step | progress seg_prim].
  all: seg_done HK.
Qed.

Lemma killIcecastMount_tame mp K s0 s :
  quiet_shrinks s0 s →
  (∀ r a b, quiet_shrinks a b → K r a b) →
  seg delta (killIcecastMount_task mp) K s0 s.
Proof.
  intros H0 HK. unfold killIcecastMount_task.
  repeat first [seg_step | seg_await_step | wp_step | progress seg_prim].
  all: seg_done HK.
Qed.

Lemma stopIcecastForStation_tame id K s0 s :
  quiet_shrinks s0 s →
  (∀ r a b, quiet_shrinks a b → K r a b) →
  seg delta (stopIcecastForStation_task id) K s0 s.
Proof.
  intros H0 HK. unfold stopIcecastForStation_task.
  repeat first [seg_step | seg_await_step | wp_step | progress seg_prim].
  all: seg_done HK.
Qed.

Ltac seg_call :=
  lazymatch goal with
  | |- seg _ (startAutoDJ_task _) _ _ _ => apply startAutoDJ_tame
  | |- seg _ (checkStationAccess_task _ _ _) _ _ _ => apply checkStationAccess_tame
  | |- seg _ (killIcecastMount_task _) _ _ _ => apply killIcecastMount_tame
  | |- seg _ (stopIcecastForStation_task _) _ _ _ => apply stopIcecastForStation_tame
  end; [|intros [?|?] ? ? ?; cbv beta iota].

Ltac seg_await_call :=
  lazymatch goal with
  | |- seg _ (await_call _) _ _ _ =>
      apply seg_await_call; seg_call;
      [ | split; [by apply quiet_delta|intros ?] .. ]
  end.

Ltac seg_run :=
  repeat first
    [seg_await_call | seg_call | seg_step | seg_await_step | wp_step | progress seg_prim].

Lemma run_timer_tame cb K s0 s :
  quiet_shrinks s0 s →
  (∀ r a b, quiet_shrinks a b → K r a b) →
  seg delta (run_timer_task cb) K s0 s.
Proof.
  intros H0 HK. unfold run_timer_task. seg_run.
  all: seg_done HK.
Qed.

Lemma on_exit_tame pid s : seg delta (on_exit_task pid) (λ _, delta) s s.
Proof.
  unfold on_exit_task.
  repeat first
    [ seg_step
    | eapply seg_detach; [apply db_exec_caught_kept|apply registries_kept_delta|]
    | wp_step | progress seg_prim ].
  all: delta_side.
Qed.

Lemma fire_tame i s : seg delta (fire_task i) (λ _, delta) s s.
Proof.
  unfold fire_task.
  repeat first
    [ apply run_timer_tame; [|intros [?|?] ? ? ?; cbv beta iota]
    | seg_step | wp_step | progress seg_prim ].
  all: first [quiet_side | delta_side].
Qed.

Lemma post_start_tame id u r s :
  seg delta (post_start_task id u r ≫= λ _, mret tt) (λ _, delta) s s.
Proof. unfold post_start_task. seg_run. all: first [quiet_side | delta_side]. Qed.

Lemma put_station_tame id u r upd s :
  seg delta (put_station_task id u r upd ≫= λ _, mret tt) (λ _, delta) s s.
Proof. unfold put_station_task. seg_run. all: first [quiet_side | delta_side]. Qed.

Lemma delete_station_tame id r s :
  seg delta (delete_station_task id r ≫= λ _, mret tt) (λ _, delta) s s.
Proof. unfold delete_station_task. seg_run. all: first [quiet_side | delta_side]. Qed.

Lemma dj_disconnect_tame m s :
  seg delta (dj_disconnect_task m ≫= λ _, mret tt) (λ _, delta) s s.
Proof. unfold dj_disconnect_task. seg_run. all: first [quiet_side | delta_side]. Qed.

Lemma icecast_auth_tame u p m s :
  seg delta (icecast_auth_task u p m ≫= λ _, mret tt) (λ _, delta) s s.
Proof. unfold icecast_auth_task. seg_run. all: first [quiet_side | delta_side]. Qed.

Lemma auth_dj_tame m u p s :
  seg delta (auth_dj_task m u p ≫= λ _, mret tt) (λ _, delta) s s.
Proof. unfold auth_dj_task. seg_run. all: first [quiet_side | delta_side]. Qed.

Lemma forget_loop_quiet id (entries : list (string * connection)) :
  stays quiet_shrinks
    (for_of entries (λ entry,
       if decide (stationId entry.2 = id) then
         modify (λ s, with_live (delete entry.1 (liveDJConnections s)) s);;
         log (LiveDelete entry.1)
       else mret tt)).
Proof.
  apply stays_for_of; [apply _|]. intros entry.
  destruct (decide (stationId entry.2 = id)); [|by apply stays_ret; apply _].
  intros s. unfold log, modify, mbind, prog_bind, bind. simpl.
  split; [split; simpl; [done|apply delete_subseteq]|].
  eexists. split; [reflexivity|by repeat constructor].
Qed.

Lemma post_stop_tame id u r s :
  seg delta (post_stop_task id u r ≫= λ _, mret tt) (λ _, delta) s s.
Proof.
  unfold post_stop_task.
  repeat first
    [ seg_await_call | seg_call | seg_step | seg_await_step
    | lazymatch goal with
      | |- wp (for_of _ _) _ _ =>
          eapply wp_stays; [apply forget_loop_quiet|intros [?|?] ? ?; cbv beta iota]
      end
    | wp_step | progress seg_prim ].
  all: first [quiet_side | delta_side].
Qed.

(** Every turn of every handler is of one of the four kinds. *)
Lemma handle_task_tame e s : seg delta (handle_task e) (λ _, delta) s s.
Proof.
  destruct e; unfold handle_task.
  - apply post_start_tame.
  - apply post_stop_tame.
  - apply put_station_tame.
  - apply delete_station_tame.
  - apply auth_dj_tame.
  - apply dj_disconnect_tame.
  - apply icecast_auth_tame.
  - apply on_exit_tame.
  - apply fire_tame.
  - apply seg_lift, wp_modify. apply registries_kept_delta. by repeat split.
  - apply seg_lift, wp_modify. apply registries_kept_delta. by repeat split.
Qed.

Lemma performed_app s s' tr : actions s' = actions s ++ tr → performed s s' = tr.
Proof. unfold performed. intros ->. apply drop_app_length. Qed.


Lemma detached_tame m : (∀ s1, delta s1 (m s1).2) → tame (detached m).
Proof. intros Hm s1. simpl. unfold wp. apply Hm. Qed.

(** One turn of the event loop on a task whose turns are of the four
    kinds. *)
Lemma turn_tame (t t' : task unit) ds s s' pend :
  seg delta t (λ _, delta) s s → advance t s = (t', ds, s') →
  Forall tame pend →
  delta s s' ∧ Forall tame (pend ++ t' :: (detached <$> ds)) ∧
  (∀ i, Forall tame (<[i := t']> pend ++ (detached <$> ds))).
Proof.
  intros Hseg Hadv Hpend. apply seg_advance in Hseg. rewrite Hadv in Hseg. simpl in Hseg.
  destruct Hseg as [Hds Ht'].
  assert (Forall tame (detached <$> ds)) as Hds'.
  { apply Forall_fmap. eapply Forall_impl; [exact Hds|]. intros m. apply detached_tame. }
  assert (delta s s' ∧ tame t') as [Hd Ht].
  { destruct t' as [r|X m k|t''|m t'']; first [done | by destruct Ht']. }
  split; [done|]. split.
  - apply Forall_app_2; [done|by constructor].
  - intros i. apply Forall_app_2; [|done]. by apply Forall_insert.
Qed.

Lemma launch_tame e w :
  Forall tame (pending w) →
  delta (mem w) (mem (launch (handle_task e) w)) ∧
  Forall tame (pending (launch (handle_task e) w)).
Proof.
  intros Hp. unfold launch.
  destruct (advance (handle_task e) (mem w)) as [[t' ds] s'] eqn:Hadv. simpl.
  destruct (turn_tame _ _ _ _ _ _ (handle_task_tame e (mem w)) Hadv Hp) as (? & ? & _).
  by split.
Qed.

Lemma resume_tame i w :
  Forall tame (pending w) →
  delta (mem w) (mem (resume i w)) ∧ Forall tame (pending (resume i w)).
Proof.
  intros Hp. unfold resume.
  destruct (pending w !! i) as [t|] eqn:Hi; [|by split; [apply delta_refl|]].
  destruct t as [r|X m k|t|m t]; try (by split; [apply delta_refl|]).
  assert (tame (Yield t)) as Ht.
  { eapply Forall_lookup_1; [exact Hp|exact Hi]. }
  destruct (advance t (mem w)) as [[t' ds] s'] eqn:Hadv. simpl.
  destruct (turn_tame _ _ _ _ _ _ (Ht (mem w)) Hadv Hp) as (? & _ & ?).
  by split.
Qed.

Lemma play1_tame w mv :
  Forall tame (pending w) →
  delta (mem w) (mem (play1 w mv)) ∧ Forall tame (pending (play1 w mv)).
Proof. destruct mv; [apply launch_tame|apply resume_tame]. Qed.




(** It also fails when the start is requested first: no live connection is
    registered when [startAutoDJ] checks the process registry, and no process
    when the DJ is accepted; the process is registered two awaits later, next
    to the connection. *)
Example start_races_with_accept :
  let checking := mem (play (idle sample_boot) (take 3 race)) in
  let accepting := mem (play (idle sample_boot) (take 6 race)) in
  let final := mem (play (idle sample_boot) race) in
  hasLiveDJ checking "s1" = false ∧ isRunning checking "s1" = false ∧
  isRunning accepting "s1" = false ∧
  isRunning final "s1" = true ∧ hasLiveDJ final "s1" = true ∧
  ¬ guarded_play (idle sample_boot) race.
Proof.
  cbv zeta. repeat split; try (vm_compute; reflexivity).
  apply (bool_decide_eq_false_1 _). vm_compute. reflexivity.
Qed.

Lemma play_tame s mvs : Forall tame (pending (play (idle s) mvs)).
Proof.
  assert (∀ w, Forall tame (pending w) → Forall tame (pending (play w mvs))) as H.
  { induction mvs as [|mv mvs IH]; intros w Hp; [done|].
    simpl. apply IH. by apply play1_tame. }
  apply H. constructor.
Qed.

Lemma quiet_guarded s s' : quiet_shrinks s s' → guarded s s'.
Proof.
  intros [_ (tr & Ha & Hq)]. unfold guarded. rewrite (performed_app _ _ _ Ha).
  eapply Forall_impl; [exact Hq|]. intros a Hq'. by destruct a.
Qed.

(** The two conditions are needed: a turn of a handler that does not meet
    them ends in a state in which a station has both an Auto DJ process and a
    live connection. *)
Lemma unguarded_turn_breaks_mutex s mvs mv :
  let w := play (idle s) mvs in
  ¬ guarded (mem w) (mem (play1 w mv)) → ¬ mutex (mem (play1 w mv)).
Proof.
  cbv zeta. set (w := play (idle s) mvs). intros Hg.
  destruct (play1_tame w mv (play_tame s mvs)) as [Hd _].
  rewrite mutex_apart.
  destruct Hd as [Hq|[(id & files & pid & mount & Ha & Hp & Hl)|
                      [(m & c & Ha & Hp & Hl)|(m & c & pid & Ha & Hp & Hl)]]].
  - destruct Hg. by apply quiet_guarded.
  - destruct (hasLiveDJ (mem w) id) eqn:Hlive.
    + apply hasLiveDJ_true in Hlive as (m & c & Hm & Hc). intros Hap.
      specialize (Hap m c). rewrite Hl, Hp, Hc, lookup_insert_eq in Hap.
      by specialize (Hap Hm).
    + destruct Hg. unfold guarded. rewrite (performed_app _ _ _ Ha).
      by repeat constructor.
  - destruct (isRunning (mem w) (stationId c)) eqn:Hrun.
    + apply isRunning_true in Hrun as [pid Hpid]. intros Hap.
      specialize (Hap m c). rewrite Hl, Hp, lookup_insert_eq, Hpid in Hap.
      by specialize (Hap eq_refl).
    + destruct Hg. unfold guarded. rewrite (performed_app _ _ _ Ha).
      apply Forall_cons. split; [by left|constructor].
  - destruct Hg. unfold guarded. rewrite (performed_app _ _ _ Ha).
    apply Forall_cons. split; [done|]. apply Forall_cons. split; [done|].
    apply Forall_cons. split; [|constructor].
    right. apply list_elem_of_further, list_elem_of_here.
Qed.

(** *** Runs in which the handlers do not overlap *)

Lemma play_app w mvs1 mvs2 : play w (mvs1 ++ mvs2) = play (play w mvs1) mvs2.
Proof. apply foldl_app. Qed.

(** A suspended task that detaches no call can be resumed until it ends; the
    state is then the one reached by the task run without interruption. *)
Lemma finish_attached (t : task unit) :
  attached t →
  ∀ s pend i, (i < length pend)%nat →
    ∃ mvs, mem (play {| mem := (advance t s).2;
                        pending := <[i := (advance t s).1.1]> pend |} mvs)
           = (run_task t s).2.
Proof.
  induction t as [r|X m k IH|t IH|m t IH]; intros Ha s pend i Hi; simpl in *.
  - by exists [].
  - apply IH; [apply Ha|done].
  - destruct (IH Ha s (<[i := Yield t]> pend) i) as [mvs Hmvs].
    { by rewrite length_insert. }
    exists (Resume i :: mvs). simpl. unfold resume. simpl.
    rewrite list_lookup_insert_eq by done.
    destruct (advance t s) as [[t' ds] s'] eqn:Hadv.
    pose proof (advance_attached t s Ha) as Hds. rewrite Hadv in Hds. simpl in *.
    subst ds. simpl. rewrite app_nil_r. rewrite list_insert_insert_eq in Hmvs |- *.
    exact Hmvs.
  - done.
Qed.

Lemma launch_attached (t : task unit) w :
  attached t → ∃ mvs, mem (play (launch t w) mvs) = (run_task t (mem w)).2.
Proof.
  intros Ha.
  destruct (finish_attached t Ha (mem w) (pending w ++ [Done (Ok tt)]) (length (pending w)))
    as [mvs Hmvs].
  { rewrite length_app. simpl. lia. }
  exists mvs. rewrite <- Hmvs. unfold launch.
  pose proof (advance_attached t (mem w) Ha) as Hds.
  destruct (advance t (mem w)) as [[t' ds] s']. simpl in *. subst ds. simpl.
  by rewrite insert_app_r_alt, Nat.sub_diag by done.
Qed.

Lemma startAutoDJ_attached id : attached (startAutoDJ_task id).
Proof. unfold startAutoDJ_task. repeat attached_step. Qed.

Lemma checkStationAccess_attached id u r : attached (checkStationAccess_task id u r).
Proof. unfold checkStationAccess_task. repeat attached_step. Qed.

Ltac attached_go :=
  repeat first
    [ apply startAutoDJ_attached | apply checkStationAccess_attached
    | progress unfold killIcecastMount_task, stopIcecastForStation_task, run_timer_task
    | attached_step ].

(** Only the exit handler detaches calls. *)
Lemma handle_task_attached e :
  (∀ pid, e ≠ ProcessExit pid) → attached (handle_task e).
Proof.
  intros He. destruct e; unfold handle_task; [..|by destruct (He pid)| | |].
  all: unfold post_start_task, post_stop_task, put_station_task, delete_station_task,
         auth_dj_task, dj_disconnect_task, icecast_auth_task, fire_task.
  all: attached_go.
Qed.

Lemma resume_detached w i m :
  pending w !! i = Some (detached m) →
  resume i w = {| mem := (m (mem w)).2; pending := <[i := Done (Ok tt)]> (pending w) |}.
Proof. intros Hi. unfold resume. rewrite Hi. simpl. by rewrite app_nil_r. Qed.

Lemma on_exit_is_play w pid :
  ∃ mvs, mem (play w mvs) = step (mem w) (ProcessExit pid).
Proof.
  unfold step, handle, exec, on_exit.
  destruct (alive (mem w) !! pid) as [id|] eqn:Ho.
  - exists [Begin (ProcessExit pid); Resume (S (length (pending w)));
            Resume (S (S (length (pending w))))].
    simpl. unfold launch, on_exit_task. simpl. rewrite Ho. simpl.
    rewrite (resume_detached _ (S (length (pending w)))
               (try_catch (db_exec (clear_now_playing id)) (λ _, mret tt))).
    2:{ simpl. rewrite lookup_app_r by lia.
        by replace (S (length (pending w)) - length (pending w))%nat with 1%nat by lia. }
    rewrite (resume_detached _ (S (S (length (pending w))))
               (try_catch (db_exec (append_history id)) (λ _, mret tt))).
    2:{ simpl. rewrite list_lookup_insert_ne by lia. rewrite lookup_app_r by lia.
        by replace (S (S (length (pending w))) - length (pending w))%nat with 2%nat by lia. }
    simpl. unfold mbind, prog_bind, bind, gets. simpl. rewrite Ho. simpl.
    unfold try_catch, db_exec, external_call, modify, setTimeout, mbind, prog_bind, bind.
    simpl.
    destruct (pending_faults (mem w)) as [|[] fs] eqn:Hf; simpl; rewrite ?Hf; simpl.
    all: try destruct fs as [|[] fs]; simpl; reflexivity.
  - exists []. simpl. unfold mbind, prog_bind, bind, gets. simpl. by rewrite Ho.
Qed.

Lemma step_is_play w e : ∃ mvs, mem (play w mvs) = step (mem w) e.
Proof.
  assert ((∃ pid, e = ProcessExit pid) ∨ ∀ pid, e ≠ ProcessExit pid) as [[pid ->]|He].
  { destruct e; eauto. }
  - apply on_exit_is_play.
  - destruct (launch_attached (handle_task e) w) as [mvs Hmvs].
    { by apply handle_task_attached. }
    exists (Begin e :: mvs). simpl. rewrite Hmvs.
    unfold step, exec. by rewrite handle_uninterrupted.
Qed.

(** Every run of [Orchestrator], in which each handler completes before the
    next event is taken, is a run of the event loop. *)
Lemma run_is_play s es : ∃ mvs, mem (play (idle s) mvs) = run s es.
Proof.
  assert (∀ w, ∃ mvs, mem (play w mvs) = run (mem w) es) as H; [|apply (H (idle s))].
  induction es as [|e es IH]; intros w; [by exists []|].
  destruct (step_is_play w e) as [mvs1 H1].
  destruct (IH (play w mvs1)) as [mvs2 H2].
  exists (mvs1 ++ mvs2). rewrite play_app, H2, H1. done.
Qed.

(** *** The restart after a disconnect *)

Lemma query_unfailing {A} (f : database → A) s :
  faults s = [] → query f s = (Ok (f (db s)), s).
Proof.
  intros Hf. unfold query, external_call, mbind, prog_bind, bind. by rewrite Hf.
Qed.

Lemma external_call_unfailing what (s : state) :
  faults s = [] → external_call what s = (Ok tt, s).
Proof. intros Hf. unfold external_call. by rewrite Hf. Qed.

(** C3 (amended): when the restart scheduled by a disconnect fires,
    [startAutoDJ] looks at the process registry once, at that moment. If a
    process is registered for the station, nothing happens. Otherwise, and if
    no call fails, it waits for two queries: when the station is missing or
    its [auto_dj_enabled] flag is off at the first, or it has no tracks at the
    second, nothing is started; else the process is spawned and registered
    when the second result is delivered, in whatever state the service is by
    then. Neither registry is read again, and the live connections are never
    consulted. ([advance t s] is the turn that a task [t] takes when it is
    started or resumed in the state [s]: what is left of the task, the calls
    it detached and the state at the end of the turn.) *)
Theorem restart_checks_process_registry_once (s : state) (i : nat) (t : timer)
    (id : string) :
  timers s !! i = Some t → callback t = RestartAfterDisconnect id → due t ≤ clock s →
  let fired := with_timers (delete i (timers s)) s in
  if isRunning s id then advance (fire_task i) s = (Done (Ok tt), [], fired)
  else
    ∃ t1, advance (fire_task i) s = (Yield t1, [], fired) ∧
    ∀ s1, faults s1 = [] →
    ∃ t2, advance t1 s1 = (Yield t2, [], s1) ∧
    ∀ s2,
      match station_by_id id (db s1) with
      | station :: _ =>
          if auto_dj_enabled station then
            ∃ t3, advance t2 s2 = (Yield t3, [], s2) ∧
            ∀ s3, faults s3 = [] →
            ∃ t4, advance t3 s3 = (Yield t4, [], s3) ∧
            ∀ s4, faults s4 = [] →
              match tracks_query id (auto_dj_playlist_id station) (db s3) with
              | firstTrack :: rest =>
                  ∃ t5 s5, advance t4 s4 = (Yield t5, [], s5) ∧
                           started id station (firstTrack :: rest) s4 s5
              | [] => advance t4 s4 = (Done (Ok tt), [], s4)
              end
          else advance t2 s2 = (Done (Ok tt), [], s2)
      | [] => advance t2 s2 = (Done (Ok tt), [], s2)
      end.
Proof.
  intros Ht Hcb Hdue. cbv zeta.
  unfold fire_task. simpl. rewrite Ht. simpl.
  destruct (decide (due t ≤ clock s)) as [_|]; [|done]. simpl.
  rewrite Hcb. simpl. unfold startAutoDJ_task. simpl.
  rewrite (isRunning_procs s (with_timers (delete i (timers s)) s)) by done.
  destruct (isRunning s id); [done|]. simpl.
  eexists. split; [reflexivity|]. intros s1 Hf1. simpl.
  rewrite (query_unfailing _ s1 Hf1). simpl.
  eexists. split; [reflexivity|]. intros s2.
  destruct (station_by_id id (db s1)) as [|station rows]; simpl; [done|].
  destruct (auto_dj_enabled station); simpl; [|done].
  eexists. split; [reflexivity|]. intros s3 Hf3. simpl.
  rewrite (query_unfailing _ s3 Hf3). simpl.
  eexists. split; [reflexivity|]. intros s4 Hf4.
  destruct (tracks_query id (auto_dj_playlist_id station) (db s3)) as [|firstTrack rest];
    simpl; [done|].
  rewrite (external_call_unfailing _ s4 Hf4). simpl.
  eexists _, _. split; [reflexivity|].
  unfold started. simpl. rewrite <- !app_assoc. by repeat split.
Qed.

(** C3, as stated, fails: a DJ reconnects before the restart scheduled by the
    disconnect fires; the restart then starts the Auto DJ although the live
    connection is registered. *)
Lemma restart_ignores_live_connection :
  ¬ restart_aborts_when_live (mem (play (idle sample_boot) reconnection)) 1.
Proof.
  intros H.
  specialize (H {| due := 2000; callback := RestartAfterDisconnect "s1" |} "s1").
  assert (true = false) as Habs; [|discriminate Habs].
  apply (H ltac:(vm_compute; reflexivity) eq_refl ltac:(vm_compute; discriminate)
           ltac:(vm_compute; reflexivity) 4%nat).
Qed.

(** The state of this run is the one reached when the same events are handled
    one after the other. *)
Example reconnection_reaches : mem (play (idle sample_boot) reconnection) = reconnected.
Proof. vm_compute. reflexivity. Qed.

Lemma restart_checks_process_registry_once_witness :
  let s := mem (play (idle sample_boot) reconnection) in
  let fired := with_timers (delete 1%nat (timers s)) s in
  if isRunning s "s1" then advance (fire_task 1) s = (Done (Ok tt), [], fired)
  else
    ∃ t1, advance (fire_task 1) s = (Yield t1, [], fired) ∧
    ∀ s1, faults s1 = [] →
    ∃ t2, advance t1 s1 = (Yield t2, [], s1) ∧
    ∀ s2,
      match station_by_id "s1" (db s1) with
      | station :: _ =>
          if auto_dj_enabled station then
            ∃ t3, advance t2 s2 = (Yield t3, [], s2) ∧
            ∀ s3, faults s3 = [] →
            ∃ t4, advance t3 s3 = (Yield t4, [], s3) ∧
            ∀ s4, faults s4 = [] →
              match tracks_query "s1" (auto_dj_playlist_id station) (db s3) with
              | firstTrack :: rest =>
                  ∃ t5 s5, advance t4 s4 = (Yield t5, [], s5) ∧
                           started "s1" station (firstTrack :: rest) s4 s5
              | [] => advance t4 s4 = (Done (Ok tt), [], s4)
              end
          else advance t2 s2 = (Done (Ok tt), [], s2)
      | [] => advance t2 s2 = (Done (Ok tt), [], s2)
      end.
Proof.
  apply (restart_checks_process_registry_once (mem (play (idle sample_boot) reconnection))
           1%nat {| due := 2000; callback := RestartAfterDisconnect "s1" |} "s1").
  - vm_compute. reflexivity.
  - reflexivity.
  - vm_compute. discriminate.
Defined.
End Interleaved.

(** ** The supervisor and the hooks: further properties *)

Section SupervisorFacts.
Import Orchestrator Observations.

Ltac wp_prim := unfold query, db_exec, log, respond, setTimeout.
Ltac wp_go := repeat (first [wp_step | progress wp_prim]).
Ltac faults_absurd :=
  simpl in *;
  try match goal with
      | H : head (pending_faults ?x) ≠ Some true, H' : pending_faults ?x = true :: _ |- _ =>
          exfalso; apply H; by rewrite H'
      end;
  try congruence.
Ltac stays_prim :=
  unfold query, db_exec, log, respond, setTimeout, checkStationAccess, killIcecastMount,
    stopIcecastForStation, stopAutoDJ, spawn_ffmpeg.
Ltac stays_go := repeat (first [stays_step | progress stays_prim]).

#[local] Instance untouched_preorder : PreOrder untouched.
Proof.
  split.
  - intros s. by repeat split.
  - intros s1 s2 s3 H1 H2. unfold untouched in *.
    destruct H1 as (?&?&?&?&?&?&?&?&?), H2 as (?&?&?&?&?&?&?&?&?).
    repeat split; congruence.
Qed.

#[local] Instance nothing_started_preorder : PreOrder nothing_started.
Proof.
  split.
  - intros s. by repeat split.
  - intros s1 s2 s3 H1 H2. unfold nothing_started in *.
    destruct H1 as (?&?&?&?&?&?), H2 as (?&?&?&?&?&?). repeat split; congruence.
Qed.

(** X1: stopping the Auto DJ is idempotent. After a stop the station has no
    registered process and a second stop changes nothing; stopping a station
    that is not running changes nothing at all; a running process gets exactly
    one SIGTERM. *)
Theorem stopAutoDJ_idempotent (s : state) (id : string) :
  let s1 := exec (stopAutoDJ id) s in
  isRunning s1 id = false ∧
  stopAutoDJ id s1 = (Ok tt, s1) ∧
  match autoDJProcesses s !! id with
  | Some pid => actions s1 = actions s ++ [Kill pid; ProcDelete id]
  | None => stopAutoDJ id s = (Ok tt, s)
  end.
Proof.
  cbv zeta. unfold stopAutoDJ, exec, isRunning, mbind, prog_bind, bind, gets, modify, log.
  simpl. destruct (autoDJProcesses s !! id) as [pid|] eqn:Hp; simpl.
  - rewrite lookup_delete_eq. split; [|split].
    + apply bool_decide_eq_false. by intros [? ?].
    + done.
    + by rewrite <- app_assoc.
  - rewrite Hp. split; [|done]. apply bool_decide_eq_false. by intros [? ?].
Qed.
Ltac wp_ok := repeat (first [wp_ok_step | progress wp_prim]).

Lemma startable_inv d id station tracks :
  head (station_by_id id d) = Some station → auto_dj_enabled station = true →
  tracks_query id (auto_dj_playlist_id station) d = tracks → tracks ≠ [] →
  startable d id.
Proof. intros ? ? <- ?. by exists station. Qed.

(** X2: [startAutoDJ] fails fast. When the station is already running, or
    does not exist, or has its Auto DJ disabled, or has no track to play, no
    process is spawned or registered, nothing is written to the database, and
    no playlist file is written, whatever external call fails. *)
Theorem startAutoDJ_fails_fast (s : state) (id : string) :
  isRunning s id = true ∨ ¬ startable (db s) id →
  nothing_started s (exec (startAutoDJ id) s).
Proof.
  intros Hno. apply (wp_exec (startAutoDJ id) (nothing_started s)).
  unfold startAutoDJ, spawn_ffmpeg. wp_go; simpl in *.
  all: try (by repeat split).
  all: destruct Hno as [?|Hno]; [congruence|]; exfalso; apply Hno.
  all: eapply startable_inv; [by erewrite Heql| |done|done].
  all: by apply negb_false_iff.
Qed.

Lemma startAutoDJ_fails_fast_witness :
  nothing_started disabled_running (exec (startAutoDJ "s1") disabled_running).
Proof.
  apply (startAutoDJ_fails_fast disabled_running "s1"). left. vm_compute. reflexivity.
Defined.

(** X3: a successful start. Without failures, for a station that is not
    running, exists, has its Auto DJ enabled and has tracks, [startAutoDJ]
    writes the playlist file, spawns one process, registers it for the station
    and stores the first track as now playing, not live. *)
Theorem startAutoDJ_starts (s : state) (id : string) (station : station_row)
    (track : track_row) (rest : list track_row) :
  faults s = [] → isRunning s id = false →
  head (station_by_id id (db s)) = Some station →
  auto_dj_enabled station = true →
  tracks_query id (auto_dj_playlist_id station) (db s) = track :: rest →
  let s' := exec (startAutoDJ id) s in
  let pid := next_pid s in
  eval (startAutoDJ id) s = Ok tt ∧
  autoDJProcesses s' = <[id := pid]> (autoDJProcesses s) ∧
  alive s' = <[pid := id]> (alive s) ∧
  next_pid s' = S pid ∧
  liveDJConnections s' = liveDJConnections s ∧
  actions s' = actions s ++
    [WritePlaylist id (file_path <$> track :: rest); Spawn pid id (mount_point station);
     ProcSet id pid] ∧
  now_playing (db s') !! id =
    Some {| np_track_id := Some (track_id track);
            np_dj_id := now_playing (db s) !! id ≫= np_dj_id;
            np_is_live := false; np_updated_at := clock s |}.
Proof.
  intros Hf Hrun Hst Hen Htr. cbv zeta. simpl in Hf.
  apply (wp_run (startAutoDJ id)
    (λ r s', r = Ok tt ∧ autoDJProcesses s' = _ ∧ alive s' = _ ∧ next_pid s' = _ ∧
             liveDJConnections s' = _ ∧ actions s' = _ ∧ now_playing (db s') !! id = _)).
  unfold startAutoDJ, spawn_ffmpeg. wp_ok; simpl in *; simplify_eq.
  all: try (rewrite Hen in *; simpl in *; congruence).
  all: try congruence.
  rewrite Htr in *. simplify_eq.
  rewrite lookup_insert_eq, <- !app_assoc. simpl. by repeat split.
Qed.

Lemma startAutoDJ_starts_witness :
  let s' := exec (startAutoDJ "s1") sample_boot in
  eval (startAutoDJ "s1") sample_boot = Ok tt ∧
  autoDJProcesses s' = <["s1" := 0%nat]> (autoDJProcesses sample_boot) ∧
  alive s' = <[0%nat := "s1"]> (alive sample_boot) ∧
  next_pid s' = 1%nat ∧
  liveDJConnections s' = liveDJConnections sample_boot ∧
  actions s' = actions sample_boot ++
    [WritePlaylist "s1" ["/storage/a.mp3"; "/storage/b.mp3"]; Spawn 0 "s1" "radio";
     ProcSet "s1" 0] ∧
  now_playing (db s') !! "s1" =
    Some {| np_track_id := Some "t1";
            np_dj_id := now_playing (db sample_boot) !! "s1" ≫= np_dj_id;
            np_is_live := false; np_updated_at := 0 |}.
Proof.
  apply (startAutoDJ_starts sample_boot "s1" sample_station
           {| track_id := "t1"; file_path := "/storage/a.mp3" |}
           [ {| track_id := "t2"; file_path := "/storage/b.mp3" |} ]).
  - reflexivity.
  - vm_compute. reflexivity.
  - vm_compute. reflexivity.
  - reflexivity.
  - vm_compute. reflexivity.
Defined.
#[local] Instance by_position_total : Total by_position.
Proof. intros a b. unfold by_position. lia. Qed.

#[local] Instance by_position_trans : Transitive by_position.
Proof. intros a b c. unfold by_position. lia. Qed.

Lemma joined_tracks_elem sid pl d pos t :
  (pos, t) ∈ joined_tracks sid pl d ↔
  ∃ pt p, pt ∈ playlist_tracks d ∧ position pt = pos ∧
          t ∈ audio_tracks d ∧ track_id t = pt_track_id pt ∧
          p ∈ station_playlists d ∧ playlist_selected sid pl pt p.
Proof.
  unfold joined_tracks. rewrite list_elem_of_bind. split.
  - intros (pt & Hin & Hpt). apply list_elem_of_bind in Hin as (t' & Hin & Ht').
    apply list_elem_of_bind in Hin as (p & Hin & Hp).
    apply list_elem_of_singleton in Hin. simplify_eq.
    apply list_elem_of_filter in Ht' as [? ?]. apply list_elem_of_filter in Hp as [? ?].
    by exists pt, p.
  - intros (pt & p & Hpt & <- & Ht & Hid & Hp & Hsel). exists pt. split; [|done].
    apply list_elem_of_bind. exists t. split; [|by apply list_elem_of_filter].
    apply list_elem_of_bind. exists p. split; [by left|by apply list_elem_of_filter].
Qed.

Lemma StronglySorted_positions (rows : list (Z * track_row)) :
  StronglySorted by_position rows → StronglySorted Z.le (rows.*1).
Proof.
  induction 1 as [|r rows Hs IH Hall]; simpl; constructor; [done|].
  apply Forall_fmap. eapply Forall_impl; [exact Hall|]. by intros r'.
Qed.

(** X4: the track list of [startAutoDJ]. The tracks come ordered by
    non-decreasing playlist position, and a track is listed exactly when it
    is linked by a playlist entry to a playlist of this very station: the
    configured playlist if one is set, the default playlist otherwise. *)
Theorem tracks_query_sorted (sid : string) (pl : option string) (d : database) :
  ∃ rows : list (Z * track_row),
    tracks_query sid pl d = rows.*2 ∧
    StronglySorted Z.le (rows.*1) ∧
    ∀ pos t,
      (pos, t) ∈ rows ↔
      ∃ pt p, pt ∈ playlist_tracks d ∧ position pt = pos ∧
              t ∈ audio_tracks d ∧ track_id t = pt_track_id pt ∧
              p ∈ station_playlists d ∧ playlist_id p = pt_playlist_id pt ∧
              playlist_station_id p = sid ∧
              match chosen_playlist pl with
              | Some i => playlist_id p = i
              | None => is_default p = true
              end.
Proof.
  exists (merge_sort by_position (joined_tracks sid pl d)). split; [done|split].
  - apply StronglySorted_positions, StronglySorted_merge_sort; apply _.
  - intros pos t. rewrite merge_sort_Permutation, joined_tracks_elem.
    unfold playlist_selected. split; intros (pt & p & H); exists pt, p; tauto.
Qed.
Lemma no_access_owned d id user :
  (∀ r, r ∈ audio_stations d → station_id r = id → created_by r ≠ Some user) →
  station_owned id user d = [].
Proof.
  intros Hno. unfold station_owned.
  destruct (filter _ _) as [|r l] eqn:Hf; [done|].
  assert (r ∈ filter (λ r, station_id r = id ∧ created_by r = Some user) (audio_stations d))
    as Hin by (rewrite Hf; left).
  apply list_elem_of_filter in Hin as [[? ?] ?]. by destruct (Hno r).
Qed.

Ltac untouched_side := unfold untouched; simpl; by repeat split.

(** X5: a user who is neither an administrator nor the owner of a station
    cannot start it, stop it or change its settings: each of the three
    requests leaves the database, both registries, the processes and the
    timers as they were, and is answered with 404 unless the lookup itself
    fails. *)
Theorem foreign_user_changes_nothing (s : state) (id user role : string)
    (upd : station_update) :
  role ≠ "admin" →
  (∀ r, r ∈ audio_stations (db s) → station_id r = id → created_by r ≠ Some user) →
  untouched s (exec (post_start id user role) s) ∧
  untouched s (exec (post_stop id user role) s) ∧
  untouched s (exec (put_station id user role upd) s) ∧
  (head (faults s) ≠ Some true →
   eval (post_start id user role) s = Ok not_found ∧
   eval (post_stop id user role) s = Ok not_found ∧
   eval (put_station id user role upd) s = Ok not_found).
Proof.
  intros Hrole Hown. apply no_access_owned in Hown.
  assert (wp (post_start id user role)
            (λ r s', untouched s s' ∧ (head (faults s) ≠ Some true → r = Ok not_found)) s) as H1.
  { unfold post_start, checkStationAccess. rewrite decide_False by done.
    repeat (first [rewrite Hown | wp_step | progress wp_prim | progress simpl]).
    all: try (simpl in *; rewrite ?Hown in *; simpl in *; congruence).
    all: split; [untouched_side|intros Hf; try done].
    all: exfalso; apply Hf; simpl in *; by rewrite H. }
  assert (wp (post_stop id user role)
            (λ r s', untouched s s' ∧ (head (faults s) ≠ Some true → r = Ok not_found)) s) as H2.
  { unfold post_stop, checkStationAccess. rewrite decide_False by done.
    repeat (first [rewrite Hown | wp_step | progress wp_prim | progress simpl]).
    all: try (simpl in *; rewrite ?Hown in *; simpl in *; congruence).
    all: split; [untouched_side|intros Hf; try done].
    all: exfalso; apply Hf; simpl in *; by rewrite H. }
  assert (wp (put_station id user role upd)
            (λ r s', untouched s s' ∧ (head (faults s) ≠ Some true → r = Ok not_found)) s) as H3.
  { unfold put_station, checkStationAccess. rewrite decide_False by done.
    repeat (first [rewrite Hown | wp_step | progress wp_prim | progress simpl]).
    all: try (simpl in *; rewrite ?Hown in *; simpl in *; congruence).
    all: split; [untouched_side|intros Hf; try done].
    all: exfalso; apply Hf; simpl in *; by rewrite H. }
  destruct H1 as [? ?], H2 as [? ?], H3 as [? ?]. unfold eval, exec. auto 10.
Qed.

Lemma foreign_user_changes_nothing_witness :
  untouched playing (exec (post_start "s1" "u2" "user") playing) ∧
  untouched playing (exec (post_stop "s1" "u2" "user") playing) ∧
  untouched playing (exec (put_station "s1" "u2" "user" disable_auto_dj) playing) ∧
  (head (faults playing) ≠ Some true →
   eval (post_start "s1" "u2" "user") playing = Ok not_found ∧
   eval (post_stop "s1" "u2" "user") playing = Ok not_found ∧
   eval (put_station "s1" "u2" "user" disable_auto_dj) playing = Ok not_found).
Proof.
  apply (foreign_user_changes_nothing playing "s1" "u2" "user" disable_auto_dj).
  - discriminate.
  - intros r Hr _. vm_compute in Hr. apply list_elem_of_singleton in Hr. subst r.
    discriminate.
Defined.
(** X6: the exit handler. When a spawned process of a station exits (and no
    database call fails), the station's registry entry is removed, its
    now-playing row is deleted, one [auto_dj] history row is appended and one
    restart is scheduled five seconds later; live connections are not touched.
    An exit of a process that is not alive changes nothing. *)
Theorem on_exit_effects (s : state) (pid : nat) :
  faults s = [] →
  let s' := exec (on_exit pid) s in
  match alive s !! pid with
  | Some id =>
      autoDJProcesses s' = delete id (autoDJProcesses s) ∧
      alive s' = delete pid (alive s) ∧
      liveDJConnections s' = liveDJConnections s ∧
      now_playing (db s') = delete id (now_playing (db s)) ∧
      stream_history (db s') = stream_history (db s) ++
        [ {| history_station_id := id; history_started_at := clock s - 3600000;
             history_ended_at := clock s; history_stream_type := "auto_dj" |} ] ∧
      timers s' = timers s ++ [ {| due := clock s + 5000; callback := RestartAfterExit id |} ] ∧
      actions s' = actions s ++ [ProcDelete id]
  | None => on_exit pid s = (Ok tt, s)
  end.
Proof.
  intros Hf. cbv zeta. simpl in Hf.
  destruct (alive s !! pid) as [id|] eqn:Ha.
  - apply (wp_exec (on_exit pid)
      (λ s', autoDJProcesses s' = _ ∧ alive s' = _ ∧ liveDJConnections s' = _ ∧
             now_playing (db s') = _ ∧ stream_history (db s') = _ ∧ timers s' = _ ∧
             actions s' = _)).
    unfold on_exit. wp_ok; simpl in *; simplify_eq. by repeat split.
  - unfold on_exit, mbind, prog_bind, bind, gets. simpl. by rewrite Ha.
Qed.

Lemma on_exit_effects_witness :
  let s' := exec (on_exit 0) playing in
  autoDJProcesses s' = delete "s1" (autoDJProcesses playing) ∧
  alive s' = delete 0%nat (alive playing) ∧
  liveDJConnections s' = liveDJConnections playing ∧
  now_playing (db s') = delete "s1" (now_playing (db playing)) ∧
  stream_history (db s') = stream_history (db playing) ++
    [ {| history_station_id := "s1"; history_started_at := clock playing - 3600000;
         history_ended_at := clock playing; history_stream_type := "auto_dj" |} ] ∧
  timers s' = timers playing ++
    [ {| due := clock playing + 5000; callback := RestartAfterExit "s1" |} ] ∧
  actions s' = actions playing ++ [ProcDelete "s1"].
Proof. apply (on_exit_effects playing 0%nat). reflexivity. Defined.

(** X7: the restart after an exit respects the settings of that moment. When
    the restart timer of an exit fires and the station has been deleted or its
    Auto DJ disabled in the meantime, the timer is consumed and nothing is
    started: no process, no registry entry, no database write, whatever
    external call fails. *)
Theorem exit_restart_respects_disable (s : state) (i : nat) (t : timer) (id : string) :
  timers s !! i = Some t → callback t = RestartAfterExit id → due t ≤ clock s →
  (∀ r, head (station_by_id id (db s)) = Some r → auto_dj_enabled r = false) →
  let s' := exec (fire i) s in
  nothing_started s s' ∧ timers s' = delete i (timers s).
Proof.
  intros Ht Hcb Hdue Hoff. cbv zeta.
  apply (wp_exec (fire i) (λ s', nothing_started s s' ∧ timers s' = _)).
  unfold fire. wp_go; simpl in *; simplify_eq; [|exfalso; lia].
  rewrite Hcb. simpl. wp_go; simpl in *.
  all: try (split; [by repeat split|done]).
  all: exfalso.
  all: match goal with H : station_by_id _ _ = ?r :: _ |- _ =>
         specialize (Hoff r); rewrite H in Hoff; specialize (Hoff eq_refl); congruence
       end.
Qed.

Lemma exit_restart_respects_disable_witness :
  let s := run playing [ProcessExit 0; PutStation "s1" "u1" "user" disable_auto_dj;
                        Advance 5000] in
  let s' := exec (fire 1) s in
  nothing_started s s' ∧ timers s' = delete 1%nat (timers s).
Proof.
  apply (exit_restart_respects_disable _ 1%nat
           {| due := 5000; callback := RestartAfterExit "s1" |} "s1").
  - vm_compute. reflexivity.
  - reflexivity.
  - vm_compute. discriminate.
  - intros r Hr. vm_compute in Hr. injection Hr as <-. reflexivity.
Defined.

(** X8: the exit of a replaced process unregisters its successor. The exit
    handler removes the station's registry entry without looking at which
    process it holds: when an older process of the station exits while a newer
    one is registered, the newer one stays alive but the station no longer
    counts as running, whatever external call fails. *)
Theorem late_exit_orphans_successor (s : state) (old new : nat) (id : string) :
  alive s !! old = Some id → alive s !! new = Some id → old ≠ new →
  autoDJProcesses s !! id = Some new →
  let s' := exec (on_exit old) s in
  isRunning s' id = false ∧ orphaned s' new id.
Proof.
  intros Hold Hnew Hne Hreg. cbv zeta.
  apply (wp_exec (on_exit old) (λ s', isRunning s' id = false ∧ orphaned s' new id)).
  unfold on_exit. wp_go; simpl in *; simplify_eq.
  all: unfold isRunning, orphaned; simpl.
  all: rewrite lookup_delete_eq, lookup_delete_ne by done.
  all: split; [apply bool_decide_eq_false; by intros [? ?]|done].
Qed.

Lemma late_exit_orphans_successor_witness :
  let s := run playing [dj_connects; DJDisconnect (Some "/radio"); Advance 2000;
                        TimerFire 1] in
  let s' := exec (on_exit 0) s in
  isRunning s' "s1" = false ∧ orphaned s' 1%nat "s1".
Proof.
  apply (late_exit_orphans_successor _ 0%nat 1%nat "s1").
  - vm_compute. reflexivity.
  - vm_compute. reflexivity.
  - discriminate.
  - vm_compute. reflexivity.
Defined.
(** X9: the disconnect hook. For a mount without a recorded connection (or a
    request without a mount) nothing changes and the answer is 200 OK. For a
    recorded connection (and no failing database call) the connection is
    removed, the station's now-playing row is deleted, and a restart is
    scheduled two seconds later exactly when the station still exists with
    its Auto DJ enabled; the process registry is not touched. *)
Theorem dj_disconnect_effects (s : state) (mount : option string) :
  faults s = [] →
  let s' := exec (dj_disconnect mount) s in
  eval (dj_disconnect mount) s = Ok ok_response ∧
  match recorded s mount with
  | Some (m, c) =>
      liveDJConnections s' = delete m (liveDJConnections s) ∧
      autoDJProcesses s' = autoDJProcesses s ∧
      now_playing (db s') = delete (stationId c) (now_playing (db s)) ∧
      actions s' = actions s ++ [LiveDelete m] ∧
      timers s' = timers s ++
        match head (station_by_id (stationId c) (db s)) with
        | Some r =>
            if auto_dj_enabled r
            then [ {| due := clock s + 2000; callback := RestartAfterDisconnect (stationId c) |} ]
            else []
        | None => []
        end
  | None => s' = s
  end.
Proof.
  intros Hf. cbv zeta. simpl in Hf. unfold recorded.
  destruct mount as [m|]; simpl.
  - destruct (liveDJConnections s !! m) as [c|] eqn:Hc; simpl.
    + apply (wp_run (dj_disconnect (Some m))
        (λ r s', r = Ok ok_response ∧ liveDJConnections s' = _ ∧ autoDJProcesses s' = _ ∧
                 now_playing (db s') = _ ∧ actions s' = _ ∧ timers s' = _)).
      unfold dj_disconnect. wp_ok; simpl in *; simplify_eq.
      all: unfold station_by_id in *; simpl in *; rewrite Heql; simpl.
      all: rewrite ?Heqb, ?app_nil_r; by repeat split.
    + apply (wp_run (dj_disconnect (Some m)) (λ r s', r = Ok ok_response ∧ s' = s)).
      unfold dj_disconnect. wp_ok; simpl in *; simplify_eq. done.
  - apply (wp_run (dj_disconnect None) (λ r s', r = Ok ok_response ∧ s' = s)).
    unfold dj_disconnect. wp_ok; simpl in *; simplify_eq. done.
Qed.

Lemma dj_disconnect_effects_witness :
  let s := run playing [dj_connects] in
  let s' := exec (dj_disconnect (Some "/radio")) s in
  eval (dj_disconnect (Some "/radio")) s = Ok ok_response ∧
  liveDJConnections s' = delete "/radio" (liveDJConnections s) ∧
  autoDJProcesses s' = autoDJProcesses s ∧
  now_playing (db s') = delete "s1" (now_playing (db s)) ∧
  actions s' = actions s ++ [LiveDelete "/radio"] ∧
  timers s' = timers s ++
    [ {| due := clock s + 2000; callback := RestartAfterDisconnect "s1" |} ].
Proof.
  apply (dj_disconnect_effects (run playing [dj_connects]) (Some "/radio")). reflexivity.
Defined.

Lemma dj_query_refused mp pass d :
  (∀ dj st, dj ∈ station_djs d → st ∈ audio_stations d →
            Some (stream_password dj) = pass → dj_station_id dj = station_id st →
            mount_point st = mp → dj_is_active dj = false ∨ can_stream dj = false) →
  dj_query mp pass d = [].
Proof.
  intros Hno. unfold dj_query.
  destruct (filter _ _) as [|row rows] eqn:Hrows; [done|].
  assert (row ∈ filter (dj_matches mp pass)
            (dj ← station_djs d; s ← audio_stations d; [(dj, s)])) as Hin
    by (rewrite Hrows; left).
  apply list_elem_of_filter in Hin as [(Hst & Hmp & Hpass & Hact & Hcan) Hin].
  apply list_elem_of_bind in Hin as (dj & Hin & Hdj).
  apply list_elem_of_bind in Hin as (st & Hin & Hs).
  apply list_elem_of_singleton in Hin. subst row. simpl in *.
  destruct (Hno dj st) as [?|?]; congruence.
Qed.

(** X10: rejected connections. A connection attempt whose password is not
    the fallback source password, and for which every DJ with that password
    on that mount is inactive or not allowed to stream, is answered with 401
    Unauthorized and leaves everything as it was: no Auto DJ is stopped and no
    connection is recorded. *)
Theorem auth_dj_rejects (s : state) (mount : string) (user pass : option string) :
  head (faults s) ≠ Some true →
  pass ≠ Some (ICECAST_SOURCE_PASSWORD s) →
  (∀ dj st, dj ∈ station_djs (db s) → st ∈ audio_stations (db s) →
            Some (stream_password dj) = pass → dj_station_id dj = station_id st →
            mount_point st = replace_first "/" "" mount →
            dj_is_active dj = false ∨ can_stream dj = false) →
  eval (auth_dj (Some mount) user pass) s =
    Ok {| http_status := 401; headers := []; http_body := Text "Unauthorized" |} ∧
  untouched s (exec (auth_dj (Some mount) user pass) s).
Proof.
  intros Hf Hpass Hno. apply dj_query_refused in Hno.
  apply (wp_run (auth_dj (Some mount) user pass) (λ r s', r = Ok _ ∧ untouched s s')).
  unfold auth_dj. wp_go; faults_absurd.
  all: unfold ICECAST_SOURCE_PASSWORD in *; simpl in *; try congruence.
  all: split; [done|untouched_side].
Qed.

Lemma auth_dj_rejects_witness :
  let s := run sample_boot [DbWrite (with_djs
             [ {| dj_id := "d1"; dj_station_id := "s1"; stream_password := "djpass";
                  can_stream := false; dj_is_active := true; last_connected := None |} ]
             sample_db)] in
  eval (auth_dj (Some "/radio") (Some "source") (Some "djpass")) s =
    Ok {| http_status := 401; headers := []; http_body := Text "Unauthorized" |} ∧
  untouched s (exec (auth_dj (Some "/radio") (Some "source") (Some "djpass")) s).
Proof.
  apply (auth_dj_rejects _ "/radio" (Some "source") (Some "djpass")).
  - vm_compute. discriminate.
  - vm_compute. discriminate.
  - intros dj st Hdj _ _ _ _. vm_compute in Hdj.
    apply list_elem_of_singleton in Hdj. subst dj. by right.
Defined.

(** X11: an accepted DJ connection in the database. Without failures, an
    accepted DJ connection stores the DJ as the station's now-playing entry,
    live and without a track, stamps the DJ's last connection with the current
    time, and answers 200 OK. *)
Theorem auth_dj_records_live (s : state) (m : string) (user pass : option string)
    (dj : dj_row * station_row) (rest : list (dj_row * station_row)) :
  faults s = [] →
  dj_query (replace_first "/" "" m) pass (db s) = dj :: rest →
  let s' := exec (auth_dj (Some m) user pass) s in
  eval (auth_dj (Some m) user pass) s = Ok ok_response ∧
  now_playing (db s') !! station_id dj.2 =
    Some {| np_track_id := None; np_dj_id := Some (dj_id dj.1);
            np_is_live := true; np_updated_at := clock s |} ∧
  (∀ j, j ≠ station_id dj.2 → now_playing (db s') !! j = now_playing (db s) !! j) ∧
  Forall2 (λ r r', dj_id r' = dj_id r ∧ stream_password r' = stream_password r ∧
                   last_connected r' = if decide (dj_id r = dj_id dj.1) then Some (clock s)
                                       else last_connected r)
          (station_djs (db s)) (station_djs (db s')).
Proof.
  intros Hf Hq. cbv zeta. simpl in Hf.
  apply (wp_run (auth_dj (Some m) user pass)
    (λ r s', r = Ok ok_response ∧ now_playing (db s') !! _ = _ ∧
             (∀ j, j ≠ station_id dj.2 → now_playing (db s') !! j = _) ∧
             Forall2 _ (station_djs (db s)) (station_djs (db s')))).
  unfold auth_dj, stopAutoDJ. wp_ok; simpl in *; simplify_eq.
  all: rewrite lookup_insert_eq.
  all: split; [done|split; [done|split]].
  all: try (intros j Hj; by rewrite lookup_insert_ne).
  all: apply Forall2_fmap_r, Forall_Forall2_diag, Forall_forall; intros r _.
  all: simpl; destruct (decide (dj_id r = dj_id dj.1)); simpl; by repeat split.
Qed.

Lemma auth_dj_records_live_witness :
  let s' := exec (auth_dj (Some "/radio") (Some "source") (Some "djpass")) playing in
  eval (auth_dj (Some "/radio") (Some "source") (Some "djpass")) playing = Ok ok_response ∧
  now_playing (db s') !! "s1" =
    Some {| np_track_id := None; np_dj_id := Some "d1";
            np_is_live := true; np_updated_at := clock playing |} ∧
  (∀ j, j ≠ "s1" → now_playing (db s') !! j = now_playing (db playing) !! j) ∧
  Forall2 (λ r r', dj_id r' = dj_id r ∧ stream_password r' = stream_password r ∧
                   last_connected r' = if decide (dj_id r = "d1") then Some (clock playing)
                                       else last_connected r)
          (station_djs (db playing)) (station_djs (db s')).
Proof.
  apply (auth_dj_records_live playing "/radio" (Some "source") (Some "djpass")
           (sample_dj, sample_station) []).
  - reflexivity.
  - vm_compute. reflexivity.
Defined.
Lemma wp_for_of_fold {A K} (f : state → K) (g : K → A → K) (R : relation state)
    (body : A → prog state unit) xs (Q : result unit → state → Prop) s :
  PreOrder R →
  (∀ x s0, ∃ s1, body x s0 = (Ok tt, s1) ∧ f s1 = g (f s0) x ∧ R s0 s1) →
  (∀ s1, f s1 = foldl g (f s) xs → R s s1 → Q (Ok tt) s1) →
  wp (for_of xs body) Q s.
Proof.
  intros HR Hb HQ. unfold wp.
  assert (∃ s1, for_of xs body s = (Ok tt, s1) ∧ f s1 = foldl g (f s) xs ∧ R s s1)
    as (s1 & -> & ? & ?); [|by apply HQ].
  clear HQ. revert s. induction xs as [|x xs IH]; intros s; simpl.
  - exists s. by repeat split.
  - destruct (Hb x s) as (s1 & Hs1 & Hf & HR1). unfold bind. rewrite Hs1.
    destruct (IH s1) as (s2 & Hs2 & Hf2 & HR2). exists s2.
    rewrite Hs2, Hf2, Hf. repeat split. by etrans.
Qed.

#[local] Instance only_live_changes_preorder : PreOrder only_live_changes.
Proof.
  split.
  - intros s. by repeat split.
  - intros s1 s2 s3 H1 H2. unfold only_live_changes in *.
    destruct H1 as (?&?&?&?&?&?&?&?), H2 as (?&?&?&?&?&?&?&?).
    repeat split; congruence.
Qed.

Lemma forget_station_lookup id xs L m c :
  foldl (forget_station id) L xs !! m = Some c ↔
  L !! m = Some c ∧ ∀ e, e ∈ xs → e.1 = m → stationId e.2 ≠ id.
Proof.
  revert L. induction xs as [|x xs IH]; intros L; simpl.
  - split; [|tauto]. intros ?. split; [done|]. intros e ?%elem_of_nil. done.
  - rewrite IH. unfold forget_station. setoid_rewrite elem_of_cons.
    destruct (decide (stationId x.2 = id)) as [Hx|Hx].
    + rewrite lookup_delete_Some. split.
      * intros [[? ?] Hxs]. split; [done|]. intros e [->|?] ?; [done|by apply Hxs].
      * intros [? Hxs]. split; [split; [|done]|].
        -- intros Heq. by apply (Hxs x); [left|..].
        -- intros e ? ?. apply Hxs; [by right|done].
    + split.
      * intros [? Hxs]. split; [done|]. intros e [->|?] ?; [done|by apply Hxs].
      * intros [? Hxs]. split; [done|]. intros e ? ?. apply Hxs; [by right|done].
Qed.

Lemma forget_station_all id L m c :
  foldl (forget_station id) L (map_to_list L) !! m = Some c ↔
  L !! m = Some c ∧ stationId c ≠ id.
Proof.
  rewrite forget_station_lookup. split.
  - intros [Hm Hxs]. split; [done|]. apply (Hxs (m, c)); [|done].
    by apply elem_of_map_to_list.
  - intros [Hm Hc]. split; [done|]. intros [m' c'] Hin Heq. simpl in *. subst m'.
    apply elem_of_map_to_list in Hin. by simplify_eq.
Qed.

Lemma has_access_found d id user role :
  has_access d id user role →
  ∃ r, (if decide (role = "admin") then head (station_by_id id d)
        else head (station_owned id user d)) = Some r.
Proof.
  unfold has_access. destruct (decide (role = "admin")).
  - destruct (station_by_id id d) as [|r ?]; [done|]. by exists r.
  - destruct (station_owned id user d) as [|r ?]; [done|]. by exists r.
Qed.

(** X12: a stop request turns the station off. For a user with access to
    the station and without failures, the stop request leaves the station
    without a registered Auto DJ process, without any live connection and
    without a now-playing row, and answers 200; the processes, connections and
    now-playing rows of the other stations are as they were, and so are the
    stations' settings and the timers. *)
Theorem post_stop_turns_station_off (s : state) (id user role : string) :
  faults s = [] → has_access (db s) id user role →
  let s' := exec (post_stop id user role) s in
  eval (post_stop id user role) s = Ok stopped_response ∧
  isRunning s' id = false ∧ hasLiveDJ s' id = false ∧
  now_playing (db s') !! id = None ∧
  others_kept id s s' ∧
  audio_stations (db s') = audio_stations (db s) ∧ timers s' = timers s.
Proof.
  intros Hf Hacc. cbv zeta. simpl in Hf.
  apply has_access_found in Hacc as (r0 & Hacc).
  apply (wp_run (post_stop id user role)
    (λ r s', r = Ok stopped_response ∧ isRunning s' id = false ∧ hasLiveDJ s' id = false ∧
             now_playing (db s') !! id = None ∧ others_kept id s s' ∧
             audio_stations (db s') = audio_stations (db s) ∧ timers s' = timers s)).
  unfold post_stop, checkStationAccess, stopAutoDJ, killIcecastMount.
  repeat (first [wp_ok_step | progress wp_prim
                | lazymatch goal with
                  | |- wp (for_of _ _) _ _ =>
                      apply (wp_for_of_fold liveDJConnections (forget_station id)
                               only_live_changes);
                      [apply _
                      |intros [? ?] ?; unfold forget_station; simpl;
                       match goal with
                       | |- context [decide (stationId ?c = id)] =>
                           destruct (decide (stationId c = id))
                       end;
                       eexists; (split; [reflexivity|split; [reflexivity|by repeat split]])
                      |intros ? Hlive (Henv&Hdb&Hprocs&Halive&Hpid&Htimers&Hclock&Hfl);
                       simpl in *; rewrite Hf in Hfl]
                  end]).
  all: simpl in *; simplify_eq.
  all: try (rewrite Hacc in *; simplify_eq).
  all: try congruence.
  all: rewrite ?Hdb, ?Hclock, ?Htimers.
  all: split; [done|].
  all: split; [apply isRunning_false; simpl; rewrite Hprocs; simpl;
               by rewrite ?lookup_delete_eq|].
  all: split; [apply hasLiveDJ_false; simpl; intros m c Hm; rewrite Hlive in Hm;
               by apply forget_station_all in Hm as [_ ?]|].
  all: split; [simpl; by rewrite lookup_delete_eq|].
  all: split; [|done].
  all: unfold others_kept; simpl; rewrite Hprocs; simpl; split; [|split].
  all: try (intros j Hj; by rewrite ?lookup_delete_ne).
  all: intros m c Hc; rewrite Hlive, forget_station_all; tauto.
Qed.

Lemma post_stop_turns_station_off_witness :
  let s' := exec (post_stop "s1" "u1" "user") reconnected in
  eval (post_stop "s1" "u1" "user") reconnected = Ok stopped_response ∧
  isRunning s' "s1" = false ∧ hasLiveDJ s' "s1" = false ∧
  now_playing (db s') !! "s1" = None ∧
  others_kept "s1" reconnected s' ∧
  audio_stations (db s') = audio_stations (db reconnected) ∧ timers s' = timers reconnected.
Proof.
  apply (post_stop_turns_station_off reconnected "s1" "u1" "user").
  - reflexivity.
  - vm_compute. discriminate.
Defined.

Lemma station_by_id_removed id (l : list station_row) :
  filter (λ r, station_id r = id) (filter (λ r, station_id r ≠ id) l) = [].
Proof.
  induction l as [|r l IH]; [done|]. rewrite (filter_cons _ r).
  destruct (decide (station_id r ≠ id)) as [Hne|Heq]; [|done].
  rewrite filter_cons, decide_False by done. done.
Qed.

Lemma startable_station d id : startable d id → station_by_id id d ≠ [].
Proof. intros (r & Hr & _) Hnil. by rewrite Hnil in Hr. Qed.

(** X13: deleting a station. Only an administrator can delete: for any
    other role the request is answered with 403 and changes nothing. For an
    administrator, without failures, the station's row is removed together
    with its now-playing row, its Auto DJ is stopped, the other stations' rows
    stay, and no pending timer can start the station again since it is no
    longer startable; the live connections, however, are left as they were,
    those of the deleted station included. *)
Theorem delete_station_effects (s : state) (id role : string) :
  faults s = [] →
  let s' := exec (delete_station id role) s in
  if decide (role = "admin") then
    eval (delete_station id role) s = Ok deleted_response ∧
    (∀ r, r ∈ audio_stations (db s') ↔ r ∈ audio_stations (db s) ∧ station_id r ≠ id) ∧
    now_playing (db s') !! id = None ∧
    isRunning s' id = false ∧
    ¬ startable (db s') id ∧
    liveDJConnections s' = liveDJConnections s ∧ timers s' = timers s
  else delete_station id role s = (Ok forbidden_response, s).
Proof.
  intros Hf. cbv zeta. simpl in Hf. destruct (decide (role = "admin")) as [->|Hrole].
  - apply (wp_run (delete_station id "admin")
      (λ r s', r = Ok deleted_response ∧
               (∀ r, r ∈ audio_stations (db s') ↔ r ∈ audio_stations (db s) ∧ station_id r ≠ id) ∧
               now_playing (db s') !! id = None ∧ isRunning s' id = false ∧
               ¬ startable (db s') id ∧
               liveDJConnections s' = liveDJConnections s ∧ timers s' = timers s)).
    unfold delete_station, stopAutoDJ, stopIcecastForStation.
    wp_ok; simpl in *; simplify_eq.
    all: split; [done|].
    all: split; [intros r; by rewrite list_elem_of_filter, (comm and)|].
    all: split; [by rewrite lookup_fmap, lookup_delete_eq|].
    all: split; [apply isRunning_false; simpl; by rewrite ?lookup_delete_eq|].
    all: split; [|done].
    all: intros Hst%startable_station; apply Hst; unfold station_by_id; simpl.
    all: apply station_by_id_removed.
  - unfold delete_station, try_catch. by rewrite decide_True.
Qed.

Lemma delete_station_effects_witness :
  let s' := exec (delete_station "s1" "admin") reconnected in
  eval (delete_station "s1" "admin") reconnected = Ok deleted_response ∧
  (∀ r, r ∈ audio_stations (db s') ↔
        r ∈ audio_stations (db reconnected) ∧ station_id r ≠ "s1") ∧
  now_playing (db s') !! "s1" = None ∧
  isRunning s' "s1" = false ∧
  ¬ startable (db s') "s1" ∧
  liveDJConnections s' = liveDJConnections reconnected ∧ timers s' = timers reconnected.
Proof. apply (delete_station_effects reconnected "s1" "admin"). reflexivity. Defined.



Lemma update_station_flag id upd t d :
  auto_dj_enabled <$> station_by_id id (update_station id upd t d) =
  (λ r, default (auto_dj_enabled r) (new_auto_dj_enabled upd)) <$> station_by_id id d.
Proof.
  unfold station_by_id, update_station. simpl.
  induction (audio_stations d) as [|r l IH]; [done|]. csimpl. rewrite !filter_cons.
  destruct (decide (station_id r = id)) as [Heq|Hne]; simpl.
  - rewrite decide_True by done. csimpl. by rewrite IH.
  - rewrite decide_False by done. done.
Qed.

(** X15: a settings update only writes settings. Whatever it stores and
    whatever fails, the update starts and stops nothing: the process
    registry, the live connections, the processes, the timers and the log of
    actions are as before, so a station whose Auto DJ the update disables
    keeps running; and for a user with access and without failures, the
    station's row has, after the update, the Auto DJ flag of the request if
    the request carries one and the stored flag otherwise. *)
Theorem put_station_only_writes_settings (s : state) (id user role : string)
    (upd : station_update) :
  let s' := exec (put_station id user role upd) s in
  supervisor_untouched s s' ∧
  isRunning s' id = isRunning s id ∧
  (faults s = [] → has_access (db s) id user role →
   auto_dj_enabled <$> station_by_id id (db s') =
   (λ r, default (auto_dj_enabled r) (new_auto_dj_enabled upd)) <$> station_by_id id (db s)).
Proof.
  cbv zeta.
  assert (wp (put_station id user role upd)
            (λ _ s', supervisor_untouched s s' ∧
                     (faults s = [] → has_access (db s) id user role →
                      auto_dj_enabled <$> station_by_id id (db s') =
                      (λ r, default (auto_dj_enabled r) (new_auto_dj_enabled upd))
                        <$> station_by_id id (db s))) s) as [Hsame Hrow].
  { unfold put_station, checkStationAccess.
    wp_go; simpl in *.
    all: split; [by repeat split|].
    all: intros Hf Hacc; try congruence.
    all: try apply update_station_flag.
    all: apply has_access_found in Hacc as (r0 & Hacc); simpl in *.
    all: match goal with
         | H : decide (_ = "admin") = _ |- _ => rewrite H in Hacc
         end.
    all: congruence. }
  split; [done|split; [|done]].
  unfold isRunning, exec. destruct Hsame as (-> & _). done.
Qed.

End SupervisorFacts.

(** ** Stream status reconciliation: further properties *)

Section StreamSyncMore.
Import StreamSync.

Lemma for_of_app {S A} (body : A → prog S unit) xs ys s :
  for_of (xs ++ ys) body s =
  match for_of xs body s with
  | (Ok _, s1) => for_of ys body s1
  | (Thrown e, s1) => (Thrown e, s1)
  end.
Proof.
  revert s. induction xs as [|x xs IH]; intros s; simpl; [done|].
  unfold bind. destruct (body x s) as [[[]|e] s1]; [apply IH|done].
Qed.

Lemma NoDup_set_add x l : NoDup l → NoDup (set_add x l).
Proof.
  intros Hl. unfold set_add, set_has. case_bool_decide; [done|].
  apply NoDup_app. split; [done|split; [|apply NoDup_singleton]].
  intros y Hy ->%list_elem_of_singleton. done.
Qed.

Lemma NoDup_add_all l s : NoDup s → NoDup (foldl (λ s x, set_add x s) s l).
Proof.
  revert s. induction l as [|x l IH]; intros s Hs; simpl; [done|].
  by apply IH, NoDup_set_add.
Qed.

Lemma NoDup_drop_all active l s : NoDup s → NoDup (foldl (drop_ended active) s l).
Proof.
  revert s. induction l as [|x l IH]; intros s Hs; simpl; [done|].
  apply IH. unfold drop_ended. destruct (set_has x active); [done|].
  by apply NoDup_filter.
Qed.

Lemma NoDup_activeStreamKeys d : NoDup (activeStreamKeys d).
Proof. apply NoDup_add_all, NoDup_nil_2. Qed.

Lemma elem_of_activeStreamKeys d k :
  k ∈ activeStreamKeys d ↔
  ∃ st, st ∈ streams d ∧ is_publishing st = true ∧ k = replace_first ".m3u8" "" (name st).
Proof.
  unfold activeStreamKeys, set_of_list. rewrite elem_of_add_all, elem_of_nil, list_elem_of_fmap.
  split.
  - intros [[]|(st & -> & Hst)]. apply list_elem_of_filter in Hst as [? ?]. by exists st.
  - intros (st & Hst & Hp & ->). right. exists st. split; [done|].
    by apply list_elem_of_filter.
Qed.

(** The known set after the two loops of a cycle, in full. *)
Lemma sync_body_known_list d s :
  ∃ s', sync_body d s = (Ok tt, s') ∧
        knownActiveStreams s' =
          let known := foldl (λ s x, set_add x s) (knownActiveStreams s) (activeStreamKeys d) in
          foldl (drop_ended (activeStreamKeys d)) known known.
Proof.
  unfold sync_body. cbv zeta. set (active := activeStreamKeys d).
  unfold mbind at 1, prog_bind at 1, bind at 1.
  match goal with |- context [for_of active ?b s] =>
    destruct (for_of_fold knownActiveStreams (λ s x, set_add x s) b active s)
      as (s1 & -> & Hk1) end.
  { intros x s0. unfold mbind, prog_bind, bind, gets. simpl.
    destruct (set_has x (knownActiveStreams s0)) eqn:Hhas; simpl.
    - exists s0. split; [done|]. unfold set_add. by rewrite Hhas.
    - rewrite handleStreamStart_ok. simpl. eexists. split; [done|]. simpl.
      pose proof (handleStreamStart_known x s0) as Hsame. unfold same in Hsame.
      unfold exec. rewrite Hsame. unfold set_add. by rewrite Hhas. }
  unfold mbind, prog_bind, bind, gets. simpl.
  match goal with |- context [for_of (knownActiveStreams s1) ?b s1] =>
    destruct (for_of_fold knownActiveStreams (drop_ended active) b
                (knownActiveStreams s1) s1) as (s2 & -> & Hk2) end.
  { intros x s0. unfold drop_ended.
    destruct (set_has x active) eqn:Hhas; simpl.
    - by exists s0.
    - rewrite handleStreamEnd_ok. simpl. eexists. split; [done|]. simpl.
      pose proof (handleStreamEnd_known x s0) as Hsame. unfold same in Hsame.
      unfold exec. by rewrite Hsame. }
  exists s2. split; [done|]. by rewrite Hk2, Hk1.
Qed.

(** X16: what a successful cycle leaves in the known set. After a cycle in
    which the origin answered with code 0, a key is known exactly when the
    origin reported an actively publishing stream of that name (with the first
    [.m3u8] removed), whatever the known set was before and whichever database
    or message-bus call failed during the cycle; a known set without
    duplicates stays without duplicates. *)
Theorem syncStreamStatus_known_is_reported (d : SrsStreamsResponse) (s : state) :
  code d = 0 →
  let s' := exec (syncStreamStatus (HttpOk d)) s in
  (∀ k, k ∈ knownActiveStreams s' ↔
        ∃ st, st ∈ streams d ∧ is_publishing st = true ∧
              k = replace_first ".m3u8" "" (name st)) ∧
  (NoDup (knownActiveStreams s) → NoDup (knownActiveStreams s')).
Proof.
  intros Hc. cbv zeta. unfold exec. rewrite syncStreamStatus_ok by done.
  destruct (sync_body_known_list d s) as (s' & -> & Hk). simpl. split.
  - intros k. rewrite <- elem_of_activeStreamKeys, Hk. cbv zeta.
    rewrite elem_of_drop_all, elem_of_add_all. tauto.
  - intros Hnd. rewrite Hk. cbv zeta. by apply NoDup_drop_all, NoDup_add_all.
Qed.

Lemma syncStreamStatus_known_is_reported_witness :
  let d := srs_reply ["xyz.m3u8"] in
  let s' := exec (syncStreamStatus (HttpOk d)) sample_state in
  (∀ k, k ∈ knownActiveStreams s' ↔
        ∃ st, st ∈ streams d ∧ is_publishing st = true ∧
              k = replace_first ".m3u8" "" (name st)) ∧
  (NoDup (knownActiveStreams sample_state) → NoDup (knownActiveStreams s')).
Proof. apply (syncStreamStatus_known_is_reported (srs_reply ["xyz.m3u8"]) sample_state). reflexivity. Defined.

Lemma update_start_none key t l :
  filter (start_matches key) l = [] → update_start key t <$> l = l.
Proof.
  induction l as [|r l IH]; [done|]. rewrite filter_cons, fmap_cons.
  unfold update_start at 1. destruct (decide (start_matches key r)); [done|].
  intros Hl. by rewrite IH.
Qed.

Lemma start_matches_updated key t l :
  filter (start_matches key) (update_start key t <$> l) = [].
Proof.
  induction l as [|r l IH]; [done|]. rewrite fmap_cons, filter_cons, IH.
  rewrite decide_False; [done|].
  unfold update_start. destruct (decide (start_matches key r)) as [?|Hn]; [|done].
  unfold start_matches. simpl. tauto.
Qed.

Lemma end_matches_updated key t l :
  filter (end_matches key) (update_end key t <$> l) = [].
Proof.
  induction l as [|r l IH]; [done|]. rewrite fmap_cons, filter_cons, IH.
  rewrite decide_False; [done|].
  unfold update_end. destruct (decide (end_matches key r)) as [?|Hn]; [|done].
  unfold end_matches. simpl. intros [_ ?]. done.
Qed.

(** X17: the notifications of a detected start. When the handler for a new
    key runs without failures and a row of that key is not yet live, the
    stream state stored for the key is that of the first such row, live since
    the current time, and the handler publishes stream-start and then, only
    if recording is enabled for the stream, recording-start. Without such a
    row (no stream of that key, or it is live already) nothing is rewritten,
    stored or published. *)
Theorem handleStreamStart_effects (key : string) (s : state) :
  faults s = [] →
  let s' := exec (handleStreamStart key) s in
  match filter (start_matches key) (streams_table s) with
  | row :: _ =>
      redis_states s' !! key =
        Some {| state_id := stream_id row; state_status := "live"; startTime := now s;
                recordingEnabled := recording_enabled row |} ∧
      new_notifications s s' =
        StreamStart (stream_id row) key (user_id row) (recording_enabled row) ::
        (if recording_enabled row
         then [RecordingStart (stream_id row) key (user_id row) (title row)]
         else [])
  | [] =>
      streams_table s' = streams_table s ∧ redis_states s' = redis_states s ∧
      new_notifications s s' = []
  end.
Proof.
  intros Hf. simpl in Hf. cbv zeta.
  unfold new_notifications, handleStreamStart, try_catch, query_start, publish, setStreamState,
    mbind, prog_bind, bind, external_call, gets, modify, exec.
  simpl. rewrite Hf. simpl.
  destruct (filter (start_matches key) (streams_table s)) as [|row rest] eqn:Hrows; simpl.
  - rewrite update_start_none by done. by rewrite drop_all.
  - repeat (rewrite Hf; simpl). destruct (recording_enabled row); simpl.
    + rewrite Hf. simpl. split; [apply lookup_insert_eq|].
      rewrite <- app_assoc. by rewrite drop_app_length.
    + split; [apply lookup_insert_eq|]. by rewrite drop_app_length.
Qed.

Lemma handleStreamStart_effects_witness :
  let s' := exec (handleStreamStart "xyz") fresh_state in
  redis_states s' !! "xyz" =
    Some {| state_id := "43"; state_status := "live"; startTime := 900;
            recordingEnabled := true |} ∧
  new_notifications fresh_state s' =
    [StreamStart "43" "xyz" "u7" true; RecordingStart "43" "xyz" "u7" "Evening show"].
Proof. apply (handleStreamStart_effects "xyz" fresh_state). reflexivity. Defined.

(** The handlers publish and store nothing when no row matches, whatever
    fails. *)
Lemma handleStreamStart_idle key s :
  filter (start_matches key) (streams_table s) = [] →
  let s' := exec (handleStreamStart key) s in
  streams_table s' = streams_table s ∧ redis_states s' = redis_states s ∧
  published s' = published s.
Proof.
  intros Hrows. cbv zeta.
  unfold handleStreamStart, try_catch, query_start, mbind, prog_bind, bind, external_call,
    gets, modify, exec.
  simpl. destruct (pending_faults s) as [|[] fs]; simpl; rewrite ?Hrows; simpl;
    by rewrite ?update_start_none.
Qed.

Lemma handleStreamEnd_idle key s :
  filter (end_matches key) (streams_table s) = [] →
  let s' := exec (handleStreamEnd key) s in
  streams_table s' = streams_table s ∧ redis_states s' = redis_states s ∧
  published s' = published s.
Proof.
  intros Hrows. cbv zeta.
  unfold handleStreamEnd, try_catch, query_end, mbind, prog_bind, bind, external_call,
    gets, modify, exec.
  simpl. destruct (pending_faults s) as [|[] fs]; simpl; rewrite ?Hrows; simpl;
    by rewrite ?update_end_none.
Qed.

(** X18: a start whose follow-up fails is lost. When the update of a
    detected start succeeds but storing the stream state fails, the rows of
    the key are live, yet no stream state is stored and nothing is published;
    and running the start handler again for that key, from any state with
    these rows, stores and publishes nothing either: the stream-start and
    recording-start notifications are never sent. *)
Theorem handleStreamStart_lost_notification (key : string) (s : state) (fs : list bool) :
  faults s = false :: true :: fs →
  filter (start_matches key) (streams_table s) ≠ [] →
  let s' := exec (handleStreamStart key) s in
  Forall2 (started key (now s)) (streams_table s) (streams_table s') ∧
  redis_states s' = redis_states s ∧ published s' = published s ∧
  ∀ s2, streams_table s2 = streams_table s' →
        let s3 := exec (handleStreamStart key) s2 in
        streams_table s3 = streams_table s2 ∧ redis_states s3 = redis_states s2 ∧
        published s3 = published s2.
Proof.
  intros Hf Hrows. simpl in Hf. cbv zeta.
  assert (streams_table (exec (handleStreamStart key) s)
          = update_start key (now s) <$> streams_table s ∧
          redis_states (exec (handleStreamStart key) s) = redis_states s ∧
          published (exec (handleStreamStart key) s) = published s) as (Ht & Hr & Hp).
  { unfold handleStreamStart, try_catch, query_start, publish, setStreamState,
      mbind, prog_bind, bind, external_call, gets, modify, exec.
    simpl. rewrite Hf. simpl.
    destruct (filter (start_matches key) (streams_table s)) as [|row rest]; [done|].
    done. }
  rewrite Ht, Hr, Hp. split; [|split; [done|split; [done|]]].
  - apply Forall2_fmap_r, Forall_Forall2_diag, Forall_forall. intros r _.
    apply update_start_started.
  - intros s2 Hs2. apply handleStreamStart_idle. rewrite Hs2. apply start_matches_updated.
Qed.

Lemma handleStreamStart_lost_notification_witness :
  let s := with_faults [false; true] fresh_state in
  let s' := exec (handleStreamStart "xyz") s in
  Forall2 (started "xyz" (now s)) (streams_table s) (streams_table s') ∧
  redis_states s' = redis_states s ∧ published s' = published s ∧
  ∀ s2, streams_table s2 = streams_table s' →
        let s3 := exec (handleStreamStart "xyz") s2 in
        streams_table s3 = streams_table s2 ∧ redis_states s3 = redis_states s2 ∧
        published s3 = published s2.
Proof.
  apply (handleStreamStart_lost_notification "xyz" (with_faults [false; true] fresh_state) []).
  - reflexivity.
  - vm_compute. discriminate.
Defined.

(** X19: an end whose first notification fails is lost. When the update of
    a detected end succeeds but publishing recording-stop fails, the live rows
    of the key are ended, yet the stored stream state is not cleared and
    nothing is published; running the end handler again for that key, from any
    state with these rows, clears and publishes nothing either. *)
Theorem handleStreamEnd_lost_notification (key : string) (s : state) (fs : list bool) :
  faults s = false :: true :: fs →
  filter (end_matches key) (streams_table s) ≠ [] →
  let s' := exec (handleStreamEnd key) s in
  Forall2 (ended key (now s)) (streams_table s) (streams_table s') ∧
  redis_states s' = redis_states s ∧ published s' = published s ∧
  ∀ s2, streams_table s2 = streams_table s' →
        let s3 := exec (handleStreamEnd key) s2 in
        streams_table s3 = streams_table s2 ∧ redis_states s3 = redis_states s2 ∧
        published s3 = published s2.
Proof.
  intros Hf Hrows. simpl in Hf. cbv zeta.
  assert (streams_table (exec (handleStreamEnd key) s)
          = update_end key (now s) <$> streams_table s ∧
          redis_states (exec (handleStreamEnd key) s) = redis_states s ∧
          published (exec (handleStreamEnd key) s) = published s) as (Ht & Hr & Hp).
  { unfold handleStreamEnd, try_catch, query_end, publish, setStreamState,
      mbind, prog_bind, bind, external_call, gets, modify, exec.
    simpl. rewrite Hf. simpl.
    destruct (filter (end_matches key) (streams_table s)) as [|row rest]; [done|].
    done. }
  rewrite Ht, Hr, Hp. split; [|split; [done|split; [done|]]].
  - apply Forall2_fmap_r, Forall_Forall2_diag, Forall_forall. intros r _.
    apply update_end_ended.
  - intros s2 Hs2. apply handleStreamEnd_idle. rewrite Hs2. apply end_matches_updated.
Qed.

Lemma handleStreamEnd_lost_notification_witness :
  let s := with_faults [false; true] sample_state in
  let s' := exec (handleStreamEnd "abc") s in
  Forall2 (ended "abc" (now s)) (streams_table s) (streams_table s') ∧
  redis_states s' = redis_states s ∧ published s' = published s ∧
  ∀ s2, streams_table s2 = streams_table s' →
        let s3 := exec (handleStreamEnd "abc") s2 in
        streams_table s3 = streams_table s2 ∧ redis_states s3 = redis_states s2 ∧
        published s3 = published s2.
Proof.
  apply (handleStreamEnd_lost_notification "abc" (with_faults [false; true] sample_state) []).
  - reflexivity.
  - vm_compute. discriminate.
Defined.

End StreamSyncMore.

Section StreamSyncMissed.
Import StreamSync.

Lemma handleStreamStart_failed_update key s fs :
  faults s = true :: fs → handleStreamStart key s = (Ok tt, with_faults fs s).
Proof.
  intros Hf. simpl in Hf.
  unfold handleStreamStart, try_catch, query_start, mbind, prog_bind, bind, external_call.
  simpl. by rewrite Hf.
Qed.

(** X20: a start that could not be written is not retried. When the
    origin reports one key more than the service knows and the database update
    for that start fails, the cycle changes no row, stores no stream state and
    publishes nothing, but the key joins the known set; a later cycle that
    reports the same keys then does nothing at all, so the stream is never
    marked live while it keeps publishing. *)
Theorem missed_start_is_not_retried (d : SrsStreamsResponse) (s : state) (k : string)
    (fs : list bool) :
  code d = 0 →
  k ∉ knownActiveStreams s →
  (∀ x, x ∈ activeStreamKeys d ↔ x ∈ knownActiveStreams s ∨ x = k) →
  faults s = true :: fs →
  let s' := exec (syncStreamStatus (HttpOk d)) s in
  streams_table s' = streams_table s ∧ redis_states s' = redis_states s ∧
  published s' = published s ∧
  knownActiveStreams s' = knownActiveStreams s ++ [k] ∧
  ∀ s2, knownActiveStreams s2 = knownActiveStreams s' →
        syncStreamStatus (HttpOk d) s2 = (Ok tt, s2).
Proof.
  intros Hc Hk Hact Hf. cbv zeta.
  assert (sync_body d s =
          (Ok tt, with_known (knownActiveStreams s ++ [k]) (with_faults fs s))) as Hrun.
  { unfold sync_body. cbv zeta.
    assert (k ∈ activeStreamKeys d) as Hin by (apply Hact; by right).
    pose proof (NoDup_activeStreamKeys d) as Hnd.
    apply list_elem_of_split in Hin as (l1 & l2 & Hl).
    assert (∀ x, x ∈ l1 ++ l2 → x ∈ knownActiveStreams s) as Hothers.
    { intros x Hx. rewrite Hl in Hnd. apply NoDup_app in Hnd as (_ & Hd1 & Hd2).
      apply NoDup_cons in Hd2 as [Hd2 _].
      destruct (Hact x) as [[?| ->] _]; [|done|].
      - rewrite Hl, elem_of_app, elem_of_cons. apply elem_of_app in Hx. tauto.
      - apply elem_of_app in Hx as [Hx|Hx]; [|done]. destruct (Hd1 k Hx). left. }
    unfold mbind at 1, prog_bind at 1, bind at 1. rewrite Hl at 1.
    rewrite for_of_app, for_of_skip; last first.
    { intros x Hx. unfold mbind, prog_bind, bind, gets, set_has. simpl.
      rewrite bool_decide_eq_true_2; [done|]. apply Hothers, elem_of_app. by left. }
    simpl. unfold bind at 1. unfold mbind at 1, prog_bind at 1, bind at 1, gets at 1.
    unfold set_has at 1. rewrite bool_decide_eq_false_2 by done. simpl.
    unfold mbind at 1, prog_bind at 1, bind at 1.
    rewrite (handleStreamStart_failed_update k s fs Hf). unfold modify at 1. simpl.
    unfold set_add, set_has. rewrite bool_decide_eq_false_2 by done.
    rewrite for_of_skip; last first.
    { intros x Hx. unfold mbind, prog_bind, bind, gets, set_has. simpl.
      rewrite bool_decide_eq_true_2; [done|].
      apply elem_of_app. left. apply Hothers, elem_of_app. by right. }
    unfold mbind, prog_bind, bind, gets. simpl. apply for_of_skip.
    intros x Hx. unfold set_has. rewrite bool_decide_eq_true_2; [done|].
    apply Hact. apply elem_of_app in Hx as [?|?%list_elem_of_singleton]; tauto. }
  unfold exec. rewrite syncStreamStatus_ok, Hrun by done. simpl.
  repeat split. intros s2 Hs2. rewrite syncStreamStatus_ok by done.
  apply sync_body_steady. intros x. rewrite Hs2, Hact, elem_of_app, list_elem_of_singleton.
  done.
Qed.

Lemma missed_start_is_not_retried_witness :
  let d := srs_reply ["xyz.m3u8"] in
  let s := with_faults [true] fresh_state in
  let s' := exec (syncStreamStatus (HttpOk d)) s in
  streams_table s' = streams_table s ∧ redis_states s' = redis_states s ∧
  published s' = published s ∧
  knownActiveStreams s' = knownActiveStreams s ++ ["xyz"] ∧
  ∀ s2, knownActiveStreams s2 = knownActiveStreams s' →
        syncStreamStatus (HttpOk d) s2 = (Ok tt, s2).
Proof.
  apply (missed_start_is_not_retried (srs_reply ["xyz.m3u8"])
           (with_faults [true] fresh_state) "xyz" []).
  - reflexivity.
  - simpl. apply not_elem_of_nil.
  - intros x. replace (activeStreamKeys (srs_reply ["xyz.m3u8"])) with ["xyz"]
      by (vm_compute; reflexivity).
    simpl. rewrite list_elem_of_singleton, elem_of_nil. tauto.
  - reflexivity.
Defined.
End StreamSyncMissed.

(** ** Station provisioning *)

Section MountPointFacts.
Import Provisioning.

Lemma map_chars_length f s : String.length (map_chars f s) = String.length s.
Proof. induction s as [|c s IH]; simpl; congruence. Qed.

Lemma substring_prefix_length n s : (String.length (String.substring 0 n s) ≤ n)%nat.
Proof.
  revert s. induction n as [|n IH]; intros [|c s]; simpl; try lia.
  specialize (IH s). lia.
Qed.

Lemma substring_short n s : (String.length s ≤ n)%nat → String.substring 0 n s = s.
Proof.
  revert s. induction n as [|n IH]; intros [|c s]; simpl; try done; [lia|].
  intros ?. rewrite IH; [done|lia].
Qed.

Lemma substring_chars (P : ascii → Prop) n s :
  Forall P (String.list_ascii_of_string s) →
  Forall P (String.list_ascii_of_string (String.substring 0 n s)).
Proof.
  revert s. induction n as [|n IH]; intros [|c s]; simpl; try done.
  intros [? ?]%Forall_cons. constructor; [done|by apply IH].
Qed.

Lemma dash_mount_char c : mount_char (dash c).
Proof.
  unfold mount_char, dash. destruct (alphanumeric c) eqn:Hc; [by left|by right].
Qed.

Lemma mount_char_fixed c : mount_char c → dash (toLowerCase c) = c.
Proof.
  intros [Hc| ->]; [|done]. revert Hc.
  destruct c as [[] [] [] [] [] [] [] []]; vm_compute; congruence.
Qed.

Lemma map_chars_fixed f s :
  Forall (λ c, f c = c) (String.list_ascii_of_string s) → map_chars f s = s.
Proof.
  induction s as [|c s IH]; simpl; [done|].
  intros [-> ?]%Forall_cons. by rewrite IH.
Qed.

Lemma map_chars_compose f g s : map_chars f (map_chars g s) = map_chars (f ∘ g) s.
Proof. induction s as [|c s IH]; simpl; congruence. Qed.

(** X21: the mount point derived from a station name has at most fifty
    characters, each a lower-case letter, a digit or a dash, and deriving a
    mount point from a mount point gives it back. *)
Theorem mountPoint_shape (name : string) :
  (String.length (mountPoint name) ≤ 50)%nat ∧
  Forall mount_char (String.list_ascii_of_string (mountPoint name)) ∧
  mountPoint (mountPoint name) = mountPoint name.
Proof.
  assert (Forall mount_char (String.list_ascii_of_string (mountPoint name))) as Hchars.
  { unfold mountPoint. apply substring_chars.
    generalize (map_chars toLowerCase name). intros s.
    induction s as [|c s IH]; simpl; constructor; [apply dash_mount_char|done]. }
  split; [apply substring_prefix_length|split; [done|]].
  unfold mountPoint at 1. rewrite map_chars_compose, map_chars_fixed.
  - apply substring_short, substring_prefix_length.
  - eapply Forall_impl; [exact Hchars|]. intros c Hc. by apply mount_char_fixed.
Qed.

Example mountPoint_collision :
  mountPoint "My Radio!" = "my-radio-" ∧ mountPoint "my_radio?" = "my-radio-".
Proof. split; vm_compute; reflexivity. Qed.
End MountPointFacts.

Section ProvisioningFacts.
Import Provisioning.

Ltac wp_prim := unfold query, log.
Ltac wp_go := repeat (first [wp_step | progress wp_prim]).
Ltac wp_ok := repeat (first [wp_ok_step | progress wp_prim]).

#[local] Instance nothing_created_preorder : PreOrder nothing_created.
Proof.
  split.
  - intros s. by repeat split.
  - intros s1 s2 s3 H1 H2. unfold nothing_created in *.
    destruct H1 as (?&?&?&?&?), H2 as (?&?&?&?&?). repeat split; congruence.
Qed.

Lemma ports_leases rows : PortAllocator.leased_ports (leases rows) = ports rows.
Proof.
  unfold PortAllocator.leased_ports, ports, leases.
  induction rows as [|r rows IH]; [done|]. csimpl. by rewrite IH.
Qed.

(** The allocator's answer, on the table. *)
Lemma allocator_answer rows :
  match PortAllocator.getNextAvailablePort (leases rows) with
  | inl p => PortAllocator.BASE_STREAM_PORT ≤ p ≤ PortAllocator.MAX_STREAM_PORT ∧
             (p ∉ ports rows) ∧
             ∀ q, PortAllocator.BASE_STREAM_PORT ≤ q < p → q ∈ ports rows
  | inr _ => ∀ q, PortAllocator.BASE_STREAM_PORT ≤ q ≤ PortAllocator.MAX_STREAM_PORT →
                  q ∈ ports rows
  end.
Proof.
  unfold PortAllocator.getNextAvailablePort.
  pose proof (scan_spec (PortAllocator.usedPorts (leases rows)) PortAllocator.BASE_STREAM_PORT
                (Z.to_nat (PortAllocator.MAX_STREAM_PORT - PortAllocator.BASE_STREAM_PORT + 1)))
    as Hs.
  destruct (PortAllocator.scan _ _ _) as [p|].
  - destruct Hs as (Hr & Hfree & Hlow). rewrite used_ports_leased, ports_leases in Hfree.
    split; [|split; [done|]].
    + unfold PortAllocator.BASE_STREAM_PORT, PortAllocator.MAX_STREAM_PORT in *. lia.
    + intros q Hq. rewrite <- ports_leases, <- used_ports_leased. by apply Hlow.
  - intros q Hq. rewrite <- ports_leases, <- used_ports_leased. apply Hs.
    unfold PortAllocator.BASE_STREAM_PORT, PortAllocator.MAX_STREAM_PORT in *. lia.
Qed.

Ltac nothing_created_side := unfold nothing_created; simpl; by repeat split.

(** X22: refused creations leave nothing behind. When the request has
    no name, or every port of the pool is held, or the mount point derived from
    the name is already the mount point of a station, the creation is answered
    with 500 and no station, mount point, playlist or container is created,
    whatever external call fails. *)
Theorem post_station_refused (s : state) (userId userRole : string) (b : station_body)
    (hex newId : string) :
  body_name b = None ∨
  (∀ q, PortAllocator.BASE_STREAM_PORT ≤ q ≤ PortAllocator.MAX_STREAM_PORT →
        q ∈ ports (audio_stations s)) ∨
  (∃ name, body_name b = Some name ∧
           mountPoint name ∈ mount_point <$> audio_stations s) →
  eval (post_station userId userRole b hex newId) s = Ok (Failed 500 "Failed to create station") ∧
  nothing_created s (exec (post_station userId userRole b hex newId) s).
Proof.
  intros Hwhy.
  apply (wp_run (post_station userId userRole b hex newId)
    (λ r s', r = Ok (Failed 500 "Failed to create station") ∧ nothing_created s s')).
  unfold post_station, getNextAvailablePort, insert_station.
  wp_go; simpl in *.
  all: try (split; [done|nothing_created_side]).
  all: exfalso.
  all: destruct Hwhy as [?|[Hfull|(name & ? & Hclash)]]; [congruence| |].
  all: try match goal with
           | H : PortAllocator.getNextAvailablePort _ = inl ?p |- _ =>
               pose proof (allocator_answer (audio_stations s)) as Hp;
               simpl in *; rewrite H in Hp; destruct Hp as (? & Hfree & _);
               by apply Hfree, Hfull
           end.
  all: simplify_eq.
  all: match goal with
       | H : _ ∧ ¬ station_clashes _ _ |- _ => apply (proj2 H)
       end.
  all: right; left; done.
Qed.

Lemma post_station_refused_witness :
  eval (post_station "u2" "user" (named "JAZZ.fm") "0123456789ab" "5e6f7a8b-0000") one_station
    = Ok (Failed 500 "Failed to create station") ∧
  nothing_created one_station
    (exec (post_station "u2" "user" (named "JAZZ.fm") "0123456789ab" "5e6f7a8b-0000")
          one_station).
Proof.
  apply (post_station_refused one_station "u2" "user" (named "JAZZ.fm")).
  right; right. exists "JAZZ.fm". split; [done|]. vm_compute. left.
Defined.

Lemma elem_of_ports rows p : p ∈ ports rows ↔ Some p ∈ stream_port <$> rows.
Proof.
  unfold ports. rewrite list_elem_of_omap, list_elem_of_fmap. split.
  - intros (r & ? & ?). by exists r.
  - intros (r & ? & ?). by exists r.
Qed.

Lemma allocator_lowest rows p :
  PortAllocator.BASE_STREAM_PORT ≤ p ≤ PortAllocator.MAX_STREAM_PORT →
  p ∉ ports rows →
  (∀ q, PortAllocator.BASE_STREAM_PORT ≤ q < p → q ∈ ports rows) →
  PortAllocator.getNextAvailablePort (leases rows) = inl p.
Proof.
  intros Hr Hfree Hlow. pose proof (allocator_answer rows) as Ha.
  destruct (PortAllocator.getNextAvailablePort (leases rows)) as [p'|e].
  - destruct Ha as (Hr' & Hfree' & Hlow'). f_equal.
    destruct (Z.lt_trichotomy p' p) as [?|[?|?]]; [|done|].
    + destruct Hfree'. apply Hlow. lia.
    + destruct Hfree. apply Hlow'. lia.
  - destruct Hfree. by apply Ha.
Qed.

(** X23: a successful creation. Without failures, for a named station
    whose row fits the columns, whose identifier is new and whose mount point
    is not in use, the new station gets the lowest free port of the pool; the
    station row, its primary mount point and its default playlist are added
    (and nothing else), the reply is the new row, a container named after the
    first eight characters of the identifier is started with that port and the
    station's own source password, and the ports held by stations stay free of
    duplicates. *)
Theorem post_station_creates (s : state) (userId userRole : string) (b : station_body)
    (name hex newId : string) (p : Z) :
  let row := {| id := newId; name := name; genre := body_genre b;
                mount_point := mountPoint name; stream_port := Some p;
                bitrate := default 128 (body_bitrate b); is_active := true;
                auto_dj_enabled := default true (body_auto_dj_enabled b);
                created_by := Some (ownerId userId userRole b);
                source_password := Some ("cmc_" +:+ hex) |} in
  let s' := exec (post_station userId userRole b hex newId) s in
  faults s = [] →
  body_name b = Some name →
  PortAllocator.BASE_STREAM_PORT ≤ p ≤ PortAllocator.MAX_STREAM_PORT →
  p ∉ ports (audio_stations s) →
  (∀ q, PortAllocator.BASE_STREAM_PORT ≤ q < p → q ∈ ports (audio_stations s)) →
  station_fits row →
  newId ∉ id <$> audio_stations s →
  mountPoint name ∉ mount_point <$> audio_stations s →
  mountPoint name ∉ mp_mount_point <$> station_mount_points s →
  eval (post_station userId userRole b hex newId) s = Ok (Created row) ∧
  audio_stations s' = audio_stations s ++ [row] ∧
  station_mount_points s' = station_mount_points s ++
    [ {| mp_station_id := newId; mp_mount_point := mountPoint name;
         mp_bitrate := default 128 (body_bitrate b); mp_is_primary := true |} ] ∧
  station_playlists s' = station_playlists s ++
    [ {| pl_station_id := newId; pl_name := "Default Playlist";
         pl_description := "Auto DJ default playlist"; pl_is_default := true |} ] ∧
  icecastContainers s' = <[newId := containerName newId]> (icecastContainers s) ∧
  commands s' = commands s ++
    [DockerStop (containerName newId); DockerRm (containerName newId);
     WriteConfig (configPath newId) newId;
     DockerRun (containerName newId) p (configPath newId) ("cmc_" +:+ hex)] ∧
  (NoDup (ports (audio_stations s)) → NoDup (ports (audio_stations s'))).
Proof.
  cbv zeta. intros Hf Hname Hr Hfree Hlow Hfits Hid Hmp Hmounts. simpl in Hf.
  pose proof (allocator_lowest _ _ Hr Hfree Hlow) as Halloc.
  apply (wp_run (post_station userId userRole b hex newId)
    (λ r s', r = Ok (Created _) ∧ audio_stations s' = _ ∧ station_mount_points s' = _ ∧
             station_playlists s' = _ ∧ icecastContainers s' = _ ∧ commands s' = _ ∧
             (NoDup (ports (audio_stations s)) → NoDup (ports (audio_stations s'))))).
  unfold post_station, getNextAvailablePort, insert_station, insert_mount_point,
    insert_default_playlist, startIcecastForStation.
  rewrite Hname. wp_ok; simpl in *; simplify_eq.
  - rewrite <- !app_assoc. simpl. repeat split.
    intros Hnd. unfold ports. rewrite omap_app. simpl. apply NoDup_app.
    split; [done|split; [|apply NoDup_singleton]].
    intros x Hx ->%list_elem_of_singleton. done.
  - match goal with H : ¬ _ |- _ => destruct H end.
    rewrite fmap_app, elem_of_app. simpl. right. left.
  - match goal with H : ¬ _ |- _ => destruct H end.
    split; [|split; [done|]].
    + rewrite fmap_app, elem_of_app. simpl. right. left.
    + destruct Hfits as (_ & _ & ? & _ & ? & _). done.
  - match goal with H : ¬ _ |- _ => destruct H end.
    split; [done|]. intros [?|[?|[_ Hp]]]; [done..|].
    by apply elem_of_ports in Hp.
Qed.

Lemma post_station_creates_witness :
  let row := {| id := "5e6f7a8b-0000"; name := "Blues & Soul"; genre := None;
                mount_point := "blues---soul"; stream_port := Some 8002; bitrate := 128;
                is_active := true; auto_dj_enabled := true; created_by := Some "u2";
                source_password := Some "cmc_0123456789ab" |} in
  let s' := exec (post_station "u2" "user" (named "Blues & Soul") "0123456789ab"
                               "5e6f7a8b-0000") one_station in
  eval (post_station "u2" "user" (named "Blues & Soul") "0123456789ab" "5e6f7a8b-0000")
       one_station = Ok (Created row) ∧
  audio_stations s' = audio_stations one_station ++ [row] ∧
  station_mount_points s' = station_mount_points one_station ++
    [ {| mp_station_id := "5e6f7a8b-0000"; mp_mount_point := "blues---soul";
         mp_bitrate := 128; mp_is_primary := true |} ] ∧
  station_playlists s' = station_playlists one_station ++
    [ {| pl_station_id := "5e6f7a8b-0000"; pl_name := "Default Playlist";
         pl_description := "Auto DJ default playlist"; pl_is_default := true |} ] ∧
  icecastContainers s' = <["5e6f7a8b-0000" := "icecast-station-5e6f7a8b"]>
                           (icecastContainers one_station) ∧
  commands s' = commands one_station ++
    [DockerStop "icecast-station-5e6f7a8b"; DockerRm "icecast-station-5e6f7a8b";
     WriteConfig "/tmp/icecast-5e6f7a8b-0000.xml" "5e6f7a8b-0000";
     DockerRun "icecast-station-5e6f7a8b" 8002 "/tmp/icecast-5e6f7a8b-0000.xml"
               "cmc_0123456789ab"] ∧
  (NoDup (ports (audio_stations one_station)) → NoDup (ports (audio_stations s'))).
Proof.
  apply (post_station_creates one_station "u2" "user" (named "Blues & Soul")
           "Blues & Soul" "0123456789ab" "5e6f7a8b-0000" 8002).
  - reflexivity.
  - reflexivity.
  - vm_compute. split; discriminate.
  - change (8002 ∉ [8001]). by intros ?%list_elem_of_singleton.
  - intros q Hq. change (q ∈ [8001]).
    assert (q = 8001) as -> by (unfold PortAllocator.BASE_STREAM_PORT in Hq; lia). left.
  - unfold station_fits, int4. simpl. lia.
  - change ("5e6f7a8b-0000" ∉ ["0a1b2c3d-0000"]). by intros ?%list_elem_of_singleton.
  - change ("blues---soul" ∉ ["jazz-fm"]). by intros ?%list_elem_of_singleton.
  - change ("blues---soul" ∉ ["jazz-fm"; "jazz-hq"]).
    by intros [?|?%list_elem_of_singleton]%elem_of_cons.
Defined.

(** X24: creation is not atomic. When the derived mount point is not
    the mount point of any station but is registered as a further mount point
    of some station, the station row is inserted and stays in the table, and
    then the insertion of the primary mount point fails: the request is
    answered with 500, and the new station is left with a port but without
    primary mount point, default playlist and container. *)
Theorem post_station_half_created (s : state) (userId userRole : string) (b : station_body)
    (name hex newId : string) (p : Z) :
  let row := {| id := newId; name := name; genre := body_genre b;
                mount_point := mountPoint name; stream_port := Some p;
                bitrate := default 128 (body_bitrate b); is_active := true;
                auto_dj_enabled := default true (body_auto_dj_enabled b);
                created_by := Some (ownerId userId userRole b);
                source_password := Some ("cmc_" +:+ hex) |} in
  let s' := exec (post_station userId userRole b hex newId) s in
  faults s = [] →
  body_name b = Some name →
  PortAllocator.BASE_STREAM_PORT ≤ p ≤ PortAllocator.MAX_STREAM_PORT →
  p ∉ ports (audio_stations s) →
  (∀ q, PortAllocator.BASE_STREAM_PORT ≤ q < p → q ∈ ports (audio_stations s)) →
  station_fits row →
  newId ∉ id <$> audio_stations s →
  mountPoint name ∉ mount_point <$> audio_stations s →
  mountPoint name ∈ mp_mount_point <$> station_mount_points s →
  eval (post_station userId userRole b hex newId) s
    = Ok (Failed 500 "Failed to create station") ∧
  audio_stations s' = audio_stations s ++ [row] ∧
  station_mount_points s' = station_mount_points s ∧
  station_playlists s' = station_playlists s ∧
  icecastContainers s' = icecastContainers s ∧ commands s' = commands s.
Proof.
  cbv zeta. intros Hf Hname Hr Hfree Hlow Hfits Hid Hmp Hmounts. simpl in Hf.
  pose proof (allocator_lowest _ _ Hr Hfree Hlow) as Halloc.
  apply (wp_run (post_station userId userRole b hex newId)
    (λ r s', r = Ok (Failed 500 "Failed to create station") ∧ audio_stations s' = _ ∧
             station_mount_points s' = _ ∧ station_playlists s' = _ ∧
             icecastContainers s' = _ ∧ commands s' = _)).
  unfold post_station, getNextAvailablePort, insert_station, insert_mount_point,
    insert_default_playlist, startIcecastForStation.
  rewrite Hname. wp_ok; simpl in *; simplify_eq.
  all: try (by repeat split).
  all: exfalso.
  all: try match goal with
           | H : _ ∧ (_ ∉ _) ∧ _ |- _ => by apply (proj1 (proj2 H))
           end.
  match goal with H : ¬ _ |- _ => apply H end.
  split; [done|]. intros [?|[?|[_ Hp]]]; [done..|].
  by apply elem_of_ports in Hp.
Qed.

Lemma post_station_half_created_witness :
  let row := {| id := "5e6f7a8b-0000"; name := "Jazz HQ"; genre := None;
                mount_point := "jazz-hq"; stream_port := Some 8002; bitrate := 128;
                is_active := true; auto_dj_enabled := true; created_by := Some "u2";
                source_password := Some "cmc_0123456789ab" |} in
  let s' := exec (post_station "u2" "user" (named "Jazz HQ") "0123456789ab"
                               "5e6f7a8b-0000") one_station in
  eval (post_station "u2" "user" (named "Jazz HQ") "0123456789ab" "5e6f7a8b-0000")
       one_station = Ok (Failed 500 "Failed to create station") ∧
  audio_stations s' = audio_stations one_station ++ [row] ∧
  station_mount_points s' = station_mount_points one_station ∧
  station_playlists s' = station_playlists one_station ∧
  icecastContainers s' = icecastContainers one_station ∧
  commands s' = commands one_station.
Proof.
  apply (post_station_half_created one_station "u2" "user" (named "Jazz HQ")
           "Jazz HQ" "0123456789ab" "5e6f7a8b-0000" 8002).
  - reflexivity.
  - reflexivity.
  - vm_compute. split; discriminate.
  - change (8002 ∉ [8001]). by intros ?%list_elem_of_singleton.
  - intros q Hq. change (q ∈ [8001]).
    assert (q = 8001) as -> by (unfold PortAllocator.BASE_STREAM_PORT in Hq; lia). left.
  - unfold station_fits, int4. simpl. lia.
  - change ("5e6f7a8b-0000" ∉ ["0a1b2c3d-0000"]). by intros ?%list_elem_of_singleton.
  - change ("jazz-hq" ∉ ["jazz-fm"]). by intros ?%list_elem_of_singleton.
  - change ("jazz-hq" ∈ ["jazz-fm"; "jazz-hq"]). right. left.
Defined.

(** *** The port migration *)

Lemma ports_length rows : (length (ports rows) ≤ length rows)%nat.
Proof.
  unfold ports. induction rows as [|r rows IH]; csimpl; [done|].
  destruct (stream_port r); simpl; lia.
Qed.

Lemma ports_length_lt rows r :
  r ∈ rows → stream_port r = None → (length (ports rows) < length rows)%nat.
Proof.
  intros Hin Hnone. induction Hin as [r rows|r r0 rows Hin IH].
  - unfold ports. csimpl. rewrite Hnone. simpl.
    pose proof (ports_length rows). unfold ports in *. lia.
  - specialize (IH Hnone). unfold ports in *. csimpl. destruct (stream_port r0); simpl; lia.
Qed.

(** While a station lacks a port and at most a hundred stations exist, the
    pool is not exhausted. *)
Lemma allocator_finds rows r :
  NoDup (ports rows) → (length rows ≤ 100)%nat → r ∈ rows → stream_port r = None →
  ∃ p, PortAllocator.getNextAvailablePort (leases rows) = inl p ∧
       PortAllocator.BASE_STREAM_PORT ≤ p ≤ PortAllocator.MAX_STREAM_PORT ∧
       p ∉ ports rows.
Proof.
  intros Hnd Hlen Hin Hnone. pose proof (allocator_answer rows) as Ha.
  destruct (PortAllocator.getNextAvailablePort (leases rows)) as [p|e].
  - exists p. by destruct Ha as (? & ? & _).
  - exfalso.
    assert (seqZ 8001 100 ⊆+ ports rows) as Hsub.
    { apply NoDup_submseteq; [apply NoDup_seqZ|]. intros q Hq%elem_of_seqZ. apply Ha.
      unfold PortAllocator.BASE_STREAM_PORT, PortAllocator.MAX_STREAM_PORT. lia. }
    apply submseteq_length in Hsub. rewrite length_seqZ in Hsub.
    pose proof (ports_length_lt rows r Hin Hnone). lia.
Qed.

Lemma set_port_id p i r : id (set_port p i r) = id r.
Proof. unfold set_port. by destruct (decide (id r = i)). Qed.

Lemma set_port_ids p i (rows : list station_row) : id <$> (set_port p i <$> rows) = id <$> rows.
Proof.
  rewrite <- list_fmap_compose. apply list_fmap_ext. intros ? r _. apply set_port_id.
Qed.

Lemma set_port_other p i (rows : list station_row) :
  i ∉ id <$> rows → set_port p i <$> rows = rows.
Proof.
  induction rows as [|r rows IH]; [done|]. rewrite !fmap_cons, not_elem_of_cons.
  intros [? ?]. rewrite IH by done. unfold set_port. by rewrite decide_False.
Qed.

Lemma ports_other p i (rows : list station_row) :
  i ∉ id <$> rows → ports (set_port p i <$> rows) = ports rows.
Proof. intros ?. by rewrite set_port_other. Qed.

(** Giving a free port to the one row of a station that has none keeps the
    ports free of duplicates. *)
Lemma set_port_NoDup p i (rows : list station_row) :
  NoDup (id <$> rows) → NoDup (ports rows) → p ∉ ports rows →
  (∀ r, r ∈ rows → id r = i → stream_port r = None) →
  NoDup (ports (set_port p i <$> rows)).
Proof.
  induction rows as [|r rows IH]; [done|].
  rewrite !fmap_cons. intros [Hi Hids]%NoDup_cons Hnd Hfree Hnone.
  unfold ports in *. csimpl in *. unfold set_port at 1.
  destruct (decide (id r = i)) as [<-|Hne]; simpl.
  - rewrite (Hnone r) in * by (done || left). simpl in *.
    fold (ports (set_port p (id r) <$> rows)). rewrite ports_other by done.
    apply NoDup_cons. done.
  - destruct (stream_port r) as [q|] eqn:Hq; simpl in *.
    + apply NoDup_cons in Hnd as [Hq' Hnd]. apply not_elem_of_cons in Hfree as [? ?].
      apply NoDup_cons. split.
      * rewrite list_elem_of_omap. intros (r' & Hr' & Hp').
        apply list_elem_of_fmap in Hr' as (r0 & -> & Hr0).
        unfold set_port in Hp'. destruct (decide (id r0 = i)); simpl in *; [congruence|].
        apply Hq'. apply list_elem_of_omap. by exists r0.
      * apply IH; [done..|]. intros r' ? ?. apply Hnone; [by right|done].
    + apply IH; [done..|]. intros r' ? ?. apply Hnone; [by right|done].
Qed.

Lemma assignMissingPorts_loop (L : list station_row) :
  ∀ s, faults s = [] →
       NoDup (id <$> audio_stations s) → NoDup (ports (audio_stations s)) →
       (length (audio_stations s) ≤ 100)%nat →
       NoDup (id <$> L) →
       (∀ st, st ∈ L → ∃ r, r ∈ audio_stations s ∧ id r = id st) →
       (∀ st r, st ∈ L → r ∈ audio_stations s → id r = id st → stream_port r = None) →
       ∃ s', for_of L (λ station, nextPort ← getNextAvailablePort;
                                  update_port nextPort (id station)) s = (Ok tt, s') ∧
             Forall2 (assigned_in L) (audio_stations s) (audio_stations s') ∧
             NoDup (ports (audio_stations s')) ∧
             station_mount_points s' = station_mount_points s ∧
             station_playlists s' = station_playlists s ∧
             icecastContainers s' = icecastContainers s ∧ commands s' = commands s.
Proof.
  induction L as [|st L IH]; intros s Hf Hids Hnd Hlen HL Hex Hnone.
  - exists s. simpl. repeat split; [|done].
    apply Forall_Forall2_diag, Forall_forall. intros r _. unfold assigned_in.
    rewrite decide_False; [by repeat split|]. apply not_elem_of_nil.
  - simpl in Hf. rewrite fmap_cons in HL. apply NoDup_cons in HL as [Hst HL].
    destruct (Hex st) as (r0 & Hr0 & Hid0); [left|].
    destruct (allocator_finds (audio_stations s) r0) as (p & Hp & Hr & Hfree);
      [done..|by apply (Hnone st); [left|..]|].
    set (s1 := with_stations (set_port p (id st) <$> audio_stations s) s).
    assert ((nextPort ← getNextAvailablePort; update_port nextPort (id st)) s = (Ok tt, s1))
      as Hbody.
    { unfold getNextAvailablePort, update_port, query, mbind, prog_bind, bind, external_call,
        gets, modify.
      simpl. rewrite Hf. simpl. rewrite Hp. simpl. rewrite Hf. simpl.
      rewrite decide_False; [done|]. intros (_ & [Hint|Hused]).
      - apply Hint. unfold int4, PortAllocator.BASE_STREAM_PORT,
          PortAllocator.MAX_STREAM_PORT in *. lia.
      - apply Hfree, elem_of_ports. apply list_elem_of_fmap in Hused as (r & ? & Hr').
        apply list_elem_of_filter in Hr' as [_ ?]. apply list_elem_of_fmap. by exists r. }
    destruct (IH s1) as (s' & Hrun & Hrows & Hnd' & ? & ? & ? & ?).
    + done.
    + simpl. by rewrite set_port_ids.
    + simpl. apply set_port_NoDup; [done..|]. intros r ? ?. by apply (Hnone st); [left|..].
    + simpl. by rewrite length_fmap.
    + done.
    + intros st' Hst'. destruct (Hex st') as (r & Hr' & Hid'); [by right|].
      exists (set_port p (id st) r). split; [|by rewrite set_port_id].
      simpl. apply list_elem_of_fmap. by exists r.
    + simpl. intros st' r' Hst' Hr' Hid'.
      apply list_elem_of_fmap in Hr' as (r & -> & Hr'). rewrite set_port_id in Hid'.
      unfold set_port. rewrite decide_False.
      * by apply (Hnone st' r); [right|..].
      * intros Heq. apply Hst. apply list_elem_of_fmap. exists st'. split; [congruence|done].
    + exists s'. simpl. unfold bind. rewrite Hbody. split; [done|].
      split; [|by repeat split].
      simpl in Hrows. rewrite Forall2_fmap_l in Hrows.
      eapply Forall2_impl; [exact Hrows|]. intros r r'. unfold assigned_in, compose.
      rewrite set_port_id, fmap_cons.
      intros (-> & -> & -> & -> & -> & -> & -> & -> & -> & Hport).
      unfold set_port in *.
      destruct (decide (id r = id st)) as [Heq|Hne]; simpl in *.
      * repeat split. rewrite decide_True by (rewrite Heq; left).
        rewrite decide_False in Hport by (by rewrite Heq). by exists p.
      * repeat split. destruct (decide (id r ∈ id <$> L)) as [Hin|Hout].
        -- rewrite decide_True by (by right). done.
        -- rewrite decide_False; [done|]. by intros [?|?]%elem_of_cons.
Qed.

Lemma query_ok {A} (f : state → A) s : faults s = [] → query f s = (Ok (f s), s).
Proof.
  intros Hf. simpl in Hf. unfold query, mbind, prog_bind, bind, external_call, gets.
  simpl. by rewrite Hf.
Qed.

Lemma NoDup_fmap_filter {A B} (f : A → B) (P : A → Prop) `{!∀ x, Decision (P x)} l :
  NoDup (f <$> l) → NoDup (f <$> filter P l).
Proof.
  induction l as [|x l IH]; [done|]. rewrite fmap_cons. intros [Hx Hl]%NoDup_cons.
  rewrite filter_cons. destruct (decide (P x)); [|by apply IH].
  rewrite fmap_cons. apply NoDup_cons. split; [|by apply IH].
  intros Hin. apply Hx. apply list_elem_of_fmap in Hin as (y & -> & Hy).
  apply list_elem_of_filter in Hy as [_ ?]. apply list_elem_of_fmap. by exists y.
Qed.

Lemma NoDup_fmap_same {A B} (f : A → B) l x y :
  NoDup (f <$> l) → x ∈ l → y ∈ l → f x = f y → x = y.
Proof.
  induction l as [|z l IH]; [by intros _ ?%elem_of_nil|].
  rewrite fmap_cons. intros [Hz Hl]%NoDup_cons [->|Hx]%elem_of_cons [->|Hy]%elem_of_cons Heq.
  - done.
  - destruct Hz. apply list_elem_of_fmap. by exists y.
  - destruct Hz. apply list_elem_of_fmap. by exists x.
  - by apply IH.
Qed.

(** X25: the port migration at startup. Without failures, when the
    stations have distinct identifiers, the ports already held are distinct
    and at most a hundred stations exist, the migration succeeds: every station
    that had no port gets one from the pool, every station that had a port
    keeps it, no other column and no other table changes, and all ports are
    distinct afterwards. *)
Theorem assignMissingPorts_assigns (s : state) :
  faults s = [] →
  NoDup (id <$> audio_stations s) →
  NoDup (ports (audio_stations s)) →
  (length (audio_stations s) ≤ 100)%nat →
  let s' := exec assignMissingPorts s in
  eval assignMissingPorts s = Ok tt ∧
  Forall2 port_assigned (audio_stations s) (audio_stations s') ∧
  NoDup (ports (audio_stations s')) ∧
  station_mount_points s' = station_mount_points s ∧
  station_playlists s' = station_playlists s ∧
  icecastContainers s' = icecastContainers s ∧ commands s' = commands s.
Proof.
  intros Hf Hids Hnd Hlen. cbv zeta. simpl in Hf.
  set (L := filter (λ r, stream_port r = None) (audio_stations s)).
  destruct (assignMissingPorts_loop L s) as (s' & Hrun & Hrows & Hnd' & ? & ? & ? & ?).
  - done.
  - done.
  - done.
  - done.
  - by apply NoDup_fmap_filter.
  - intros st [? ?]%list_elem_of_filter. by exists st.
  - intros st r [Hst Hin]%list_elem_of_filter Hr Hid.
    by rewrite (NoDup_fmap_same id (audio_stations s) r st).
  - assert (assignMissingPorts s = (Ok tt, s')) as Hall.
    { unfold assignMissingPorts.
      unfold mbind at 1, prog_bind at 1, bind at 1. by rewrite query_ok. }
    unfold eval, exec. rewrite Hall. simpl.
    split; [done|split; [|by repeat split]].
    apply Forall2_same_length_lookup. split; [by eapply Forall2_length|].
    intros i r r' Hr Hr'.
    pose proof (Forall2_lookup_lr _ _ _ _ _ _ Hrows Hr Hr') as Ha.
    unfold assigned_in, port_assigned in *.
    destruct Ha as (-> & -> & -> & -> & -> & -> & -> & -> & -> & Hport).
    repeat split. apply list_elem_of_lookup_2 in Hr.
    destruct (stream_port r) as [q|] eqn:Hq.
    + rewrite decide_False in Hport; [done|]. intros Hin.
      apply list_elem_of_fmap in Hin as (st & Hid & Hst).
      apply list_elem_of_filter in Hst as [Hnone Hst].
      rewrite (NoDup_fmap_same id (audio_stations s) r st) in Hq by done. congruence.
    + rewrite decide_True in Hport; [done|]. apply list_elem_of_fmap. exists r.
      split; [done|]. by apply list_elem_of_filter.
Qed.

Lemma assignMissingPorts_assigns_witness :
  let s := with_stations [oldies; jazz] one_station in
  let s' := exec assignMissingPorts s in
  eval assignMissingPorts s = Ok tt ∧
  Forall2 port_assigned (audio_stations s) (audio_stations s') ∧
  NoDup (ports (audio_stations s')) ∧
  station_mount_points s' = station_mount_points s ∧
  station_playlists s' = station_playlists s ∧
  icecastContainers s' = icecastContainers s ∧ commands s' = commands s.
Proof.
  apply (assignMissingPorts_assigns (with_stations [oldies; jazz] one_station)).
  - reflexivity.
  - change (NoDup ["99887766-0000"; "0a1b2c3d-0000"]).
    apply NoDup_cons. split; [by intros ?%list_elem_of_singleton|apply NoDup_singleton].
  - change (NoDup [8001]). apply NoDup_singleton.
  - simpl. lia.
Defined.

Example assignMissingPorts_sample :
  stream_port <$> audio_stations (exec assignMissingPorts
                                    (with_stations [oldies; jazz] one_station))
  = [Some 8002; Some 8001].
Proof. vm_compute. reflexivity. Qed.
End ProvisioningFacts.
